(** * python_base_app: the recurring-task scheduler and the configuration setter

    A shallow embedding of [src/python_base_app/base_app.py] (classes
    [RecurringTask] and [BaseApp]) and of [Configuration.set_config_value]
    from [src/python_base_app/configuration.py], together with the
    properties of the specification that concern them.

    Conventions of the embedding.
    - A [datetime] is the number of microseconds since the epoch, a [Z];
      a [timedelta] is a number of microseconds, a [Z].  The float
      returned by [total_seconds()] is kept as that exact number of
      microseconds; a threshold of [s] whole seconds is [s * 1000000].
    - Python objects that are shared and mutated ([RecurringTask]
      instances) live in a store indexed by object identity; the heap
      [_recurring_tasks] holds identities, as the Python list holds
      references.
    - The wall clock, [time.sleep] and the handlers are the environment:
      the clock is a function of the number of readings made so far.
    - Loops that the code does not bound take a fuel argument; [None]
      means the fuel ran out, never a Python result. *)

From Stdlib Require Import ZArith Lia Ascii.
From stdpp Require Import gmap strings list fin_maps sorting.

(** ** Python's [heapq] on a list, with the comparison [<] of the items

    [heapq] belongs to the Python standard library; the functions below
    follow [Lib/heapq.py] statement by statement.  Only [<] is ever
    applied to the items. *)

Module heapq.
Section defs.
Context {A : Type} (lt : A → A → bool).

(** [(pos - 1) >> 1] *)
Definition parent (pos : nat) : nat := (pos - 1) / 2.

(** The [while pos > startpos] loop of [_siftdown].  [pos] decreases at
    every turn, so [pos] turns always suffice; with no fuel left the
    loop is over and [heap[pos] = newitem] is what remains to do. *)
Fixpoint siftdown_loop (fuel : nat) (heap : list A) (startpos pos : nat)
    (newitem : A) : list A :=
  match fuel with
  | O => <[pos := newitem]> heap
  | S fuel' =>
      if startpos <? pos then
        match heap !! parent pos with
        | Some par =>
            if lt newitem par
            then siftdown_loop fuel' (<[pos := par]> heap) startpos (parent pos) newitem
            else <[pos := newitem]> heap
        | None => <[pos := newitem]> heap
        end
      else <[pos := newitem]> heap
  end.

(** [_siftdown(heap, startpos, pos)]; [heap[pos]] out of range is an
    [IndexError] in Python, which no caller below can trigger. *)
Definition _siftdown (heap : list A) (startpos pos : nat) : list A :=
  match heap !! pos with
  | Some newitem => siftdown_loop pos heap startpos pos newitem
  | None => heap
  end.

(** The choice of the child in [_siftup]:
    [if rightpos < endpos and not heap[childpos] < heap[rightpos]:
         childpos = rightpos]. *)
Definition smaller_child (heap : list A) (endpos childpos : nat) : nat :=
  let rightpos := childpos + 1 in
  if rightpos <? endpos then
    match heap !! childpos, heap !! rightpos with
    | Some c, Some r => if lt c r then childpos else rightpos
    | _, _ => childpos
    end
  else childpos.

(** The [while childpos < endpos] loop of [_siftup]: the smaller child
    moves up until a leaf is reached.  Returns the list and the final
    [pos]. *)
Fixpoint siftup_loop (fuel : nat) (heap : list A) (endpos pos : nat)
    : list A * nat :=
  match fuel with
  | O => (heap, pos)
  | S fuel' =>
      let childpos := 2 * pos + 1 in
      if childpos <? endpos then
        let childpos' := smaller_child heap endpos childpos in
        match heap !! childpos' with
        | Some c => siftup_loop fuel' (<[pos := c]> heap) endpos childpos'
        | None => (heap, pos)
        end
      else (heap, pos)
  end.

Definition _siftup (heap : list A) (pos : nat) : list A :=
  match heap !! pos with
  | Some newitem =>
      let '(heap', pos') := siftup_loop (length heap) heap (length heap) pos in
      _siftdown (<[pos' := newitem]> heap') pos pos'
  | None => heap
  end.

(** [heap.append(item); _siftdown(heap, 0, len(heap)-1)] *)
Definition heappush (heap : list A) (item : A) : list A :=
  _siftdown (heap ++ [item]) 0 (length heap).

(** [heappop]: [None] is the [IndexError] of [heap.pop()] on an empty
    list. *)
Definition heappop (heap : list A) : option (A * list A) :=
  match last heap with
  | None => None
  | Some lastelt =>
      match removelast heap with
      | [] => Some (lastelt, [])
      | returnitem :: rest =>
          Some (returnitem, _siftup (lastelt :: rest) 0)
      end
  end.

(** [for i in reversed(range(n//2)): _siftup(x, i)] *)
Fixpoint heapify_loop (i : nat) (x : list A) : list A :=
  match i with
  | O => x
  | S i' => heapify_loop i' (_siftup x i')
  end.

Definition heapify (x : list A) : list A :=
  heapify_loop (length x / 2) x.
End defs.

(** Every edge of the implicit tree whose parent index is at least [k]
    is in order for the key: the subtrees rooted at the indices from [k]
    on are heaps. *)
Definition ordered_from {A : Type} (key : A → Z) (k : nat) (l : list A) : Prop :=
  ∀ i x p, 0 < i → k ≤ parent i →
    l !! i = Some x → l !! parent i = Some p → (key p ≤ key x)%Z.

Definition heap_inv {A : Type} (key : A → Z) (l : list A) : Prop :=
  ordered_from key 0 l.

(** [desc s i]: index [i] lies in the subtree rooted at [s]. *)
Inductive desc (s : nat) : nat → Prop :=
| desc_refl : desc s s
| desc_child i c : desc s i → 0 < c → parent c = i → desc s c.
End heapq.

Local Open Scope Z_scope.

(** ** [base_app.py]: constants and the task model *)

Definition ETERNITY : Z := 24 * 3600.
Definition DEFAULT_TASK_INTERVAL : Z := 10.
Definition DEFAULT_MAXIMUM_TIMER_SLACK : Z := 5.
Definition DEFAULT_MINIMUM_DOWNTIME_DURATION : Z := 20.
Definition DEFAULT_DEBUG_MODE : bool := false.

(** [datetime.timedelta(seconds=s)] for a whole number of seconds, and
    the comparison of a [total_seconds()] value with a threshold given
    in whole seconds. *)
Definition timedelta (seconds : Z) : Z := seconds * 1000000.

(** What a call can do besides returning: raise an ordinary [Exception]
    or the [SignalHangUp] of the signal handler. *)
Inductive Outcome := Normal | RaisesException | RaisesSignalHangUp.

#[global] Instance Outcome_eq_dec : EqDecision Outcome.
Proof. solve_decision. Defined.

(** The three fields of [BaseAppConfigModel] the scheduler reads. *)
Record BaseAppConfigModel := {
  debug_mode : bool;
  minimum_downtime_duration : Z;
  maximum_timer_slack : Z }.

Definition default_config : BaseAppConfigModel :=
  {| debug_mode := DEFAULT_DEBUG_MODE;
     minimum_downtime_duration := DEFAULT_MINIMUM_DOWNTIME_DURATION;
     maximum_timer_slack := DEFAULT_MAXIMUM_TIMER_SLACK |}.

(** [RecurringTask].  [handler_method n] is what the handler does when
    it is called after [n] readings of the clock; [interval] is in
    seconds; [next_execution = None] is Python's [None]. *)
Record RecurringTask := {
  name : string;
  handler_method : nat → Outcome;
  interval : Z;
  next_execution : option Z;
  fixed_schedule : bool }.

(** [RecurringTask(p_name, p_handler_method, p_interval, p_fixed_schedule)] *)
Definition new_task (p_name : string) (p_handler_method : nat → Outcome)
    (p_interval : Z) (p_fixed_schedule : bool) : RecurringTask :=
  {| name := p_name; handler_method := p_handler_method;
     interval := p_interval; next_execution := None;
     fixed_schedule := p_fixed_schedule |}.

Definition set_next_execution (t : RecurringTask) (ne : Z) : RecurringTask :=
  {| name := name t; handler_method := handler_method t;
     interval := interval t; next_execution := Some ne;
     fixed_schedule := fixed_schedule t |}.

(** [__lt__] and [__gt__] compare [self.next_execution] with a
    [datetime]; [None] stands for the [TypeError] of comparing Python's
    [None] with a [datetime]. *)
Definition __lt__ (self : RecurringTask) (p_other : Z) : option bool :=
  ne ← next_execution self; Some (ne <? p_other).

Definition __gt__ (self : RecurringTask) (p_other : Z) : option bool :=
  ne ← next_execution self; Some (p_other <? ne).

(** [a < b] on two tasks, as [heapq] evaluates it: [a.__lt__(b)] is
    [a.next_execution < b], where [datetime.__lt__] does not know [b]
    and Python falls back on the reflected [b.__gt__(a.next_execution)]. *)
Definition task_lt (a b : RecurringTask) : option bool :=
  ne ← next_execution a; __gt__ b ne.

(** [now > task] in [event_queue]: [datetime.__gt__] does not know the
    task, so Python evaluates the reflected [task.__lt__(now)]. *)
Definition now_gt_task (now : Z) (task : RecurringTask) : option bool :=
  __lt__ task now.

(** [__sub__] and [__rsub__] with a [datetime] operand. *)
Definition __sub__ (self : RecurringTask) (p_other : Z) : option Z :=
  ne ← next_execution self; Some (ne - p_other).

Definition __rsub__ (self : RecurringTask) (p_other : Z) : option Z :=
  ne ← next_execution self; Some (p_other - ne).

Section clock.
(** The wall clock: [utcnow n] is the value of the reading made after
    [n] earlier readings. *)
Context (utcnow : nat → Z).

(** [compute_next_execution_time], given the number of readings made
    so far; returns the task and the new number of readings. *)
Definition compute_next_execution_time (self : RecurringTask) (n : nat)
    : RecurringTask * nat :=
  match next_execution self with
  | None => (set_next_execution self (utcnow n), S n)
  | Some ne =>
      if fixed_schedule self
      then (set_next_execution self (ne + timedelta (interval self)), n)
      else (set_next_execution self (utcnow n + timedelta (interval self)), S n)
  end.
End clock.

(** [adapt_to_delay]; [p_delay] is [timedelta(seconds=p_delay)] in
    microseconds.  The sum is taken in [Z]; the source raises
    [OverflowError] when it is not a datetime, see
    [adapt_to_delay_overflows] below. *)
Definition adapt_to_delay (self : RecurringTask) (p_delay : Z) : RecurringTask :=
  match next_execution self with
  | Some ne => set_next_execution self (ne + p_delay)
  | None => self
  end.

(** ** The range of [datetime] and the precision of [total_seconds()] *)

(** The times of the model count microseconds from [datetime.min], so
    that a datetime is a number from [0] to [DATETIME_MAX], which is
    [datetime.max].  [datetime + timedelta] raises [OverflowError] when
    the sum is not a datetime.  The definitions of the model add in
    [Z]: they give what the source does as long as no addition
    overflows.  The functions [..._overflows] say, step by step, whether
    an addition of the source overflows; the theorems on the contents
    of the queue are stated for the runs in which none does. *)
Definition DATETIME_MAX : Z := 315537897599999999.

Definition is_datetime (t : Z) : bool := (0 <=? t) && (t <=? DATETIME_MAX).

(** The delays that [event_queue] passes on are doubles,
    [(now - task).total_seconds()], which [adapt_to_delay] turns into a
    [timedelta] again.  Below [TOTAL_SECONDS_EXACT] seconds (about 272
    years) doubles are less than a microsecond apart and the
    [timedelta] is the duration [now - task] itself; from there on it
    can be a microsecond off. *)
Definition TOTAL_SECONDS_EXACT : Z := 2 ^ 33.

(** The additions of [compute_next_execution_time]: when the sum is
    not a datetime the source raises and assigns nothing. *)
Definition compute_next_execution_time_overflows (utcnow : nat → Z)
    (self : RecurringTask) (n : nat) : bool :=
  match next_execution self with
  | None => false
  | Some ne =>
      negb (is_datetime ((if fixed_schedule self then ne else utcnow n)
                         + timedelta (interval self)))
  end.

(** The addition of [adapt_to_delay]. *)
Definition adapt_to_delay_overflows (self : RecurringTask) (p_delay : Z) : bool :=
  match next_execution self with
  | Some ne => negb (is_datetime (ne + p_delay))
  | None => false
  end.

(** ** [BaseApp]: the state of the scheduler *)

(** What the application does that can be observed from outside. *)
Inductive Event :=
| EvSleep (wait : Z)                        (* [time.sleep(wait)], microseconds *)
| EvHandler (task : nat) (due delay : Z)    (* [task.handler_method()] *)
| EvTrackDowntime (p_downtime : Z)          (* [track_downtime], microseconds *)
| EvHandleDowntime (p_downtime : Z).        (* [handle_downtime], whole seconds *)

#[global] Instance Event_eq_dec : EqDecision Event.
Proof. solve_decision. Defined.

(** [objects] is the store of the [RecurringTask] instances, indexed by
    identity; [_recurring_tasks] is the heap of references; [readings]
    counts the calls of [utcnow] made so far; [log] lists the events,
    the latest first. *)
Record BaseApp := {
  objects : list RecurringTask;
  _recurring_tasks : list nat;
  _downtime : Z;
  _app_config : BaseAppConfigModel;
  single_run : bool;
  readings : nat;
  log : list Event }.

(** [BaseApp.__init__], with the tasks the application has created. *)
Definition init (objs : list RecurringTask) (cfg : BaseAppConfigModel)
    (p_single_run : bool) : BaseApp :=
  {| objects := objs; _recurring_tasks := []; _downtime := 0;
     _app_config := cfg; single_run := p_single_run; readings := 0; log := [] |}.

Definition with_queue (s : BaseApp) (objs : list RecurringTask) (q : list nat)
    (n : nat) : BaseApp :=
  {| objects := objs; _recurring_tasks := q; _downtime := _downtime s;
     _app_config := _app_config s; single_run := single_run s;
     readings := n; log := log s |}.

Definition with_downtime (s : BaseApp) (d : Z) : BaseApp :=
  {| objects := objects s; _recurring_tasks := _recurring_tasks s; _downtime := d;
     _app_config := _app_config s; single_run := single_run s;
     readings := readings s; log := log s |}.

Definition emit (e : Event) (s : BaseApp) : BaseApp :=
  {| objects := objects s; _recurring_tasks := _recurring_tasks s;
     _downtime := _downtime s; _app_config := _app_config s;
     single_run := single_run s; readings := readings s; log := e :: log s |}.

Definition tick (s : BaseApp) : BaseApp :=
  with_queue s (objects s) (_recurring_tasks s) (S (readings s)).

(** The key by which the heap orders a reference: the [next_execution]
    of the object it refers to.  The value [0] stands in where Python
    would raise ([next_execution] still [None]); [keys_set] below says
    that no queued reference is in that case. *)
Definition key_of (objs : list RecurringTask) (id : nat) : Z :=
  match objs !! id with
  | Some t => default 0 (next_execution t)
  | None => 0
  end.

Definition heap_lt (objs : list RecurringTask) (a b : nat) : bool :=
  key_of objs a <? key_of objs b.

Definition due_of (s : BaseApp) (id : nat) : Z := key_of (objects s) id.

Definition reset_down_time (s : BaseApp) : BaseApp := with_downtime s 0.

(** The loop [for task in self._recurring_tasks: task.adapt_to_delay(..)]:
    one update of the store per reference in the list. *)
Definition adapt_object (p_delay : Z) (objs : list RecurringTask) (id : nat)
    : list RecurringTask :=
  match objs !! id with
  | Some t => <[id := adapt_to_delay t p_delay]> objs
  | None => objs
  end.

Definition adapt_active_recurring_tasks (p_delay : Z) (s : BaseApp) : BaseApp :=
  let objs := foldl (adapt_object p_delay) (objects s) (_recurring_tasks s) in
  with_queue s objs (heapq.heapify (heap_lt objs) (_recurring_tasks s)) (readings s).

(** [track_downtime]; [p_downtime] is in microseconds.  The source
    keeps [_downtime] as a sum of doubles of seconds; the model keeps
    the exact sum of the microseconds.  The two agree on a single
    tracked delay and on whether the sum is zero, positive or has
    grown; the digits of a sum of several delays can differ.  The loop
    of [adapt_active_recurring_tasks] ends with [OverflowError] when an
    addition overflows, see [adapt_active_recurring_tasks_overflows]. *)
Definition track_downtime (p_downtime : Z) (s : BaseApp) : BaseApp :=
  let s := emit (EvTrackDowntime p_downtime) s in
  let s := with_downtime s (_downtime s + p_downtime) in
  adapt_active_recurring_tasks p_downtime s.

(** The hook [handle_downtime]; the base class only logs. *)
Definition handle_downtime (p_downtime : Z) (s : BaseApp) : BaseApp :=
  emit (EvHandleDowntime p_downtime) s.

Section scheduler.
Context (utcnow : nat → Z).
(** [sleep n wait]: what [time.sleep(wait)] does when it is called
    after [n] readings of the clock. *)
Context (sleep : nat → Z → Outcome).

(** [add_recurring_task(p_recurring_task)]; the argument is a
    reference into the store.  When the addition of
    [compute_next_execution_time] overflows, the source leaves
    [add_recurring_task] with [OverflowError] before [heappush]; the
    definition gives what the source does when
    [compute_next_execution_time_overflows] is false. *)
Definition add_recurring_task (p_recurring_task : nat) (s : BaseApp) : BaseApp :=
  match objects s !! p_recurring_task with
  | Some t =>
      let '(t', n) := compute_next_execution_time utcnow t (readings s) in
      let objs := <[p_recurring_task := t']> (objects s) in
      with_queue s objs
        (heapq.heappush (heap_lt objs) (_recurring_tasks s) p_recurring_task) n
  | None => s
  end.

(** The Waking step of [event_queue] (the [if task is not None] block
    after the sleep); [task] is the reference read before the sleep. *)
Definition waking (task : nat) (s : BaseApp) : BaseApp :=
  let now := utcnow (readings s) in
  let s := tick s in
  let overslept := now - due_of s task in
  if timedelta (maximum_timer_slack (_app_config s)) <? overslept
  then track_downtime overslept s
  else s.

(** What one turn of the [while task_executed] loop did. *)
Inductive Turn := Executed | NotDue | Raised (o : Outcome).

(** The body of the [while task_executed] loop. *)
Definition catching_up_turn (s : BaseApp) : BaseApp * Turn :=
  match _recurring_tasks s !! 0%nat with
  | None => (s, Raised RaisesException)
  | Some task =>
      let now := utcnow (readings s) in
      let s := tick s in
      if due_of s task <? now then
        let due := due_of s task in
        let delay := now - due in
        match heapq.heappop (heap_lt (objects s)) (_recurring_tasks s) with
        | None => (s, Raised RaisesException)
        | Some (task, rest) =>
            let s := with_queue s (objects s) rest (readings s) in
            let s := add_recurring_task task s in
            let result :=
              match objects s !! task with
              | Some t => handler_method t (readings s)
              | None => Normal
              end in
            let s := emit (EvHandler task due delay) s in
            match result with
            | Normal =>
                if timedelta (minimum_downtime_duration (_app_config s)) <? delay
                then (track_downtime delay s, Executed)
                else (s, Executed)
            | o => (s, Raised o)
            end
        end
      else (s, NotDue)
  end.

(** The [while task_executed] loop. *)
Fixpoint catching_up (fuel : nat) (s : BaseApp) : option (BaseApp * Outcome) :=
  match fuel with
  | O => None
  | S fuel' =>
      match catching_up_turn s with
      | (s', Executed) => catching_up fuel' s'
      | (s', NotDue) => Some (s', Normal)
      | (s', Raised o) => Some (s', o)
      end
  end.

(** The Reporting step: [if self._downtime > 0: ...]. *)
Definition reporting (s : BaseApp) : BaseApp :=
  if 0 <? _downtime s
  then reset_down_time (handle_downtime (Z.quot (_downtime s) 1000000) s)
  else s.

(** The Sleeping and Waking steps: from the first reading of the clock
    to the end of the [if wait_in_seconds > 0] block. *)
Definition sleeping (s : BaseApp) : BaseApp * Outcome :=
  let now := utcnow (readings s) in
  let s := tick s in
  let task := _recurring_tasks s !! 0%nat in
  let wait_in_seconds :=
    match task with
    | Some task => due_of s task - now
    | None => timedelta ETERNITY
    end in
  if 0 <? wait_in_seconds then
    let s := emit (EvSleep wait_in_seconds) s in
    match sleep (readings s) wait_in_seconds with
    | RaisesSignalHangUp => (s, RaisesSignalHangUp)
    | slept =>
        if bool_decide (slept = RaisesException) && debug_mode (_app_config s)
        then (s, RaisesException)
        else
          match task with
          | Some task => (waking task s, Normal)
          | None => (s, Normal)
          end
    end
  else (s, Normal).

(** The body of the [try] of one turn of [while not done]. *)
Definition cycle_body (fuel : nat) (s : BaseApp) : option (BaseApp * Outcome) :=
  match sleeping s with
  | (s, Normal) =>
      match _recurring_tasks s with
      | [] => Some (s, Normal)
      | _ :: _ =>
          match catching_up fuel s with
          | Some (s, Normal) => Some (reporting s, Normal)
          | r => r
          end
      end
  | r => Some r
  end.

(** How a turn of [while not done] ends: the loop goes on, [done] is
    set, or an exception leaves [event_queue]. *)
Inductive CycleEnd := Continue | Done | Propagated.

(** One turn of [while not done], with its two [except] clauses and
    the test of [single_run]. *)
Definition cycle (fuel : nat) (s : BaseApp) : option (BaseApp * CycleEnd) :=
  match cycle_body fuel s with
  | None => None
  | Some (s, RaisesSignalHangUp) => Some (s, Done)
  | Some (s, RaisesException) =>
      if debug_mode (_app_config s) then Some (s, Propagated)
      else Some (s, if single_run s then Done else Continue)
  | Some (s, Normal) => Some (s, if single_run s then Done else Continue)
  end.

(** [event_queue]: at most [cycles] turns of the outer loop. *)
Fixpoint event_queue (cycles fuel : nat) (s : BaseApp) : option (BaseApp * CycleEnd) :=
  match cycles with
  | O => None
  | S cycles' =>
      match cycle fuel s with
      | Some (s', Continue) => event_queue cycles' fuel s'
      | r => r
      end
  end.
End scheduler.

(** ** Well-formed states and the operations of the queue *)

(** The state the scheduler keeps: the list of references is a heap for
    the keys in the store, no object is queued twice, and every queued
    reference denotes an object whose [next_execution] is set. *)
Record wf (s : BaseApp) : Prop := {
  wf_heap : heapq.heap_inv (key_of (objects s)) (_recurring_tasks s);
  wf_nodup : NoDup (_recurring_tasks s);
  wf_set : ∀ id, id ∈ _recurring_tasks s →
             ∃ t ne, objects s !! id = Some t ∧ next_execution t = Some ne }.

(** A check of the heap order that computes. *)
Definition is_heap (objs : list RecurringTask) (q : list nat) : bool :=
  forallb (λ i, match q !! i, q !! heapq.parent i with
                | Some x, Some p => key_of objs p <=? key_of objs x
                | _, _ => true
                end) (seq 1 (length q - 1)).

Definition keys_set (objs : list RecurringTask) (q : list nat) : bool :=
  forallb (λ id, match objs !! id with
                 | Some t => bool_decide (is_Some (next_execution t))
                 | None => false
                 end) q.

(** The three operations on the queue: [add_recurring_task] of an
    object of the store, the pop and reinsertion that [event_queue]
    performs on the earliest task, and [adapt_active_recurring_tasks]. *)
Inductive QueueOp :=
| OpRegister (task : nat)
| OpPopReinsert
| OpShiftAll (p_delay : Z).

Definition pop_reinsert (utcnow : nat → Z) (s : BaseApp) : BaseApp :=
  match heapq.heappop (heap_lt (objects s)) (_recurring_tasks s) with
  | Some (task, rest) =>
      add_recurring_task utcnow task (with_queue s (objects s) rest (readings s))
  | None => s
  end.

Definition run_op (utcnow : nat → Z) (s : BaseApp) (op : QueueOp) : BaseApp :=
  match op with
  | OpRegister task => add_recurring_task utcnow task s
  | OpPopReinsert => pop_reinsert utcnow s
  | OpShiftAll p_delay => adapt_active_recurring_tasks p_delay s
  end.

Definition run_ops (utcnow : nat → Z) (s : BaseApp) (ops : list QueueOp) : BaseApp :=
  foldl (run_op utcnow) s ops.

(** The references registered by a sequence of operations. *)
Definition registered (ops : list QueueOp) : list nat :=
  omap (λ op, match op with OpRegister task => Some task | _ => None end) ops.

(** The handler calls of a log, the earliest first, as pairs of the
    task and the due time it was executed for. *)
Definition executions (evs : list Event) : list (nat * Z) :=
  omap (λ e, match e with EvHandler task due _ => Some (task, due) | _ => None end)
       (reverse evs).

(** The calls of the downtime hook recorded in a log. *)
Definition hook_calls (evs : list Event) : list Z :=
  omap (λ e, match e with EvHandleDowntime d => Some d | _ => None end) evs.

(** The tracked delays recorded in a log. *)
Definition tracked (evs : list Event) : list Z :=
  omap (λ e, match e with EvTrackDowntime d => Some d | _ => None end) evs.

(** What the catch-up theorems ask of a state, for a bound [T] on the
    clock: a well-formed, non-empty queue of tasks with positive
    intervals whose handlers return, none of them further behind [T]
    than [minimum_downtime_duration]. *)
Record phase_ok (T : Z) (s : BaseApp) : Prop := {
  phase_wf : wf s;
  phase_nonempty : _recurring_tasks s ≠ [];
  phase_tasks : ∀ id t, id ∈ _recurring_tasks s → objects s !! id = Some t →
                  0 < interval t ∧ ∀ n, handler_method t n = Normal;
  phase_noshift : ∀ id, id ∈ _recurring_tasks s →
                  T - due_of s id ≤ timedelta (minimum_downtime_duration (_app_config s)) }.

(** How far the queued tasks are behind [T], summed: it bounds the
    number of turns of the catch-up loop. *)
Definition backlog (T : Z) (s : BaseApp) : nat :=
  sum_list_with (λ id, Z.to_nat (T - due_of s id)) (_recurring_tasks s).

(** The clock never goes backwards. *)
Definition monotone (utcnow : nat → Z) : Prop :=
  ∀ m n, (m ≤ n)%nat → utcnow m ≤ utcnow n.

Definition nonneg_intervals (s : BaseApp) : Prop :=
  ∀ id t, id ∈ _recurring_tasks s → objects s !! id = Some t → 0 ≤ interval t.

(** ** The steps in which an addition overflows *)

(** The loop of [adapt_active_recurring_tasks]: whether a call of
    [adapt_to_delay] overflows.  The store is followed through the
    loop as in [adapt_object]. *)
Definition adapt_active_recurring_tasks_overflows (p_delay : Z) (s : BaseApp) : bool :=
  (foldl (λ acc id,
            (adapt_object p_delay acc.1 id,
             acc.2 || match acc.1 !! id with
                      | Some t => adapt_to_delay_overflows t p_delay
                      | None => false
                      end))
         (objects s, false) (_recurring_tasks s)).2.

Section overflows.
Context (utcnow : nat → Z) (sleep : nat → Z → Outcome).

(** A turn of the [while task_executed] loop: the addition in
    [add_recurring_task] for the popped task and, when the handler has
    returned and the delay is tracked, the additions of the shift. *)
Definition catching_up_turn_overflows (s : BaseApp) : bool :=
  match _recurring_tasks s !! 0%nat with
  | None => false
  | Some task =>
      let now := utcnow (readings s) in
      let s := tick s in
      let delay := now - due_of s task in
      if due_of s task <? now then
        match objects s !! task with
        | None => false
        | Some t =>
            compute_next_execution_time_overflows utcnow t (readings s)
            || (let s1 := pop_reinsert utcnow s in
                bool_decide (handler_method t (readings s1) = Normal)
                && (timedelta (minimum_downtime_duration (_app_config s)) <? delay)
                && adapt_active_recurring_tasks_overflows delay s1)
        end
      else false
  end.

Fixpoint catching_up_overflows (fuel : nat) (s : BaseApp) : bool :=
  match fuel with
  | O => false
  | S fuel' =>
      catching_up_turn_overflows s
      || match catching_up_turn utcnow s with
         | (s', Executed) => catching_up_overflows fuel' s'
         | _ => false
         end
  end.

(** The Waking step: the additions of the shift, when the oversleep is
    tracked. *)
Definition waking_overflows (task : nat) (s : BaseApp) : bool :=
  let now := utcnow (readings s) in
  let s := tick s in
  let overslept := now - due_of s task in
  (timedelta (maximum_timer_slack (_app_config s)) <? overslept)
  && adapt_active_recurring_tasks_overflows overslept s.

Definition sleeping_overflows (s : BaseApp) : bool :=
  let now := utcnow (readings s) in
  let s := tick s in
  let task := _recurring_tasks s !! 0%nat in
  let wait_in_seconds :=
    match task with
    | Some task => due_of s task - now
    | None => timedelta ETERNITY
    end in
  if 0 <? wait_in_seconds then
    let s := emit (EvSleep wait_in_seconds) s in
    match sleep (readings s) wait_in_seconds with
    | RaisesSignalHangUp => false
    | slept =>
        if bool_decide (slept = RaisesException) && debug_mode (_app_config s)
        then false
        else
          match task with
          | Some task => waking_overflows task s
          | None => false
          end
    end
  else false.

Definition cycle_overflows (fuel : nat) (s : BaseApp) : bool :=
  sleeping_overflows s
  || match sleeping utcnow sleep s with
     | (s1, Normal) =>
         match _recurring_tasks s1 with
         | [] => false
         | _ :: _ => catching_up_overflows fuel s1
         end
     | _ => false
     end.

Fixpoint event_queue_overflows (cycles fuel : nat) (s : BaseApp) : bool :=
  match cycles with
  | O => false
  | S cycles' =>
      cycle_overflows fuel s
      || match cycle utcnow sleep fuel s with
         | Some (s', Continue) => event_queue_overflows cycles' fuel s'
         | _ => false
         end
  end.
End overflows.

(** The operations on the queue. *)
Definition run_op_overflows (utcnow : nat → Z) (s : BaseApp) (op : QueueOp) : bool :=
  match op with
  | OpRegister task =>
      match objects s !! task with
      | Some t => compute_next_execution_time_overflows utcnow t (readings s)
      | None => false
      end
  | OpPopReinsert =>
      match _recurring_tasks s !! 0%nat with
      | Some task =>
          match objects s !! task with
          | Some t => compute_next_execution_time_overflows utcnow t (readings s)
          | None => false
          end
      | None => false
      end
  | OpShiftAll p_delay => adapt_active_recurring_tasks_overflows p_delay s
  end.

Fixpoint run_ops_overflow (utcnow : nat → Z) (s : BaseApp) (ops : list QueueOp) : bool :=
  match ops with
  | [] => false
  | op :: ops' =>
      run_op_overflows utcnow s op
      || run_ops_overflow utcnow (run_op utcnow s op) ops'
  end.

(** What keeps a catch-up phase without a shift in the range of
    [datetime], for a bound [T] on the clock: the due times are
    datetimes and [T] plus any interval is one. *)
Definition phase_in_range (T : Z) (s : BaseApp) : Prop :=
  ∀ id t, id ∈ _recurring_tasks s → objects s !! id = Some t →
    is_datetime (due_of s id) = true ∧ T + timedelta (interval t) ≤ DATETIME_MAX.

(** ** [configuration.py]: [ConfigModel] and [Configuration.set_config_value] *)

(** The values an attribute of a section can hold: [None], a [bool], an
    [int], a [str], a class object (the marker of an option that has a
    type but no value yet, such as [NONE_STRING]), or an instance of
    another class, given by the name of its class ([dict], [float],
    ...); such an instance has no [__name__]. *)
Inductive PyValue :=
| VNone
| VBool (b : bool)
| VInt (z : Z)
| VStr (s : string)
| VType (class_name : string)
| VOther (class_name : string).

#[global] Instance PyValue_eq_dec : EqDecision PyValue.
Proof. solve_decision. Defined.

(** [type(v).__name__] *)
Definition type_name (v : PyValue) : string :=
  match v with
  | VNone => "NoneType"
  | VBool _ => "bool"
  | VInt _ => "int"
  | VStr _ => "str"
  | VType _ => "type"
  | VOther c => c
  end.

Inductive PyExc := ConfigurationException | AttributeError | KeyError.

#[global] Instance PyExc_eq_dec : EqDecision PyExc.
Proof. solve_decision. Defined.

(** How a call ends: it returns or it raises. *)
Inductive Ended := Returned | Raise (e : PyExc).

Definition NONE_TYPE_PREFIX : string := "_TYPE_".

Definition VALID_BOOLEAN_TRUE_VALUES : list string :=
  ["1"; "TRUE"; "T"; "YES"; "WAHR"; "JA"; "J"].
Definition VALID_BOOLEAN_FALSE_VALUES : list string :=
  ["0"; "FALSE"; "F"; "NO"; "FALSCH"; "NEIN"; "N"].

(** A [ConfigModel] is its [__dict__]: [__setattr__] stores every
    attribute there, [section_name] and [_options] included. *)
Record ConfigModel := { __dict__ : gmap string PyValue }.

(** [ConfigModel.__setattr__] *)
Definition __setattr__ (self : ConfigModel) (p_option_name : string)
    (p_value : PyValue) : ConfigModel :=
  match p_value with
  | VType _ =>
      {| __dict__ := <[(NONE_TYPE_PREFIX +:+ p_option_name) := p_value]> (__dict__ self) |}
  | _ => {| __dict__ := <[p_option_name := p_value]> (__dict__ self) |}
  end.

(** [ConfigModel.__init__(p_section_name)] *)
Definition new_config_model (p_section_name : string) : ConfigModel :=
  __setattr__ (__setattr__ {| __dict__ := ∅ |} "section_name" (VStr p_section_name))
    "_options" (VOther "dict").

(** [dict.get(key)]: [None] for a missing key. *)
Definition dict_get (d : gmap string PyValue) (key : string) : PyValue :=
  default VNone (d !! key).

(** [ConfigModel.get_option_type]: [value.__name__] is an
    [AttributeError] unless [value] is a class; [self.__dict__[name]] is
    a [KeyError] when the name is missing. *)
Definition get_option_type (self : ConfigModel) (p_option_name : string)
    : string + PyExc :=
  match dict_get (__dict__ self) (NONE_TYPE_PREFIX +:+ p_option_name) with
  | VNone =>
      match __dict__ self !! p_option_name with
      | Some v => inl (type_name v)
      | None => inr KeyError
      end
  | VType class_name => inl class_name
  | _ => inr AttributeError
  end.

(** [ConfigModel.has_option] *)
Definition has_option (self : ConfigModel) (p_option_name : string) : bool :=
  bool_decide (is_Some (__dict__ self !! p_option_name))
  || bool_decide (is_Some (__dict__ self !! (NONE_TYPE_PREFIX +:+ p_option_name))).

(** [Configuration]: the sections by name.  Each name refers to an
    object of its own. *)
Record Configuration := { _sections : gmap string ConfigModel }.

Section set_config_value.
(** Python's [str.upper] and [int] on a string ([None]: [int] raised). *)
Context (upper : string → string) (int : string → option Z).

(** [Configuration.set_config_value]; returns the configuration as the
    call leaves it and how the call ended. *)
Definition set_config_value (self : Configuration)
    (p_section_name p_option p_option_value : string) : Configuration * Ended :=
  match _sections self !! p_section_name with
  | None => (self, Raise ConfigurationException)
  | Some section =>
      let store section' :=
        {| _sections := <[p_section_name := section']> (_sections self) |} in
      if negb (has_option section p_option)
      then (self, Raise ConfigurationException)
      else
        match get_option_type section p_option with
        | inr e => (self, Raise e)
        | inl option_type =>
            let upper_value := upper p_option_value in
            if bool_decide (option_type = "bool") then
              if bool_decide (upper_value ∈ VALID_BOOLEAN_TRUE_VALUES)
              then (store (__setattr__ section p_option (VBool true)), Returned)
              else if bool_decide (upper_value ∈ VALID_BOOLEAN_FALSE_VALUES)
              then (store (__setattr__ section p_option (VBool false)), Returned)
              else (self, Raise ConfigurationException)
            else if bool_decide (option_type = "int") then
              match int p_option_value with
              | Some intValue =>
                  (store (__setattr__ section p_option (VInt intValue)), Returned)
              | None => (self, Raise ConfigurationException)
              end
            else (store (__setattr__ section p_option (VStr p_option_value)), Returned)
        end
  end.
End set_config_value.

(** The value the setter stores for an option of type [option_type]:
    a [bool] for [bool], an [int] for [int], the string itself for any
    other type; [None] when the string is not acceptable. *)
Definition coerced (upper : string → string) (int : string → option Z)
    (option_type p_option_value : string) : option PyValue :=
  if bool_decide (option_type = "bool") then
    if bool_decide (upper p_option_value ∈ VALID_BOOLEAN_TRUE_VALUES)
    then Some (VBool true)
    else if bool_decide (upper p_option_value ∈ VALID_BOOLEAN_FALSE_VALUES)
    then Some (VBool false)
    else None
  else if bool_decide (option_type = "int") then VInt <$> int p_option_value
  else Some (VStr p_option_value).

(** ** Concrete tasks, clocks and states used in the examples *)

Definition returns : nat → Outcome := λ _, Normal.
Definition fails : nat → Outcome := λ _, RaisesException.

(** A clock that shows [T] at every reading. *)
Definition frozen_clock (T : Z) : nat → Z := λ _, T.

(** A sleep that always runs to its end. *)
Definition sound_sleep : nat → Z → Outcome := λ _ _, Normal.

(** A task that has been given a due time. *)
Definition task_due (p_name : string) (p_handler_method : nat → Outcome)
    (p_interval due : Z) (p_fixed_schedule : bool) : RecurringTask :=
  set_next_execution
    (new_task p_name p_handler_method p_interval p_fixed_schedule) due.

Definition queued (objs : list RecurringTask) (q : list nat)
    (cfg : BaseAppConfigModel) : BaseApp :=
  {| objects := objs; _recurring_tasks := q; _downtime := 0;
     _app_config := cfg; single_run := false; readings := 0; log := [] |}.

(** Now is 100 s; three tasks were due 30 s, 20 s and 10 s ago. *)
Definition example_now : Z := 100000000.

Definition three_late (cfg : BaseAppConfigModel) : BaseApp :=
  queued [task_due "a" returns 60 (example_now - 30000000) false;
          task_due "b" returns 60 (example_now - 20000000) false;
          task_due "c" returns 60 (example_now - 10000000) false]
         [0; 1; 2]%nat cfg.

Definition lenient_config : BaseAppConfigModel :=
  {| debug_mode := false; minimum_downtime_duration := 30;
     maximum_timer_slack := 5 |}.

(** One task that is due exactly now. *)
Definition one_due_now : BaseApp :=
  queued [task_due "a" returns 60 example_now false] [0%nat] default_config.

(** Four tasks registered while the clock shows 0; afterwards it shows
    5 microseconds. *)
Definition coarse_clock (n : nat) : Z := if (n <? 4)%nat then 0 else 5.

Definition four_registered : BaseApp :=
  foldl (λ s id, add_recurring_task coarse_clock id s)
    (init [new_task "A" returns 10 false; new_task "B" returns 10 false;
           new_task "C" returns 10 false; new_task "D" returns 10 false]
       default_config false)
    [0; 1; 2; 3]%nat.

(** One task due in 10 s; the clock shows 0 and then [woken]. *)
Definition wake_clock (woken : Z) (n : nat) : Z :=
  match n with O => 0 | _ => woken end.

Definition one_pending : BaseApp :=
  queued [task_due "a" returns 60 10000000 false] [0%nat] default_config.

(** One late task whose handler raises. *)
Definition one_failing : BaseApp :=
  queued [task_due "a" fails 60 (example_now - 10000000) true] [0%nat] default_config.

(** The result of a catch-up phase with enough fuel, for the examples. *)
Definition after_catching_up (utcnow : nat → Z) (s : BaseApp) : BaseApp :=
  match catching_up utcnow 10 s with
  | Some (s', _) => s'
  | None => s
  end.

(** ** More of [configuration.py] *)

(** [ConfigModel.__getattr__], which Python calls when the ordinary
    lookup of an attribute has failed. *)
Definition __getattr__ (self : ConfigModel) (p_option_name : string)
    : PyValue + PyExc :=
  match dict_get (__dict__ self) (NONE_TYPE_PREFIX +:+ p_option_name) with
  | VNone =>
      match dict_get (__dict__ self) p_option_name with
      | VNone => inr AttributeError
      | value => inl value
      end
  | _ => inl VNone
  end.

(** The attribute access [self.name] for a name that is not a method
    of the class: the instance [__dict__] first, then [__getattr__]. *)
Definition getattr (self : ConfigModel) (name : string) : PyValue + PyExc :=
  match __dict__ self !! name with
  | Some value => inl value
  | None => __getattr__ self name
  end.

(** [BaseAppConfigModel.__init__(p_section_name)] of [base_app.py]:
    [NONE_STRING] is the class [str]. *)
Definition new_base_app_config_model (p_section_name : string) : ConfigModel :=
  let self := new_config_model p_section_name in
  let self := __setattr__ self "debug_mode" (VBool DEFAULT_DEBUG_MODE) in
  let self := __setattr__ self "log_level" (VType "str") in
  let self := __setattr__ self "spool_dir" (VType "str") in
  let self := __setattr__ self "minimum_downtime_duration"
                (VInt DEFAULT_MINIMUM_DOWNTIME_DURATION) in
  __setattr__ self "maximum_timer_slack" (VInt DEFAULT_MAXIMUM_TIMER_SLACK).

(** What [event_queue] reads of [self._app_config]: the three
    attributes, when they hold a [bool] and two [int]s. *)
Definition app_config_of (self : ConfigModel) : option BaseAppConfigModel :=
  match getattr self "debug_mode", getattr self "minimum_downtime_duration",
        getattr self "maximum_timer_slack" with
  | inl (VBool d), inl (VInt m), inl (VInt t) =>
      Some {| debug_mode := d; minimum_downtime_duration := m;
              maximum_timer_slack := t |}
  | _, _, _ => None
  end.

(** [Configuration.add_section]: the section is stored under its
    [section_name].  A name that is [None], a [bool], an [int] or a
    class is a key that no lookup by a [str] finds: the entries with
    [str] keys, which are the ones this model keeps, are unchanged.  A
    name that is an instance of another class may not be hashable; the
    model does not say what the call does then ([None]). *)
Definition add_section (self : Configuration) (p_section : ConfigModel)
    : option (Configuration * Ended) :=
  match getattr p_section "section_name" with
  | inl (VStr section_name) =>
      Some ({| _sections := <[section_name := p_section]> (_sections self) |}, Returned)
  | inl (VOther _) => None
  | inl _ => Some (self, Returned)
  | inr e => Some (self, Raise e)
  end.

(** [Configuration.__getitem__] *)
Definition __getitem__ (self : Configuration) (p_key : string)
    : ConfigModel + PyExc :=
  match _sections self !! p_key with
  | Some section => inl section
  | None => inr ConfigurationException
  end.

(** The character classes of [REGEX_CMDLINE_PARAMETER]. *)
Definition in_range (lo hi c : ascii) : bool :=
  (nat_of_ascii lo <=? nat_of_ascii c)%nat && (nat_of_ascii c <=? nat_of_ascii hi)%nat.

(** [[a-zA-Z_0-9]] *)
Definition is_option_char (c : ascii) : bool :=
  in_range "a" "z" c || in_range "A" "Z" c || Ascii.eqb c "_" || in_range "0" "9" c.

(** [[-a-zA-Z_0-9]] *)
Definition is_section_char (c : ascii) : bool :=
  Ascii.eqb c "-" || is_option_char c.

(** [.]: any character but the newline. *)
Definition is_dot_char (c : ascii) : bool := negb (Ascii.eqb c "010").

(** The longest prefix of characters of a class, and the rest. *)
Fixpoint span (p : ascii → bool) (s : string) : string * string :=
  match s with
  | EmptyString => (EmptyString, EmptyString)
  | String c s' =>
      if p c then let '(a, b) := span p s' in (String c a, b)
      else (EmptyString, s)
  end.

Fixpoint string_forall (p : ascii → bool) (s : string) : bool :=
  match s with
  | EmptyString => true
  | String c s' => p c && string_forall p s'
  end.

(** [REGEX_CMDLINE_PARAMETER.match(par)] with its three groups.  The
    pattern is a non-empty run of [[-a-zA-Z_0-9]] (group 1), a dot, a
    non-empty run of [[a-zA-Z_0-9]] (group 2), an equals sign, and any
    characters up to a newline (group 3).  The match is anchored at the
    start.  No class contains the character that must follow it, so a
    greedy group is the longest run of its class and giving characters
    back never helps. *)
Definition REGEX_CMDLINE_PARAMETER (par : string) : option (string * string * string) :=
  match span is_section_char par with
  | (EmptyString, _) => None
  | (section_name, String "." rest) =>
      match span is_option_char rest with
      | (EmptyString, _) => None
      | (option_name, String "=" rest') =>
          Some (section_name, option_name, (span is_dot_char rest').1)
      | _ => None
      end
  | _ => None
  end.

Section read_command_line_parameters.
Context (upper : string → string) (int : string → option Z).

(** [Configuration.read_command_line_parameters]: the settings are
    applied in order; a parameter that the pattern does not match is
    only logged; the first setting that raises ends the call. *)
Fixpoint read_command_line_parameters (self : Configuration)
    (p_parameters : list string) : Configuration * Ended :=
  match p_parameters with
  | [] => (self, Returned)
  | par :: rest =>
      match REGEX_CMDLINE_PARAMETER par with
      | Some (section_name, option_name, value) =>
          match set_config_value upper int self section_name option_name value with
          | (self', Returned) => read_command_line_parameters self' rest
          | raised => raised
          end
      | None => read_command_line_parameters self rest
      end
  end.
End read_command_line_parameters.

(** The name [get_option_type] looks up for the class of an option
    ([k = 1]), the name it would look up for the class of that name
    ([k = 2]), and so on. *)
Fixpoint marker_name (k : nat) (p_option_name : string) : string :=
  match k with
  | O => p_option_name
  | S k' => NONE_TYPE_PREFIX +:+ marker_name k' p_option_name
  end.

(** [type(v).__name__ == option_type] for a [bool], an [int] or a [str]. *)
Definition is_instance (v : PyValue) (option_type : string) : bool :=
  match v with
  | VBool _ => bool_decide (option_type = "bool")
  | VInt _ => bool_decide (option_type = "int")
  | VStr _ => bool_decide (option_type = "str")
  | _ => false
  end.

(** The option holds a [bool], an [int] or a [str], and the section has
    no attribute under the option's marker names. *)
Definition holds (section : ConfigModel) (p_option_name option_type : string) : Prop :=
  (∃ v, __dict__ section !! p_option_name = Some v ∧ is_instance v option_type = true)
  ∧ ∀ k, __dict__ section !! marker_name (S k) p_option_name = None.

(** ** More for the examples *)

(** The delays of the handler calls of a log. *)
Definition handler_delays (evs : list Event) : list Z :=
  omap (λ e, match e with EvHandler _ _ delay => Some delay | _ => None end) evs.

Definition with_single_run (s : BaseApp) (p_single_run : bool) : BaseApp :=
  {| objects := objects s; _recurring_tasks := _recurring_tasks s;
     _downtime := _downtime s; _app_config := _app_config s;
     single_run := p_single_run; readings := readings s; log := log s |}.

Definition with_config (s : BaseApp) (cfg : BaseAppConfigModel) : BaseApp :=
  {| objects := objects s; _recurring_tasks := _recurring_tasks s;
     _downtime := _downtime s; _app_config := cfg;
     single_run := single_run s; readings := readings s; log := log s |}.

(** A sleep that a signal ends. *)
Definition interrupted_sleep : nat → Z → Outcome := λ _ _, RaisesSignalHangUp.

Definition debug_config : BaseAppConfigModel :=
  {| debug_mode := true;
     minimum_downtime_duration := DEFAULT_MINIMUM_DOWNTIME_DURATION;
     maximum_timer_slack := DEFAULT_MAXIMUM_TIMER_SLACK |}.

(** A configuration with the section of the application. *)
Definition example_configuration : Configuration :=
  {| _sections := {[ "BaseApp" := new_base_app_config_model "BaseApp" ]} |}.

(** An [int] that reads one or two decimal digits, and an [upper] for
    the lower-case letters of ASCII; enough for the examples. *)
Definition example_int (s : string) : option Z :=
  let digit (c : ascii) : option Z :=
    if in_range "0" "9" c then Some (Z.of_nat (nat_of_ascii c) - 48) else None in
  match s with
  | String a EmptyString => digit a
  | String a (String b EmptyString) =>
      x ← digit a; y ← digit b; Some (10 * x + y)
  | _ => None
  end.

Fixpoint example_upper (s : string) : string :=
  match s with
  | EmptyString => EmptyString
  | String c s' =>
      String (if in_range "a" "z" c then ascii_of_nat (nat_of_ascii c - 32) else c)
             (example_upper s')
  end.

(** * Properties *)

Import heapq.

(** *** The heap invariant and its preservation

  The items are ordered by a key: [lt a b] is [key a < key b]. *)
Section heap_facts.
Local Open Scope nat_scope.
Context {A : Type} (lt : A → A → bool) (key : A → Z).
Hypothesis lt_key : ∀ a b, lt a b = (key a <? key b)%Z.

Lemma parent_spec i : 0 < i → i = 2 * parent i + 1 ∨ i = 2 * parent i + 2.
Proof.
  intros Hi. unfold parent.
  pose proof (Nat.div_mod_eq (i - 1) 2) as Hd.
  pose proof (Nat.mod_upper_bound (i - 1) 2) as Hm. lia.
Qed.

Lemma parent_lt i : 0 < i → parent i < i.
Proof. intros Hi. destruct (parent_spec i Hi); lia. Qed.

Lemma parent_left p : parent (2 * p + 1) = p.
Proof. destruct (parent_spec (2 * p + 1)); lia. Qed.

Lemma parent_right p : parent (2 * p + 2) = p.
Proof. destruct (parent_spec (2 * p + 2)); lia. Qed.

Lemma desc_ge s i : desc s i → s ≤ i.
Proof.
  induction 1 as [|i c _ IH Hc Hp]; [lia|].
  pose proof (parent_lt c Hc). lia.
Qed.

Lemma desc_parent s i : desc s i → s < i → desc s (parent i).
Proof.
  intros Hd Hlt. destruct Hd as [|j c Hj Hc Hp]; [lia|]. by subst j.
Qed.

Lemma insert_swap_perm (l : list A) i j x y :
  i < length l → i ≠ j → l !! j = Some y →
  <[j:=x]> (<[i:=y]> l) ≡ₚ <[i:=x]> l.
Proof.
  intros Hi Hne Hj.
  rewrite <- (list_insert_insert_eq l i y x).
  apply Permutation_insert_swap.
  - by apply list_lookup_insert_eq.
  - by rewrite list_lookup_insert_ne.
Qed.

(** Rewriting of lookups in updated lists, side conditions by [lia]. *)
Ltac lk :=
  repeat first
    [ rewrite list_lookup_insert_eq by (rewrite ?length_insert; lia)
    | rewrite list_lookup_insert_ne by lia ].
Ltac lk_in H :=
  repeat first
    [ rewrite list_lookup_insert_eq in H by (rewrite ?length_insert; lia)
    | rewrite list_lookup_insert_ne in H by lia ].

(** The loop of [_siftdown].  With [newitem] written at [pos], every
    edge below [startpos] is in order except perhaps the one into
    [pos] (first hypothesis), and the children of [pos] are above its
    parent (second hypothesis). *)
Lemma siftdown_loop_spec s newitem fuel :
  ∀ (l : list A) pos,
    pos ≤ fuel → pos < length l → desc s pos →
    (∀ i x p, 0 < i → i ≠ pos → s ≤ parent i →
       <[pos:=newitem]> l !! i = Some x →
       <[pos:=newitem]> l !! parent i = Some p → (key p ≤ key x)%Z) →
    (s < pos → ∀ c x p, 0 < c → parent c = pos →
       l !! c = Some x → l !! parent pos = Some p → (key p ≤ key x)%Z) →
    ordered_from key s (siftdown_loop lt fuel l s pos newitem)
    ∧ length (siftdown_loop lt fuel l s pos newitem) = length l
    ∧ siftdown_loop lt fuel l s pos newitem ≡ₚ <[pos:=newitem]> l.
Proof.
  induction fuel as [|fuel IH]; intros l pos Hfuel Hlen Hdesc Ha Hb.
  - simpl. split_and!; [|by rewrite length_insert|done].
    intros i x p Hi Hk Hx Hp. eapply Ha; eauto. lia.
  - simpl. destruct (Nat.ltb_spec s pos) as [Hsp|Hsp].
    + pose proof (parent_lt pos ltac:(lia)) as Hpp.
      destruct (lookup_lt_is_Some_2 l (parent pos) ltac:(lia)) as [par Hpar].
      rewrite Hpar, lt_key. destruct (Z.ltb_spec (key newitem) (key par)) as [Hlt|Hge].
      * pose proof (desc_parent _ _ Hdesc Hsp) as Hdp.
        pose proof (desc_ge _ _ Hdp) as Hsge.
        destruct (IH (<[pos:=par]> l) (parent pos)) as (Ho & Hl & Hperm).
        { lia. } { rewrite length_insert. lia. } { done. }
        { intros i x p Hi Hne Hk Hx Hp.
          destruct (decide (i = pos)) as [->|Hipos].
          - lk_in Hx. lk_in Hp.
            simplify_eq. lia.
          - lk_in Hx.
            pose proof (parent_lt i Hi).
            destruct (decide (parent i = parent pos)) as [Heq|Hnp].
            + rewrite Heq in Hp. lk_in Hp.
              simplify_eq.
              assert (key par ≤ key x)%Z; [|lia].
              eapply (Ha i); eauto; lk; [done|]. by rewrite Heq.
            + lk_in Hp.
              destruct (decide (parent i = pos)) as [Hpi|Hnpi].
              * rewrite Hpi in Hp. lk_in Hp. simplify_eq.
                eapply (Hb Hsp i); eauto.
              * lk_in Hp. eapply (Ha i); eauto; by lk. }
        { intros Hs' c x p Hc Hpc Hx Hp.
          pose proof (parent_lt (parent pos) ltac:(lia)) as Hppp.
          pose proof (desc_ge _ _ (desc_parent _ _ Hdp Hs')) as Hsgg.
          lk_in Hp.
          assert (key p ≤ key par)%Z as Hppar.
          { eapply (Ha (parent pos)); eauto; try lia; by lk. }
          destruct (decide (c = pos)) as [->|Hcpos].
          - lk_in Hx. by simplify_eq.
          - lk_in Hx.
            assert (key par ≤ key x)%Z; [|lia].
            eapply (Ha c); eauto; try lia; lk; [done|]. by rewrite Hpc. }
        split_and!; [done|by rewrite Hl, length_insert|].
        rewrite Hperm. apply insert_swap_perm; [lia|lia|done].
      * split_and!; [|by rewrite length_insert|done].
        intros i x p Hi Hk Hx Hp.
        destruct (decide (i = pos)) as [->|Hipos]; [|by eapply Ha].
        lk_in Hx. lk_in Hp. simplify_eq. lia.
    + pose proof (desc_ge _ _ Hdesc).
      split_and!; [|by rewrite length_insert|done].
      intros i x p Hi Hk Hx Hp.
      destruct (decide (i = pos)) as [->|Hipos]; [|by eapply Ha].
      pose proof (parent_lt pos Hi). lia.
Qed.

Lemma smaller_child_spec (l : list A) childpos :
  childpos < length l →
  let c := smaller_child lt l (length l) childpos in
  (c = childpos ∨ c = childpos + 1) ∧ c < length l
  ∧ ∀ d x y, d = childpos ∨ d = childpos + 1 →
      l !! c = Some x → l !! d = Some y → (key x ≤ key y)%Z.
Proof.
  intros Hlen. unfold smaller_child.
  destruct (Nat.ltb_spec (childpos + 1) (length l)) as [Hr|Hr].
  - destruct (lookup_lt_is_Some_2 l childpos Hlen) as [a Ha].
    destruct (lookup_lt_is_Some_2 l (childpos + 1) Hr) as [b Hb].
    rewrite Ha, Hb, lt_key.
    destruct (Z.ltb_spec (key a) (key b)); simpl.
    + split_and!; [by left|done|]. intros d x y [->| ->] ? ?; simplify_eq; lia.
    + split_and!; [by right|done|]. intros d x y [->| ->] ? ?; simplify_eq; lia.
  - simpl. split_and!; [by left|done|].
    intros d x y [->| ->] Hx Hy; simplify_eq; [lia|].
    apply lookup_lt_Some in Hy. lia.
Qed.

(** The first loop of [_siftup]: the hole travels from [pos] down to a
    leaf.  Every edge below [s] that does not touch the hole is in
    order, and the children of the hole are above its parent. *)
Lemma siftup_loop_spec s fuel :
  ∀ (l : list A) pos l' pos',
    length l ≤ fuel + pos → pos < length l → desc s pos →
    (∀ i x p, 0 < i → i ≠ pos → parent i ≠ pos → s ≤ parent i →
       l !! i = Some x → l !! parent i = Some p → (key p ≤ key x)%Z) →
    (s < pos → ∀ c x p, 0 < c → parent c = pos →
       l !! c = Some x → l !! parent pos = Some p → (key p ≤ key x)%Z) →
    siftup_loop lt fuel l (length l) pos = (l', pos') →
    length l' = length l ∧ pos' < length l ∧ desc s pos'
    ∧ length l ≤ 2 * pos' + 1
    ∧ (∀ i x p, 0 < i → i ≠ pos' → s ≤ parent i →
         l' !! i = Some x → l' !! parent i = Some p → (key p ≤ key x)%Z)
    ∧ (∀ newitem, <[pos':=newitem]> l' ≡ₚ <[pos:=newitem]> l).
Proof.
  induction fuel as [|fuel IH]; intros l pos l' pos' Hfuel Hlen Hdesc Ka Kb Hrun.
  - lia.
  - cbn [siftup_loop] in Hrun.
    destruct (Nat.ltb_spec (2 * pos + 1) (length l)) as [Hc|Hc].
    + destruct (smaller_child_spec l (2 * pos + 1) Hc) as (Hwhich & Hclen & Hmin).
      set (c := smaller_child lt l (length l) (2 * pos + 1)) in *.
      destruct (lookup_lt_is_Some_2 l c Hclen) as [lc Hlc].
      rewrite Hlc in Hrun.
      assert (parent c = pos) as Hpc.
      { destruct Hwhich as [->| ->]; [apply parent_left|].
        replace (2 * pos + 1 + 1) with (2 * pos + 2) by lia. apply parent_right. }
      assert (pos < c) as Hposc by lia.
      pose proof (desc_ge _ _ Hdesc) as Hsge.
      rewrite <- (length_insert l pos lc) in Hrun.
      apply IH in Hrun as (Hl & Hp' & Hd' & Hleaf & Hord & Hperm).
      * rewrite length_insert in *. split_and!; try done.
        intros newitem. rewrite Hperm. apply insert_swap_perm; [lia|lia|done].
      * rewrite length_insert. lia.
      * by rewrite length_insert.
      * apply (desc_child s pos c); [done|lia|done].
      * intros i x p Hi Hne Hnp Hk Hx Hp.
        pose proof (parent_lt i Hi).
        destruct (decide (i = pos)) as [->|Hipos].
        { lk_in Hx. lk_in Hp. simplify_eq.
          eapply (Kb ltac:(lia) c); eauto. lia. }
        lk_in Hx. destruct (decide (parent i = pos)) as [Hpi|Hnpi].
        { rewrite Hpi in Hp. lk_in Hp. simplify_eq.
          eapply (Hmin i); eauto. destruct (parent_spec i Hi); lia. }
        lk_in Hp. by eapply (Ka i).
      * intros Hsc d x p Hd Hpd Hx Hp.
        pose proof (parent_lt d Hd).
        rewrite Hpc in Hp. lk_in Hx. lk_in Hp. simplify_eq.
        eapply (Ka d); eauto; try lia. by rewrite Hpd.
    + simplify_eq. split_and!; try done.
      intros i x p Hi Hne Hk Hx Hp. eapply (Ka i); eauto.
      intros Hpi. apply lookup_lt_Some in Hx.
      destruct (parent_spec i Hi); lia.
Qed.

(** [_siftup(heap, s)] makes the subtree rooted at [s] a heap when the
    subtrees below it are heaps. *)
Lemma _siftup_spec (l : list A) s :
  s < length l → ordered_from key (S s) l →
  ordered_from key s (_siftup lt l s)
  ∧ length (_siftup lt l s) = length l
  ∧ _siftup lt l s ≡ₚ l.
Proof.
  intros Hs Hord. unfold _siftup.
  destruct (lookup_lt_is_Some_2 l s Hs) as [newitem Hnew]. rewrite Hnew.
  destruct (siftup_loop lt (length l) l (length l) s) as [l' pos'] eqn:Hrun.
  apply (siftup_loop_spec s) in Hrun as (Hl & Hp' & Hd' & Hleaf & Hord' & Hperm);
    [|lia|done|constructor| |intros; lia].
  2:{ intros i x p Hi Hne Hnp Hk Hx Hp. eapply (Hord i); eauto. lia. }
  unfold _siftdown. rewrite list_lookup_insert_eq by lia.
  destruct (siftdown_loop_spec s newitem pos' (<[pos':=newitem]> l') pos')
    as (Ho & Hlen & Hpm).
  - done.
  - rewrite length_insert. lia.
  - done.
  - rewrite list_insert_insert_eq. intros i x p Hi Hne Hk Hx Hp.
    pose proof (parent_lt i Hi). lk_in Hx.
    assert (parent i ≠ pos') as Hnp.
    { intros Hpi. apply lookup_lt_Some in Hx. destruct (parent_spec i Hi); lia. }
    lk_in Hp. by eapply (Hord' i).
  - intros _ c x p Hc Hpc Hx Hp. apply lookup_lt_Some in Hx.
    rewrite length_insert in Hx. destruct (parent_spec c Hc); lia.
  - split_and!; [done|by rewrite Hlen, length_insert|].
    rewrite Hpm, list_insert_insert_eq, Hperm. by rewrite list_insert_id.
Qed.

Lemma heapify_loop_spec i :
  ∀ l : list A, i ≤ length l → ordered_from key i l →
    heap_inv key (heapify_loop lt i l)
    ∧ length (heapify_loop lt i l) = length l
    ∧ heapify_loop lt i l ≡ₚ l.
Proof.
  induction i as [|i IH]; intros l Hi Hord; [done|]. simpl.
  destruct (_siftup_spec l i) as (Ho & Hl & Hp); [lia|done|].
  destruct (IH (_siftup lt l i)) as (Ho' & Hl' & Hp'); [lia|done|].
  split_and!; [done|congruence|by rewrite Hp'].
Qed.

Lemma heapify_spec (l : list A) :
  heap_inv key (heapify lt l) ∧ length (heapify lt l) = length l
  ∧ heapify lt l ≡ₚ l.
Proof.
  unfold heapify.
  pose proof (Nat.div_mod_eq (length l) 2) as Hd.
  pose proof (Nat.mod_upper_bound (length l) 2) as Hm.
  apply heapify_loop_spec; [lia|].
  intros i x p Hi Hk Hx Hp. apply lookup_lt_Some in Hx.
  destruct (parent_spec i Hi); lia.
Qed.

Lemma heappush_spec (l : list A) x :
  heap_inv key l →
  heap_inv key (heappush lt l x) ∧ length (heappush lt l x) = S (length l)
  ∧ heappush lt l x ≡ₚ x :: l.
Proof.
  intros Hinv. unfold heappush, _siftdown.
  rewrite lookup_app_r, Nat.sub_diag by lia. simpl.
  destruct (siftdown_loop_spec 0 x (length l) (l ++ [x]) (length l))
    as (Ho & Hl & Hp).
  - done.
  - rewrite length_app. simpl. lia.
  - clear. induction (length l) as [n IH] using lt_wf_ind.
    destruct n as [|n]; [constructor|].
    eapply (desc_child 0 (parent (S n))); [|lia|done].
    apply IH, parent_lt. lia.
  - rewrite list_insert_id by (by rewrite lookup_app_r, Nat.sub_diag by lia).
    intros i y p Hi Hne Hk Hy Hp. pose proof (parent_lt i Hi).
    pose proof (lookup_lt_Some _ _ _ Hy) as Hil. rewrite length_app in Hil. simpl in Hil.
    rewrite lookup_app_l in Hy by lia. rewrite lookup_app_l in Hp by lia.
    by eapply (Hinv i).
  - intros _ c y p Hc Hpc Hy Hp. apply lookup_lt_Some in Hy.
    rewrite length_app in Hy. simpl in Hy. pose proof (parent_lt c Hc). lia.
  - split_and!; [done|rewrite Hl, length_app; simpl; lia|].
    rewrite Hp, list_insert_id by (by rewrite lookup_app_r, Nat.sub_diag by lia).
    by rewrite Permutation_app_comm.
Qed.

Lemma heappop_spec (l : list A) :
  heap_inv key l → l ≠ [] →
  ∃ x l', heappop lt l = Some (x, l') ∧ l !! 0 = Some x
    ∧ heap_inv key l' ∧ S (length l') = length l ∧ l ≡ₚ x :: l'.
Proof.
  intros Hinv Hne. unfold heappop.
  destruct (last l) as [lastelt|] eqn:Hlast; [|by apply last_None in Hlast].
  apply last_Some in Hlast as [front ->]. rewrite removelast_last.
  destruct front as [|ret rest]; simpl.
  - exists lastelt, []. by split_and!.
  - destruct (_siftup_spec (lastelt :: rest) 0) as (Ho & Hl & Hp); [simpl; lia| |].
    { intros i x p Hi Hk Hx Hp. pose proof (parent_lt i Hi).
      pose proof (lookup_lt_Some _ _ _ Hx) as Hil. simpl in Hil.
      destruct i as [|i]; [lia|]. destruct (parent (S i)) as [|q] eqn:Hq; [lia|].
      simpl in Hx, Hp. eapply (Hinv (S i)); [lia|lia| |rewrite Hq]; simpl.
      - rewrite lookup_app_l; [done|lia].
      - rewrite lookup_app_l; [done|lia]. }
    exists ret, (_siftup lt (lastelt :: rest) 0).
    split_and!; [done|done|done| |].
    + rewrite Hl. simpl. rewrite length_app. simpl. lia.
    + rewrite Hp. rewrite (Permutation_app_comm rest). simpl. by rewrite Permutation_swap.
Qed.

(** In a heap the first item has the least key. *)
Lemma heap_inv_root_min (l : list A) r x :
  heap_inv key l → l !! 0 = Some r → x ∈ l → (key r ≤ key x)%Z.
Proof.
  intros Hinv Hr Hx. apply list_elem_of_lookup in Hx as [i Hi].
  revert x Hi. induction i as [i IH] using lt_wf_ind. intros x Hi.
  destruct i as [|i]; [simplify_eq; lia|].
  pose proof (parent_lt (S i) ltac:(lia)) as Hlt.
  destruct (lookup_lt_is_Some_2 l (parent (S i))) as [p Hp].
  { apply lookup_lt_Some in Hi. lia. }
  pose proof (IH _ Hlt _ Hp). pose proof (Hinv (S i) x p ltac:(lia) ltac:(lia) Hi Hp).
  lia.
Qed.
End heap_facts.

Example heapq_push_pop :
  heapq.heappop Z.ltb (heapq.heappush Z.ltb (heapq.heappush Z.ltb
     (heapq.heappush Z.ltb [] 5%Z) 3%Z) 4%Z) = Some (3%Z, [4%Z; 5%Z]).
Proof. reflexivity. Qed.

(** ** The store and the keys *)

Lemma heap_lt_key objs a b : heap_lt objs a b = (key_of objs a <? key_of objs b).
Proof. reflexivity. Qed.

Lemma ordered_from_ext {A} (key key' : A → Z) k (l : list A) :
  (∀ x, x ∈ l → key x = key' x) → ordered_from key k l → ordered_from key' k l.
Proof.
  intros Heq Hord i x p Hi Hk Hx Hp.
  rewrite <- (Heq x), <- (Heq p) by (eapply list_elem_of_lookup_2; eauto).
  by eapply Hord.
Qed.

Lemma key_of_insert_ne objs id t j : j ≠ id → key_of (<[id:=t]> objs) j = key_of objs j.
Proof. intros Hne. unfold key_of. by rewrite list_lookup_insert_ne. Qed.

Lemma key_of_insert_eq objs id t :
  (id < length objs)%nat → key_of (<[id:=t]> objs) id = default 0 (next_execution t).
Proof. intros Hlt. unfold key_of. by rewrite list_lookup_insert_eq. Qed.

Lemma compute_next_execution_time_set utcnow t n :
  is_Some (next_execution (compute_next_execution_time utcnow t n).1).
Proof.
  unfold compute_next_execution_time.
  destruct (next_execution t); [destruct (fixed_schedule t)|]; simpl; eauto.
Qed.

(** The store after the loop of [adapt_active_recurring_tasks], when no
    object is listed twice. *)
Lemma adapt_fold_lookup p_delay q :
  ∀ objs id, NoDup q →
    foldl (adapt_object p_delay) objs q !! id =
      if decide (id ∈ q) then (λ t, adapt_to_delay t p_delay) <$> objs !! id
      else objs !! id.
Proof.
  induction q as [|a q IH]; intros objs id Hnd; simpl.
  - destruct (decide (id ∈ [])) as [Hin|]; [by apply elem_of_nil in Hin|done].
  - apply NoDup_cons in Hnd as [Ha Hnd]. rewrite IH by done.
    assert (∀ j, j ≠ a → adapt_object p_delay objs a !! j = objs !! j) as Hne.
    { intros j Hj. unfold adapt_object. destruct (objs !! a); [|done].
      by rewrite list_lookup_insert_ne. }
    assert (adapt_object p_delay objs a !! a
            = (λ t, adapt_to_delay t p_delay) <$> objs !! a) as Heq.
    { unfold adapt_object. destruct (objs !! a) eqn:E; [|by rewrite E].
      rewrite list_lookup_insert_eq; [done|]. by eapply lookup_lt_Some. }
    destruct (decide (id = a)) as [->|Hida].
    + rewrite decide_False by done.
      rewrite decide_True by (by apply elem_of_cons; left). done.
    + rewrite Hne by done.
      destruct (decide (id ∈ q));
        [rewrite decide_True by (by apply elem_of_cons; right)
        |rewrite decide_False by (by intros [?|?]%elem_of_cons)]; done.
Qed.

Lemma adapt_fold_length p_delay q :
  ∀ objs, length (foldl (adapt_object p_delay) objs q) = length objs.
Proof.
  induction q as [|a q IH]; intros objs; simpl; [done|]. rewrite IH.
  unfold adapt_object. destruct (objs !! a); [|done]. by rewrite length_insert.
Qed.

Lemma wf_lookup s id :
  wf s → id ∈ _recurring_tasks s →
  ∃ t, objects s !! id = Some t ∧ next_execution t = Some (due_of s id).
Proof.
  intros Hwf Hin. destruct (wf_set s Hwf id Hin) as (t & ne & Ht & Hne).
  exists t. split; [done|]. unfold due_of, key_of. by rewrite Ht, Hne.
Qed.

(** [adapt_active_recurring_tasks] moves every queued task by the delay
    and leaves the other objects alone. *)
Lemma adapt_active_recurring_tasks_wf p_delay s :
  wf s →
  wf (adapt_active_recurring_tasks p_delay s)
  ∧ _recurring_tasks (adapt_active_recurring_tasks p_delay s) ≡ₚ _recurring_tasks s
  ∧ (∀ id, id ∈ _recurring_tasks s →
       due_of (adapt_active_recurring_tasks p_delay s) id = due_of s id + p_delay)
  ∧ (∀ id, id ∉ _recurring_tasks s →
       objects (adapt_active_recurring_tasks p_delay s) !! id = objects s !! id)
  ∧ (∀ id, id ∈ _recurring_tasks s →
       ∃ t, objects s !! id = Some t
         ∧ objects (adapt_active_recurring_tasks p_delay s) !! id
           = Some (set_next_execution t (due_of s id + p_delay))).
Proof.
  intros Hwf. unfold adapt_active_recurring_tasks. simpl.
  set (objs := foldl _ _ _).
  destruct (heapify_spec (heap_lt objs) (key_of objs) (heap_lt_key objs)
              (_recurring_tasks s)) as (Hh & Hl & Hp).
  assert (∀ id, id ∈ _recurring_tasks s →
            ∃ t, objects s !! id = Some t
                 ∧ objs !! id = Some (set_next_execution t (due_of s id + p_delay))) as Hobj.
  { intros id Hin. destruct (wf_lookup s id Hwf Hin) as (t & Ht & Hne).
    exists t. split; [done|]. unfold objs.
    rewrite adapt_fold_lookup by apply (wf_nodup s Hwf).
    rewrite decide_True by done. rewrite Ht. simpl.
    unfold adapt_to_delay. by rewrite Hne. }
  split_and!.
  - split; simpl.
    + done.
    + rewrite Hp. apply (wf_nodup s Hwf).
    + intros id Hin. rewrite Hp in Hin. destruct (Hobj id Hin) as (t & _ & Ht).
      eauto.
  - done.
  - intros id Hin. destruct (Hobj id Hin) as (t & _ & Ht).
    unfold due_of at 1. simpl. unfold key_of. by rewrite Ht.
  - intros id Hin. unfold objs. rewrite adapt_fold_lookup by apply (wf_nodup s Hwf).
    by rewrite decide_False.
  - done.
Qed.

(** ** Registration keeps the queue well formed *)

Section registration.
Context (utcnow : nat → Z).

(** [add_recurring_task] of an object that is not queued. *)
Lemma add_recurring_task_wf id t s :
  wf s → id ∉ _recurring_tasks s → objects s !! id = Some t →
  let r := compute_next_execution_time utcnow t (readings s) in
  let s' := add_recurring_task utcnow id s in
  wf s'
  ∧ _recurring_tasks s' ≡ₚ id :: _recurring_tasks s
  ∧ objects s' = <[id := r.1]> (objects s)
  ∧ readings s' = r.2
  ∧ log s' = log s ∧ _downtime s' = _downtime s
  ∧ _app_config s' = _app_config s ∧ single_run s' = single_run s.
Proof.
  intros Hwf Hnin Ht. unfold add_recurring_task. rewrite Ht. simpl.
  destruct (compute_next_execution_time utcnow t (readings s)) as [t' n] eqn:Hc.
  simpl. set (objs := <[id:=t']> (objects s)).
  destruct (heappush_spec (heap_lt objs) (key_of objs) (heap_lt_key objs)
              (_recurring_tasks s) id) as (Hh & Hl & Hp).
  { eapply ordered_from_ext; [|apply (wf_heap s Hwf)].
    intros x Hx. unfold objs. rewrite key_of_insert_ne; [done|]. set_solver. }
  split_and!; try done.
  split; simpl.
  - done.
  - rewrite Hp. apply NoDup_cons. split; [done|apply (wf_nodup s Hwf)].
  - intros j Hj. rewrite Hp in Hj. unfold objs.
    destruct (decide (j = id)) as [->|Hne].
    + rewrite list_lookup_insert_eq by (by eapply lookup_lt_Some).
      pose proof (compute_next_execution_time_set utcnow t (readings s)) as [ne Hs].
      rewrite Hc in Hs. eauto.
    + rewrite list_lookup_insert_ne by done.
      apply (wf_set s Hwf). by apply elem_of_cons in Hj as [?|?].
Qed.
End registration.

Lemma track_downtime_wf p_downtime s :
  wf s →
  let s' := track_downtime p_downtime s in
  wf s'
  ∧ _recurring_tasks s' ≡ₚ _recurring_tasks s
  ∧ (∀ id, id ∈ _recurring_tasks s → due_of s' id = due_of s id + p_downtime)
  ∧ (∀ id, id ∉ _recurring_tasks s → objects s' !! id = objects s !! id)
  ∧ (∀ id, id ∈ _recurring_tasks s →
       ∃ t, objects s !! id = Some t
         ∧ objects s' !! id = Some (set_next_execution t (due_of s id + p_downtime)))
  ∧ log s' = EvTrackDowntime p_downtime :: log s
  ∧ _downtime s' = _downtime s + p_downtime
  ∧ readings s' = readings s
  ∧ _app_config s' = _app_config s ∧ single_run s' = single_run s.
Proof.
  intros Hwf. unfold track_downtime.
  set (s1 := with_downtime _ _).
  assert (wf s1) as Hwf1 by (destruct Hwf; by split).
  destruct (adapt_active_recurring_tasks_wf p_downtime s1 Hwf1) as (H1 & H2 & H3 & H4 & H5).
  split_and!; done.
Qed.

Lemma wf_tick s : wf s → wf (tick s).
Proof. intros [? ? ?]. by split. Qed.

Lemma wf_head_min s task id :
  wf s → _recurring_tasks s !! 0%nat = Some task → id ∈ _recurring_tasks s →
  due_of s task ≤ due_of s id.
Proof.
  intros Hwf Hhd Hin.
  eapply (heap_inv_root_min (key_of (objects s))); eauto. apply (wf_heap s Hwf).
Qed.

(** The popped task leaves a well-formed queue without it. *)
Lemma heappop_wf s task :
  wf s → _recurring_tasks s !! 0%nat = Some task →
  ∃ rest, (heappop (heap_lt (objects s)) (_recurring_tasks s) = Some (task, rest))
    ∧ wf (with_queue s (objects s) rest (readings s))
    ∧ (task ∉ rest) ∧ _recurring_tasks s ≡ₚ task :: rest.
Proof.
  intros Hwf Hhd.
  destruct (heappop_spec (heap_lt (objects s)) (key_of (objects s))
              (heap_lt_key _) (_recurring_tasks s)) as (x & rest & Hpop & Hx & Hh & Hl & Hp).
  { apply (wf_heap s Hwf). } { intros E. by rewrite E in Hhd. }
  assert (x = task) as -> by congruence.
  pose proof (wf_nodup s Hwf) as Hnd. rewrite Hp in Hnd.
  apply NoDup_cons in Hnd as [Hnin Hnd].
  exists rest. split_and!; try done.
  split; simpl; [done|done|].
  intros id Hid. apply (wf_set s Hwf). rewrite Hp. set_solver.
Qed.

(** ** One turn of the catch-up loop *)

Section turn.
Context (utcnow : nat → Z).

(** One turn of the catch-up loop from a well-formed state. *)
Lemma catching_up_turn_spec s task :
  wf s → _recurring_tasks s !! 0%nat = Some task →
  let now := utcnow (readings s) in
  let due := due_of s task in
  (now ≤ due ∧ catching_up_turn utcnow s = (tick s, NotDue))
  ∨ (due < now ∧ ∃ t s1,
       objects s !! task = Some t ∧ next_execution t = Some due ∧
       let r := compute_next_execution_time utcnow t (S (readings s)) in
       wf s1 ∧ _recurring_tasks s1 ≡ₚ _recurring_tasks s
       ∧ objects s1 = <[task := r.1]> (objects s)
       ∧ readings s1 = r.2
       ∧ log s1 = EvHandler task due (now - due) :: log s
       ∧ _downtime s1 = _downtime s
       ∧ _app_config s1 = _app_config s ∧ single_run s1 = single_run s
       ∧ catching_up_turn utcnow s =
           match handler_method t r.2 with
           | Normal =>
               if timedelta (minimum_downtime_duration (_app_config s)) <? now - due
               then (track_downtime (now - due) s1, Executed)
               else (s1, Executed)
           | o => (s1, Raised o)
           end).
Proof.
  intros Hwf Hhd now due. unfold catching_up_turn. rewrite Hhd.
  fold now. change (due_of (tick s) task) with due.
  destruct (Z.ltb_spec due now) as [Hlt|Hge]; [right|left; done].
  split; [done|].
  destruct (heappop_wf (tick s) task (wf_tick s Hwf) Hhd) as (rest & Hpop & Hwfr & Hnin & Hp).
  simpl in Hpop.
  destruct (wf_lookup s task Hwf) as (t & Ht & Hne).
  { eapply list_elem_of_lookup_2; eauto. }
  set (s0 := with_queue (tick s) (objects s) rest (readings (tick s))).
  destruct (add_recurring_task_wf utcnow task t s0 Hwfr Hnin Ht)
    as (Hwf1 & Hp1 & Ho1 & Hr1 & Hl1 & Hd1 & Hc1 & Hs1).
  set (s1 := add_recurring_task utcnow task s0) in *.
  exists t, (emit (EvHandler task due (now - due)) s1).
  split_and!; try done.
  - destruct Hwf1. by split.
  - simpl. rewrite Hp1. simpl. by rewrite Hp.
  - simpl. by rewrite Hl1.
  - change (objects (tick s)) with (objects s).
    change (_recurring_tasks (tick s)) with (_recurring_tasks s).
    rewrite Hpop. fold s0. fold s1.
    rewrite Ho1. simpl.
    rewrite list_lookup_insert_eq by (by eapply lookup_lt_Some).
    rewrite Hr1. simpl.
    replace (handler_method (compute_next_execution_time utcnow t (S (readings s))).1)
      with (handler_method t).
    2:{ unfold compute_next_execution_time.
        destruct (next_execution t); [destruct (fixed_schedule t)|]; done. }
    rewrite Hc1. simpl.
    destruct (handler_method t _); done.
Qed.
End turn.

(** A computable check establishes well-formedness. *)
Lemma wf_check s :
  is_heap (objects s) (_recurring_tasks s) = true →
  keys_set (objects s) (_recurring_tasks s) = true →
  NoDup (_recurring_tasks s) →
  wf s.
Proof.
  intros Hh Hk Hnd. split; [|done|].
  - intros i x p Hi _ Hx Hp. unfold is_heap in Hh.
    rewrite forallb_forall in Hh. specialize (Hh i).
    rewrite Hx, Hp in Hh. apply Z.leb_le, Hh, in_seq.
    apply lookup_lt_Some in Hx. lia.
  - intros id Hin. unfold keys_set in Hk. rewrite forallb_forall in Hk.
    apply list_elem_of_In in Hin. specialize (Hk id Hin).
    destruct (objects s !! id) as [t|]; [|done].
    apply bool_decide_eq_true in Hk as [ne Hne]. eauto.
Qed.

Lemma wf_init objs cfg sr : wf (init objs cfg sr).
Proof.
  split; simpl; [|constructor|set_solver].
  intros i x p _ _ Hx. by rewrite lookup_nil in Hx.
Qed.

(** ** The schedule of a task *)

Section schedule_computation.
Context (utcnow : nat → Z).

(** C4.  [compute_next_execution_time] by cases: an unset
    [next_execution] becomes the current time; with [fixed_schedule] it
    becomes the previous value plus the interval, whatever the clock
    says and without reading it; otherwise it becomes the current time
    plus the interval.  The other fields are left alone. *)
Theorem compute_next_execution_time_cases (utcnow' : nat → Z) self n n' :
  let r := (compute_next_execution_time utcnow self n).1 in
  name r = name self ∧ handler_method r = handler_method self
  ∧ interval r = interval self ∧ fixed_schedule r = fixed_schedule self
  ∧ match next_execution self with
    | None => next_execution r = Some (utcnow n)
    | Some ne =>
        if fixed_schedule self
        then next_execution r = Some (ne + timedelta (interval self))
             ∧ compute_next_execution_time utcnow' self n' = (r, n')
        else next_execution r = Some (utcnow n + timedelta (interval self))
    end.
Proof.
  unfold compute_next_execution_time.
  destruct (next_execution self) as [ne|] eqn:Hne;
    [destruct (fixed_schedule self) eqn:Hfix|]; simpl; by split_and!.
Qed.
End schedule_computation.

(** ** The Waking and Reporting steps *)

Section waking_and_reporting.
Context (utcnow : nat → Z) (sleep : nat → Z → Outcome).

(** C5.  After a sleep with a pending task (the wait was positive and
    the sleep was not ended by [SignalHangUp], nor by an exception in
    debug mode), [track_downtime] is called if and only if the
    oversleep, the new reading of the clock minus the task's
    [next_execution], exceeds [maximum_timer_slack]; the tracked delay
    is the oversleep. *)
Theorem oversleep_detection s task :
  let wait := due_of s task - utcnow (readings s) in
  let overslept := utcnow (S (readings s)) - due_of s task in
  _recurring_tasks s !! O = Some task →
  0 < wait →
  sleep (S (readings s)) wait ≠ RaisesSignalHangUp →
  (sleep (S (readings s)) wait = RaisesException →
     debug_mode (_app_config s) = false) →
  ∃ s', sleeping utcnow sleep s = (s', Normal)
    ∧ if decide (timedelta (maximum_timer_slack (_app_config s)) < overslept)
      then log s' = EvTrackDowntime overslept :: EvSleep wait :: log s
           ∧ _downtime s' = _downtime s + overslept
      else log s' = EvSleep wait :: log s
           ∧ _downtime s' = _downtime s
           ∧ objects s' = objects s
           ∧ _recurring_tasks s' = _recurring_tasks s.
Proof.
  intros wait overslept Hhd Hwait Hhup Hexc.
  unfold sleeping. change (_recurring_tasks (tick s)) with (_recurring_tasks s).
  rewrite Hhd. change (due_of (tick s) task) with (due_of s task). fold wait.
  destruct (Z.ltb_spec 0 wait) as [_|?]; [|lia].
  change (readings (emit _ (tick s))) with (S (readings s)).
  change (_app_config (emit _ (tick s))) with (_app_config s).
  assert (bool_decide (sleep (S (readings s)) wait = RaisesException)
          && debug_mode (_app_config s) = false) as Hnd.
  { case_bool_decide; [by rewrite Hexc|done]. }
  assert (∃ s', waking utcnow task (emit (EvSleep wait) (tick s)) = s' ∧
            if decide (timedelta (maximum_timer_slack (_app_config s)) < overslept)
            then log s' = EvTrackDowntime overslept :: EvSleep wait :: log s
                 ∧ _downtime s' = _downtime s + overslept
            else log s' = EvSleep wait :: log s
                 ∧ _downtime s' = _downtime s
                 ∧ objects s' = objects s
                 ∧ _recurring_tasks s' = _recurring_tasks s) as (s' & Hs' & Hprop).
  { eexists. split; [done|]. unfold waking.
    change (readings (emit _ (tick s))) with (S (readings s)).
    change (due_of (tick (emit _ (tick s))) task) with (due_of s task).
    fold overslept.
    change (_app_config (tick (emit _ (tick s)))) with (_app_config s).
    destruct (Z.ltb_spec (timedelta (maximum_timer_slack (_app_config s))) overslept);
      [rewrite decide_True by done|rewrite decide_False by lia]; done. }
  exists s'. split; [|done].
  destruct (sleep (S (readings s)) wait) eqn:Hsl; try done;
    rewrite Hnd; by rewrite Hs'.
Qed.

(** C9.  When the earliest task is already due at the beginning of a
    cycle there is no sleep and no oversleep check: the state only
    records the reading of the clock.  In a turn of the catch-up loop
    the accumulator changes only by the delay of the executed task, and
    only when that delay exceeds [minimum_downtime_duration]. *)
Theorem no_oversleep_check_when_due s task :
  _recurring_tasks s !! O = Some task →
  due_of s task - utcnow (readings s) ≤ 0 →
  sleeping utcnow sleep s = (tick s, Normal)
  ∧ ∀ s0 s' turn, catching_up_turn utcnow s0 = (s', turn) →
      _downtime s' = _downtime s0
      ∨ ∃ head, _recurring_tasks s0 !! O = Some head
          ∧ timedelta (minimum_downtime_duration (_app_config s0))
              < utcnow (readings s0) - due_of s0 head
          ∧ _downtime s' = _downtime s0 + (utcnow (readings s0) - due_of s0 head)
          ∧ turn = Executed.
Proof.
  intros Hhd Hdue. split.
  - unfold sleeping. change (_recurring_tasks (tick s)) with (_recurring_tasks s).
    rewrite Hhd. change (due_of (tick s) task) with (due_of s task).
    by destruct (Z.ltb_spec 0 (due_of s task - utcnow (readings s))); [lia|].
  - intros s0 s' turn. unfold catching_up_turn.
    destruct (_recurring_tasks s0 !! O) as [head|] eqn:Hh; [|left; by simplify_eq].
    change (due_of (tick s0) head) with (due_of s0 head).
    destruct (Z.ltb_spec (due_of s0 head) (utcnow (readings s0))); [|left; by simplify_eq].
    destruct (heappop _ _) as [[popped rest]|]; [|left; by simplify_eq].
    set (s1 := add_recurring_task utcnow popped _).
    assert (_downtime s1 = _downtime s0 ∧ _app_config s1 = _app_config s0) as [Hd Hc].
    { unfold s1, add_recurring_task. simpl.
      destruct (objects s0 !! popped); [|done].
      by destruct (compute_next_execution_time _ _ _). }
    destruct (match objects s1 !! popped with Some t => _ | None => Normal end);
      try (left; by simplify_eq).
    change (_app_config (emit _ s1)) with (_app_config s1). rewrite Hc.
    destruct (Z.ltb_spec (timedelta (minimum_downtime_duration (_app_config s0)))
                (utcnow (readings s0) - due_of s0 head)); intros ?; simplify_eq.
    + right. exists head. split_and!; try done. simpl. by rewrite Hd.
    + left. done.
Qed.

(** The Reporting step: with a positive accumulator one call of the
    hook, with the whole seconds of the accumulated downtime, and a
    reset; otherwise nothing. *)
Lemma reporting_spec s :
  (if decide (0 < _downtime s)
   then log (reporting s) = EvHandleDowntime (_downtime s ÷ 1000000) :: log s
        ∧ _downtime (reporting s) = 0
        ∧ 0 ≤ _downtime s - (_downtime s ÷ 1000000) * 1000000 < 1000000
   else reporting s = s)
  ∧ objects (reporting s) = objects s
  ∧ _recurring_tasks (reporting s) = _recurring_tasks s.
Proof.
  unfold reporting. destruct (Z.ltb_spec 0 (_downtime s)).
  - rewrite decide_True by done. split_and!; try done.
    + pose proof (Z.quot_rem' (_downtime s) 1000000).
      pose proof (Z.rem_bound_pos (_downtime s) 1000000). lia.
    + pose proof (Z.quot_rem' (_downtime s) 1000000).
      pose proof (Z.rem_bound_pos (_downtime s) 1000000). lia.
  - rewrite decide_False by lia. done.
Qed.

(** C6, the claim as stated fails: with 5.1 seconds accumulated the
    hook receives 5, not the accumulated value. *)
Lemma reporting_hook_truncates :
  let s := with_downtime (init [] default_config false) 5100000 in
  0 < _downtime s
  ∧ hook_calls (log (reporting s)) = [5]
  ∧ 5 * 1000000 ≠ _downtime s.
Proof. by vm_compute. Qed.
End waking_and_reporting.

(** ** The calls of the downtime hook in a cycle *)

Section hook_calls_facts.
Context (utcnow : nat → Z) (sleep : nat → Z → Outcome).

Lemma add_recurring_task_frame id s :
  log (add_recurring_task utcnow id s) = log s
  ∧ _downtime (add_recurring_task utcnow id s) = _downtime s
  ∧ _app_config (add_recurring_task utcnow id s) = _app_config s
  ∧ single_run (add_recurring_task utcnow id s) = single_run s.
Proof.
  unfold add_recurring_task. destruct (objects s !! id); [|done].
  by destruct (compute_next_execution_time _ _ _).
Qed.

Lemma catching_up_turn_hook s s' turn :
  catching_up_turn utcnow s = (s', turn) →
  hook_calls (log s') = hook_calls (log s)
  ∧ _app_config s' = _app_config s ∧ single_run s' = single_run s.
Proof.
  unfold catching_up_turn.
  destruct (_recurring_tasks s !! O) as [head|]; [|by intros; simplify_eq].
  destruct (_ <? _); [|by intros; simplify_eq].
  destruct (heappop _ _) as [[popped rest]|]; [|by intros; simplify_eq].
  set (s1 := add_recurring_task utcnow popped _).
  destruct (add_recurring_task_frame popped
              (with_queue (tick s) (objects (tick s)) rest (readings (tick s))))
    as (Hl & Hd & Hc & Hs). fold s1 in Hl, Hd, Hc, Hs.
  destruct (match objects s1 !! popped with Some t => _ | None => Normal end);
    try (intros; simplify_eq; simpl; by rewrite Hl, Hc, Hs).
  destruct (_ <? _); intros; simplify_eq; simpl; by rewrite Hl, Hc, Hs.
Qed.

Lemma catching_up_hook fuel :
  ∀ s s' o, catching_up utcnow fuel s = Some (s', o) →
    hook_calls (log s') = hook_calls (log s)
    ∧ _app_config s' = _app_config s ∧ single_run s' = single_run s.
Proof.
  induction fuel as [|fuel IH]; intros s s' o Hrun; [done|]. simpl in Hrun.
  destruct (catching_up_turn utcnow s) as [s1 turn] eqn:Hturn.
  apply catching_up_turn_hook in Hturn as (H1 & H2 & H3).
  destruct turn; simplify_eq; [|done|done].
  apply IH in Hrun as (? & ? & ?). split_and!; congruence.
Qed.

Lemma sleeping_hook s s' o :
  sleeping utcnow sleep s = (s', o) →
  hook_calls (log s') = hook_calls (log s)
  ∧ _app_config s' = _app_config s ∧ single_run s' = single_run s.
Proof.
  unfold sleeping. destruct (_ <? _); [|by intros; simplify_eq].
  assert (∀ task s0, hook_calls (log (waking utcnow task s0)) = hook_calls (log s0)
                     ∧ _app_config (waking utcnow task s0) = _app_config s0
                     ∧ single_run (waking utcnow task s0) = single_run s0) as Hw.
  { intros task s0. unfold waking. by destruct (_ <? _). }
  destruct (sleep _ _); simpl;
    repeat (match goal with |- context [if ?b then _ else _] => destruct b end);
    destruct (_recurring_tasks s !! O) as [task|];
    intros; simplify_eq; try done;
    by destruct (Hw task (emit (EvSleep (due_of (tick s) task - utcnow (readings s))) (tick s)))
      as (-> & -> & ->).
Qed.

(** In a whole turn of the outer loop the hook is called at most once,
    by the Reporting step, which leaves the accumulator at zero. *)
Lemma cycle_body_hook fuel s s' o :
  cycle_body utcnow sleep fuel s = Some (s', o) →
  hook_calls (log s') = hook_calls (log s)
  ∨ ∃ d, o = Normal ∧ hook_calls (log s') = d :: hook_calls (log s)
         ∧ _downtime s' = 0.
Proof.
  unfold cycle_body. destruct (sleeping utcnow sleep s) as [s1 o1] eqn:Hsl.
  apply sleeping_hook in Hsl as (Hl1 & _).
  destruct o1; try (intros; simplify_eq; by left).
  destruct (_recurring_tasks s1); [intros; simplify_eq; by left|].
  destruct (catching_up utcnow fuel s1) as [[s2 o2]|] eqn:Hcu; [|done].
  apply catching_up_hook in Hcu as (Hl2 & _).
  destruct o2; intros; simplify_eq; try (left; congruence).
  destruct (reporting_spec s2) as (Hr & _).
  destruct (decide (0 < _downtime s2)).
  - right. destruct Hr as (Hr & Hz & _). exists (_downtime s2 ÷ 1000000).
    split_and!; [done| |done]. rewrite Hr. simpl. congruence.
  - left. rewrite Hr. congruence.
Qed.
End hook_calls_facts.

(** ** The shift of the queue *)

(** When the loop of the shift does not overflow, no queued task is
    moved out of the range of [datetime]. *)
Lemma adapt_overflows_fold p_delay q :
  ∀ objs b,
    (foldl (λ acc id,
              (adapt_object p_delay acc.1 id,
               acc.2 || match acc.1 !! id with
                        | Some t => adapt_to_delay_overflows t p_delay
                        | None => false
                        end))
           (objs, b) q).2 = false →
    b = false
    ∧ (NoDup q → ∀ id t, id ∈ q → objs !! id = Some t →
         adapt_to_delay_overflows t p_delay = false).
Proof.
  induction q as [|x q IH]; intros objs b Hf; cbn [foldl] in Hf.
  - split; [done|]. intros _ id t Hin. by apply elem_of_nil in Hin.
  - apply IH in Hf as [Hb Hq]. cbn [fst snd] in *.
    apply orb_false_elim in Hb as [-> Hx]. split; [done|].
    intros Hnd id t Hin Ht. apply NoDup_cons in Hnd as [Hnin Hnd].
    apply elem_of_cons in Hin as [->|Hin].
    + by rewrite Ht in Hx.
    + apply (Hq Hnd id t Hin).
      unfold adapt_object. destruct (objs !! x); [|done].
      rewrite list_lookup_insert_ne; [done|]. by intros ->.
Qed.

Lemma adapt_active_recurring_tasks_in_range p_delay s id :
  wf s → adapt_active_recurring_tasks_overflows p_delay s = false →
  id ∈ _recurring_tasks s →
  is_datetime (due_of s id + p_delay) = true.
Proof.
  intros Hwf Hov Hin.
  destruct (wf_lookup s id Hwf Hin) as (t & Ht & Hne).
  destruct (adapt_overflows_fold p_delay _ _ _ Hov) as (_ & Hq).
  specialize (Hq (wf_nodup s Hwf) id t Hin Ht).
  unfold adapt_to_delay_overflows in Hq. rewrite Hne in Hq.
  by apply negb_false_iff in Hq.
Qed.

(** C2 (amended).  For a queue in heap order that holds no task object
    twice, and a delay with which no addition overflows,
    [adapt_active_recurring_tasks] adds the delay to the
    [next_execution] of every queued task, which is a datetime again,
    keeps the same tasks in the queue, and keeps the strict order of
    any two of them. *)
Theorem shift_all_adds_delay_and_keeps_order p_delay s :
  wf s →
  adapt_active_recurring_tasks_overflows p_delay s = false →
  let s' := adapt_active_recurring_tasks p_delay s in
  _recurring_tasks s' ≡ₚ _recurring_tasks s
  ∧ (∀ id, id ∈ _recurring_tasks s →
       ∃ t t' ne, objects s !! id = Some t ∧ next_execution t = Some ne
         ∧ objects s' !! id = Some t' ∧ next_execution t' = Some (ne + p_delay)
         ∧ is_datetime (ne + p_delay) = true)
  ∧ (∀ a b, a ∈ _recurring_tasks s → b ∈ _recurring_tasks s →
       due_of s a < due_of s b → due_of s' a < due_of s' b).
Proof.
  intros Hwf Hov s'.
  destruct (adapt_active_recurring_tasks_wf p_delay s Hwf) as (Hwf' & Hp & Hdue & _ & _).
  fold s' in Hwf', Hp, Hdue. split_and!; [done| |].
  - intros id Hin. destruct (wf_lookup s id Hwf Hin) as (t & Ht & Hne).
    destruct (wf_lookup s' id Hwf') as (t' & Ht' & Hne'); [by rewrite Hp|].
    exists t, t', (due_of s id). rewrite Hdue in Hne' by done.
    split_and!; try done. by apply adapt_active_recurring_tasks_in_range.
  - intros a b Ha Hb Hlt. rewrite !Hdue by done. lia.
Qed.

(** ** The queue under its three operations *)

Section queue_operations.
Context (utcnow : nat → Z).

Lemma pop_reinsert_wf s :
  wf s →
  wf (pop_reinsert utcnow s)
  ∧ _recurring_tasks (pop_reinsert utcnow s) ≡ₚ _recurring_tasks s.
Proof.
  intros Hwf. unfold pop_reinsert.
  destruct (_recurring_tasks s) as [|task q] eqn:Hq.
  - cbn. split; [done|by rewrite Hq].
  - rewrite <- Hq.
    destruct (heappop_wf s task Hwf) as (rest & Hpop & Hwfr & Hnin & Hp);
      [by rewrite Hq|].
    rewrite Hpop.
    destruct (wf_lookup s task Hwf) as (t & Ht & _); [rewrite Hq; set_solver|].
    destruct (add_recurring_task_wf utcnow task t _ Hwfr Hnin Ht) as (Hwf1 & Hp1 & _).
    split; [done|]. rewrite Hp1. simpl. by rewrite Hp.
Qed.

Lemma add_recurring_task_wf' id s :
  wf s → id ∉ _recurring_tasks s →
  wf (add_recurring_task utcnow id s)
  ∧ ∀ j, j ∈ _recurring_tasks (add_recurring_task utcnow id s) →
      j = id ∨ j ∈ _recurring_tasks s.
Proof.
  intros Hwf Hnin. destruct (objects s !! id) as [t|] eqn:Ht.
  - destruct (add_recurring_task_wf utcnow id t s Hwf Hnin Ht) as (Hwf1 & Hp1 & _).
    split; [done|]. intros j Hj. rewrite Hp1 in Hj. set_solver.
  - unfold add_recurring_task. rewrite Ht. split; [done|]. by right.
Qed.

Lemma run_ops_wf ops :
  ∀ s, wf s → NoDup (registered ops) →
    (∀ id, id ∈ _recurring_tasks s → id ∉ registered ops) →
    wf (run_ops utcnow s ops).
Proof.
  induction ops as [|op ops IH]; intros s Hwf Hnd Hfresh; [done|].
  simpl. destruct op as [task| |p_delay]; simpl in *.
  - apply NoDup_cons in Hnd as [Hnin Hnd].
    destruct (add_recurring_task_wf' task s Hwf) as (Hwf1 & Hq1).
    { intros Hin. apply (Hfresh _ Hin). set_solver. }
    apply IH; [done|done|]. intros j Hj.
    destruct (Hq1 j Hj) as [->|Hin]; [done|].
    specialize (Hfresh j Hin). set_solver.
  - destruct (pop_reinsert_wf s Hwf) as (Hwf1 & Hp1).
    apply IH; [done|done|]. intros j Hj. rewrite Hp1 in Hj. by apply Hfresh.
  - destruct (adapt_active_recurring_tasks_wf p_delay s Hwf) as (Hwf1 & Hp1 & _).
    apply IH; [done|done|]. intros j Hj. rewrite Hp1 in Hj. by apply Hfresh.
Qed.

(** C3 (amended).  After any sequence of registrations of distinct
    task objects, pops with reinsertion and shifts in which no addition
    overflows, starting from the empty queue, the first entry of
    [_recurring_tasks] has a [next_execution] that is at most that of
    every queued task. *)
Theorem peek_is_earliest objs cfg sr ops :
  NoDup (registered ops) →
  run_ops_overflow utcnow (init objs cfg sr) ops = false →
  let s := run_ops utcnow (init objs cfg sr) ops in
  ∀ task id, _recurring_tasks s !! O = Some task → id ∈ _recurring_tasks s →
    ∃ t t' ne ne', objects s !! task = Some t ∧ next_execution t = Some ne
      ∧ objects s !! id = Some t' ∧ next_execution t' = Some ne'
      ∧ ne ≤ ne'.
Proof.
  intros Hnd _ s task id Hhd Hin.
  assert (wf s) as Hwf.
  { apply run_ops_wf; [apply wf_init|done|]. simpl. set_solver. }
  destruct (wf_lookup s task Hwf) as (t & Ht & Hne);
    [by eapply list_elem_of_lookup_2|].
  destruct (wf_lookup s id Hwf Hin) as (t' & Ht' & Hne').
  exists t, t', (due_of s task), (due_of s id). split_and!; try done.
  by apply wf_head_min.
Qed.
End queue_operations.

Lemma executions_app evs evs' : executions (evs ++ evs') = executions evs' ++ executions evs.
Proof. unfold executions. by rewrite reverse_app, omap_app. Qed.

Lemma compute_next_execution_time_static utcnow t n :
  let r := compute_next_execution_time utcnow t n in
  interval r.1 = interval t ∧ handler_method r.1 = handler_method t
  ∧ fixed_schedule r.1 = fixed_schedule t ∧ (n ≤ r.2)%nat.
Proof.
  unfold compute_next_execution_time.
  destruct (next_execution t); [destruct (fixed_schedule t) eqn:E|]; simpl;
    split_and!; try done; lia.
Qed.

(** ** The effect of an executed turn *)

Section executed_turn.
Context (utcnow : nat → Z).

(** The effect of a turn that executed the head [task] of a well-formed
    queue: the task is back in the queue at its next occurrence, and
    when its delay exceeded [minimum_downtime_duration] every queued
    task moved by that delay. *)
Lemma turn_executed s s' task :
  wf s → _recurring_tasks s !! O = Some task →
  catching_up_turn utcnow s = (s', Executed) →
  let now := utcnow (readings s) in
  let due := due_of s task in
  let shifted := timedelta (minimum_downtime_duration (_app_config s)) <? now - due in
  let shift := if shifted then now - due else 0 in
  due < now ∧ wf s' ∧ _recurring_tasks s' ≡ₚ _recurring_tasks s
  ∧ ∃ t, objects s !! task = Some t ∧ next_execution t = Some due
    ∧ let r := compute_next_execution_time utcnow t (S (readings s)) in
      readings s' = r.2
      ∧ log s' = (if shifted then [EvTrackDowntime (now - due)] else [])
                   ++ EvHandler task due (now - due) :: log s
      ∧ (∀ id, id ∈ _recurring_tasks s → id ≠ task →
           due_of s' id = due_of s id + shift)
      ∧ due_of s' task = default 0 (next_execution r.1) + shift
      ∧ (∀ id t0, id ∈ _recurring_tasks s → objects s !! id = Some t0 →
           ∃ t1, objects s' !! id = Some t1 ∧ interval t1 = interval t0
             ∧ handler_method t1 = handler_method t0
             ∧ fixed_schedule t1 = fixed_schedule t0)
      ∧ (shifted = false → objects s' = <[task := r.1]> (objects s))
      ∧ _app_config s' = _app_config s.
Proof.
  intros Hwf Hhd Hturn now due shifted shift.
  destruct (catching_up_turn_spec utcnow s task Hwf Hhd) as [[_ E]|(Hlt & t & s1 & Ht & Hne & Hs1)];
    [by rewrite E in Hturn|].
  fold now due in Hlt, Hs1. cbv zeta in Hs1.
  destruct Hs1 as (Hwf1 & Hp1 & Ho1 & Hr1 & Hl1 & Hd1 & Hc1 & Hsr1 & Heq).
  rewrite Heq in Hturn. fold shifted in Hturn.
  destruct (compute_next_execution_time_static utcnow t (S (readings s)))
    as (Hi & Hh & Hf & _).
  assert (task ∈ _recurring_tasks s) as Htin by (by eapply list_elem_of_lookup_2).
  assert (task < length (objects s))%nat as Htl by (by eapply lookup_lt_Some).
  assert (∀ id, id ≠ task → due_of s1 id = due_of s id) as Hk1.
  { intros id Hid. unfold due_of. rewrite Ho1. by apply key_of_insert_ne. }
  assert (due_of s1 task
          = default 0 (next_execution (compute_next_execution_time utcnow t (S (readings s))).1))
    as Hk2.
  { unfold due_of. rewrite Ho1. by apply key_of_insert_eq. }
  assert (∀ id t0, objects s !! id = Some t0 →
            ∃ t1, objects s1 !! id = Some t1 ∧ interval t1 = interval t0
              ∧ handler_method t1 = handler_method t0
              ∧ fixed_schedule t1 = fixed_schedule t0) as Hst1.
  { intros id t0 Ht0. rewrite Ho1. destruct (decide (id = task)) as [->|Hid].
    - rewrite list_lookup_insert_eq by done. simplify_eq. eauto.
    - rewrite list_lookup_insert_ne by done. eauto. }
  destruct (handler_method t _); try done.
  split; [done|]. destruct shifted eqn:Hsh; simplify_eq.
  - destruct (track_downtime_wf (now - due) s1 Hwf1)
      as (Hwf2 & Hp2 & Hdue2 & _ & Hobj2 & Hl2 & _ & Hr2 & Hc2 & _).
    cbv zeta in *. split_and!; [done|by rewrite Hp2|].
    exists t. split_and!.
    + done.
    + done.
    + congruence.
    + rewrite Hl2, Hl1. done.
    + intros id Hin Hid. rewrite Hdue2 by (by rewrite Hp1). by rewrite Hk1.
    + rewrite Hdue2 by (by rewrite Hp1). by rewrite Hk2.
    + intros id t0 Hin Ht0. destruct (Hst1 id t0 Ht0) as (t1 & Ht1 & ? & ? & ?).
      destruct (Hobj2 id) as (t1' & Ht1' & Ht2); [by rewrite Hp1|].
      simplify_eq. eexists. split; [done|]. done.
    + done.
    + congruence.
  - split_and!; [done|done|]. exists t. cbv zeta. split_and!.
    + done.
    + done.
    + done.
    + by rewrite Hl1.
    + intros id Hin Hid. rewrite Hk1 by done. unfold shift. lia.
    + rewrite Hk2. unfold shift. lia.
    + intros id t0 _ Ht0. by apply Hst1.
    + done.
    + done.
Qed.
End executed_turn.

(** ** The order of the executions *)

Section due_order.
Context (utcnow : nat → Z).

(** After an executed turn no queued task is due before the task that
    was just executed. *)
Lemma turn_executed_lower_bound s s' task :
  wf s → monotone utcnow → nonneg_intervals s →
  _recurring_tasks s !! O = Some task →
  catching_up_turn utcnow s = (s', Executed) →
  wf s' ∧ nonneg_intervals s' ∧ _recurring_tasks s' ≡ₚ _recurring_tasks s
  ∧ (∀ id, id ∈ _recurring_tasks s' → due_of s task ≤ due_of s' id)
  ∧ ∃ pre delay, log s' = pre ++ EvHandler task (due_of s task) delay :: log s
      ∧ executions pre = [].
Proof.
  intros Hwf Hmono Hnn Hhd Hturn.
  destruct (turn_executed utcnow s s' task Hwf Hhd Hturn)
    as (Hlt & Hwf' & Hp & t & Ht & Hne & Hr & Hl & Hk1 & Hk2 & Hst & _ & _).
  assert (task ∈ _recurring_tasks s) as Htin by (by eapply list_elem_of_lookup_2).
  set (now := utcnow (readings s)) in *. set (due := due_of s task) in *.
  set (shift := if timedelta _ <? now - due then now - due else 0) in *.
  assert (0 ≤ shift) as Hshift by (unfold shift; destruct (_ <? _); lia).
  split_and!; [done| |done| |].
  - intros id t1 Hin Ht1. rewrite Hp in Hin.
    destruct (wf_lookup s id Hwf Hin) as (t0 & Ht0 & _).
    destruct (Hst id t0 Hin Ht0) as (t1' & Ht1' & Hi & _). simplify_eq.
    rewrite Hi. by eapply Hnn.
  - intros id Hin. rewrite Hp in Hin. destruct (decide (id = task)) as [->|Hid].
    + rewrite Hk2. pose proof (Hnn task t Htin Ht) as Hint.
      unfold compute_next_execution_time. rewrite Hne.
      destruct (fixed_schedule t); simpl; unfold timedelta; [lia|].
      pose proof (Hmono (readings s) (S (readings s)) ltac:(lia)). lia.
    + rewrite Hk1 by done. pose proof (wf_head_min s task id Hwf Hhd Hin). lia.
  - eexists _, _. split; [exact Hl|]. by destruct (_ <? _).
Qed.

(** In a catch-up phase the handlers are called in ascending order of
    the due times they are called for. *)
Lemma catching_up_sorted fuel :
  ∀ s s' o, wf s → monotone utcnow → nonneg_intervals s →
    catching_up utcnow fuel s = Some (s', o) →
    ∃ evs, log s' = evs ++ log s
      ∧ StronglySorted Z.le (executions evs).*2
      ∧ ∀ lb, (∀ id, id ∈ _recurring_tasks s → lb ≤ due_of s id) →
          Forall (Z.le lb) (executions evs).*2.
Proof.
  induction fuel as [|fuel IH]; intros s s' o Hwf Hmono Hnn Hrun; [done|].
  simpl in Hrun.
  destruct (_recurring_tasks s !! O) as [task|] eqn:Hhd.
  2:{ unfold catching_up_turn in Hrun. rewrite Hhd in Hrun. simplify_eq.
      exists []. split_and!; [done|constructor|constructor]. }
  destruct (catching_up_turn utcnow s) as [s1 turn] eqn:Hturn.
  destruct turn as [| |o1].
  - destruct (turn_executed_lower_bound s s1 task Hwf Hmono Hnn Hhd Hturn)
      as (Hwf1 & Hnn1 & Hp1 & Hlb & pre & delay & Hl1 & Hpre).
    destruct (IH s1 s' o Hwf1 Hmono Hnn1 Hrun) as (evs & Hl & Hs & Hb).
    exists (evs ++ pre ++ [EvHandler task (due_of s task) delay]).
    assert (executions (evs ++ pre ++ [EvHandler task (due_of s task) delay])
            = (task, due_of s task) :: executions evs) as Hex.
    { rewrite !executions_app, Hpre. done. }
    rewrite Hex. split_and!.
    + rewrite Hl, Hl1. by rewrite <- !app_assoc.
    + simpl. constructor; [done|]. by apply Hb.
    + intros lb Hlbs. simpl. constructor.
      * apply Hlbs. by eapply list_elem_of_lookup_2.
      * apply Hb. intros id Hin. etrans; [|by apply Hlb].
        apply Hlbs. by eapply list_elem_of_lookup_2.
  - simplify_eq.
    destruct (catching_up_turn_spec utcnow s task Hwf Hhd) as [[_ E]|(_ & t & s1' & _ & _ & Hs1)].
    + rewrite E in Hturn. simplify_eq. exists []. split_and!; [done|constructor|constructor].
    + cbv zeta in Hs1. destruct Hs1 as (_ & _ & _ & _ & _ & _ & _ & _ & E).
      rewrite E in Hturn. by repeat case_match.
  - simplify_eq.
    destruct (catching_up_turn_spec utcnow s task Hwf Hhd) as [[_ E]|(_ & t & s1' & _ & _ & Hs1)];
      [by rewrite E in Hturn|].
    cbv zeta in Hs1. destruct Hs1 as (_ & _ & _ & _ & Hl & _ & _ & _ & E).
    rewrite E in Hturn.
    exists [EvHandler task (due_of s task) (utcnow (readings s) - due_of s task)].
    assert (s' = s1') as -> by (by repeat case_match; simplify_eq).
    split_and!; [done|repeat constructor|].
    intros lb Hlbs. repeat constructor. apply Hlbs. by eapply list_elem_of_lookup_2.
Qed.
End due_order.

(** ** A handler that raises *)

Section handler_failure.
Context (utcnow : nat → Z) (sleep : nat → Z → Outcome).


Lemma sleeping_wf s s' o :
  wf s → sleeping utcnow sleep s = (s', o) →
  wf s' ∧ _recurring_tasks s' ≡ₚ _recurring_tasks s.
Proof.
  intros Hwf. unfold sleeping.
  change (_recurring_tasks (tick s)) with (_recurring_tasks s).
  set (wait := match _recurring_tasks s !! O with
               | Some task => due_of (tick s) task - utcnow (readings s)
               | None => timedelta ETERNITY
               end).
  destruct (0 <? wait); [|intros; simplify_eq; split; [by apply wf_tick|done]].
  assert (∀ task s0, wf s0 → wf (waking utcnow task s0)
            ∧ _recurring_tasks (waking utcnow task s0) ≡ₚ _recurring_tasks s0) as Hw.
  { intros task s0 Hwf0. unfold waking.
    destruct (_ <? _); [|split; [by apply wf_tick|done]].
    destruct (track_downtime_wf (utcnow (readings s0) - due_of (tick s0) task) (tick s0))
      as (? & ? & _); [by apply wf_tick|done]. }
  assert (wf (emit (EvSleep wait) (tick s))) as Hwfe by (destruct Hwf; by split).
  destruct (sleep _ _); simpl; try destruct (debug_mode _);
    destruct (_recurring_tasks s !! O) as [task|];
    intros; simplify_eq; try done; by destruct (Hw task _ Hwfe).
Qed.

End handler_failure.

(** ** Sums over the queue *)

Lemma sum_list_with_le (f g : nat → nat) (l : list nat) :
  (∀ y, y ∈ l → (f y ≤ g y)%nat) →
  (sum_list_with f l ≤ sum_list_with g l)%nat.
Proof.
  induction l as [|a l IH]; intros Hle; simpl; [lia|].
  pose proof (Hle a ltac:(by apply elem_of_cons; left)).
  assert (sum_list_with f l ≤ sum_list_with g l)%nat; [|lia].
  apply IH. intros y Hy. apply Hle. by apply elem_of_cons; right.
Qed.

Lemma sum_list_with_lt (f g : nat → nat) (l : list nat) x :
  (∀ y, y ∈ l → (f y ≤ g y)%nat) → x ∈ l → (f x < g x)%nat →
  (sum_list_with f l < sum_list_with g l)%nat.
Proof.
  induction l as [|a l IH]; intros Hle Hin Hlt; [by apply elem_of_nil in Hin|].
  simpl.
  assert (∀ y, y ∈ l → (f y ≤ g y)%nat) as Hle'.
  { intros y Hy. apply Hle. by apply elem_of_cons; right. }
  pose proof (sum_list_with_le f g l Hle').
  pose proof (Hle a ltac:(by apply elem_of_cons; left)).
  apply elem_of_cons in Hin as [->|Hin]; [lia|].
  assert (sum_list_with f l < sum_list_with g l)%nat; [|lia].
  by apply IH.
Qed.

Lemma tracked_app evs evs' : tracked (evs ++ evs') = tracked evs ++ tracked evs'.
Proof. apply omap_app. Qed.

(** ** The catch-up phase ends and drains the due tasks *)

Section drain.
Context (utcnow : nat → Z).

(** One executed turn of a phase that satisfies [phase_ok]: nothing is
    shifted, the backlog shrinks. *)
Lemma phase_turn T s task :
  phase_ok T s → monotone utcnow → (∀ k, utcnow k ≤ T) →
  _recurring_tasks s !! O = Some task →
  due_of s task < utcnow (readings s) →
  ∃ s1 t, catching_up_turn utcnow s = (s1, Executed)
    ∧ phase_ok T s1 ∧ (backlog T s1 < backlog T s)%nat
    ∧ _recurring_tasks s1 ≡ₚ _recurring_tasks s
    ∧ (readings s < readings s1)%nat
    ∧ log s1 = EvHandler task (due_of s task) (utcnow (readings s) - due_of s task) :: log s
    ∧ objects s !! task = Some t
    ∧ objects s1 = <[task := (compute_next_execution_time utcnow t (S (readings s))).1]> (objects s)
    ∧ (∀ id, id ≠ task → due_of s1 id = due_of s id)
    ∧ due_of s task < due_of s1 task.
Proof.
  intros Hok Hmono Hbound Hhd Hdue.
  pose proof (phase_wf T s Hok) as Hwf.
  assert (task ∈ _recurring_tasks s) as Htin by (by eapply list_elem_of_lookup_2).
  destruct (catching_up_turn_spec utcnow s task Hwf Hhd)
    as [[? _]|(_ & t & s1 & Ht & Hnx & Hs1)]; [lia|].
  cbv zeta in Hs1. destruct Hs1 as (_ & _ & Ho1 & _ & _ & _ & _ & _ & E).
  destruct (phase_tasks T s Hok task t Htin Ht) as (Hint & Hnorm).
  rewrite Hnorm in E.
  pose proof (phase_noshift T s Hok task Htin) as Hns.
  pose proof (Hbound (readings s)) as Hb.
  destruct (Z.ltb_spec (timedelta (minimum_downtime_duration (_app_config s)))
              (utcnow (readings s) - due_of s task)) as [?|Hnsh]; [lia|].
  destruct (turn_executed utcnow s s1 task Hwf Hhd E)
    as (_ & Hwf1 & Hp1 & t' & Ht' & _ & Hr & Hl & Hk1 & Hk2 & Hst & Hobj & Hc).
  assert (t' = t) as -> by congruence.
  assert ((timedelta (minimum_downtime_duration (_app_config s))
             <? utcnow (readings s) - due_of s task) = false) as Hsh by (by apply Z.ltb_ge).
  rewrite Hsh in Hl, Hk1, Hk2, Hobj. specialize (Hobj eq_refl).
  destruct (compute_next_execution_time_static utcnow t (S (readings s)))
    as (_ & _ & _ & Hrd).
  assert (due_of s task < due_of s1 task) as Hlater.
  { rewrite Hk2. unfold compute_next_execution_time. rewrite Hnx.
    pose proof (Hmono (readings s) (S (readings s)) ltac:(lia)).
    destruct (fixed_schedule t); simpl; unfold timedelta; lia. }
  assert (∀ id, id ≠ task → due_of s1 id = due_of s id) as Hsame.
  { intros id Hid. unfold due_of. rewrite Hobj. by apply key_of_insert_ne. }
  exists s1, t. split_and!; try done.
  - split.
    + done.
    + intros E'. rewrite E' in Hp1. apply Permutation_nil in Hp1.
      by rewrite Hp1 in Htin; apply elem_of_nil in Htin.
    + intros id t1 Hin Ht1. rewrite Hp1 in Hin.
      destruct (wf_lookup s id Hwf Hin) as (t0 & Ht0 & _).
      destruct (Hst id t0 Hin Ht0) as (t1' & Ht1' & Hi & Hh & _). simplify_eq.
      rewrite Hi, Hh. by eapply (phase_tasks T s Hok).
    + intros id Hin. rewrite Hp1 in Hin. rewrite Hc.
      pose proof (phase_noshift T s Hok id Hin).
      destruct (decide (id = task)) as [->|Hid]; [lia|]. rewrite Hsame by done. lia.
  - unfold backlog. rewrite Hp1.
    apply (sum_list_with_lt _ _ _ task); [|done|lia].
    intros id Hin. destruct (decide (id = task)) as [->|Hid]; [lia|].
    rewrite Hsame by done. lia.
  - lia.
Qed.

(** A phase that satisfies [phase_ok] ends, and when it ends no queued
    task is due before the last reading of the clock. *)
Lemma catching_up_drain T n :
  ∀ s, phase_ok T s → monotone utcnow → (∀ k, utcnow k ≤ T) →
    (backlog T s < n)%nat →
    ∃ s' evs, catching_up utcnow n s = Some (s', Normal)
      ∧ log s' = evs ++ log s ∧ tracked evs = []
      ∧ wf s' ∧ _recurring_tasks s' ≡ₚ _recurring_tasks s
      ∧ (readings s < readings s')%nat
      ∧ (∀ id, id ∈ _recurring_tasks s → due_of s id < utcnow (readings s) →
           id ∈ (executions evs).*1)
      ∧ (∀ id, id ∈ _recurring_tasks s' → utcnow (readings s' - 1) ≤ due_of s' id)
      ∧ (∀ id, id ∉ (executions evs).*1 → objects s' !! id = objects s !! id).
Proof.
  induction n as [|n IH]; intros s Hok Hmono Hbound Hfuel; [lia|].
  pose proof (phase_wf T s Hok) as Hwf.
  destruct (_recurring_tasks s) as [|task q] eqn:Hq; [by destruct (phase_nonempty T s Hok)|].
  assert (_recurring_tasks s !! O = Some task) as Hhd by (by rewrite Hq).
  rewrite <- Hq in *. clear Hq q. simpl.
  destruct (Z.lt_ge_cases (due_of s task) (utcnow (readings s))) as [Hdue|Hnot].
  - destruct (phase_turn T s task Hok Hmono Hbound Hhd Hdue)
      as (s1 & t & Hturn & Hok1 & Hback & Hp1 & Hr1 & Hl1 & Ht & Ho1 & Hsame & Hlater).
    rewrite Hturn.
    destruct (IH s1 Hok1 Hmono Hbound ltac:(lia))
      as (s' & evs & Hrun & Hl & Htr & Hwf' & Hp & Hr & Hover & Hfin & Hkeep).
    exists s', (evs ++ [EvHandler task (due_of s task) (utcnow (readings s) - due_of s task)]).
    assert (executions (evs ++ [EvHandler task (due_of s task)
                                  (utcnow (readings s) - due_of s task)])
            = (task, due_of s task) :: executions evs) as Hex.
    { by rewrite executions_app. }
    rewrite Hex. split_and!.
    + done.
    + rewrite Hl, Hl1. by rewrite <- app_assoc.
    + rewrite tracked_app, Htr. done.
    + done.
    + by rewrite Hp.
    + lia.
    + intros id Hin Hd. destruct (decide (id = task)) as [->|Hid]; [set_solver|].
      apply elem_of_cons. right. apply Hover; [by rewrite Hp1|].
      rewrite Hsame by done.
      pose proof (Hmono (readings s) (readings s1) ltac:(lia)). lia.
    + done.
    + intros id Hnin. apply not_elem_of_cons in Hnin as [Hid Hnin]. simpl in Hid.
      rewrite Hkeep by done. rewrite Ho1. by apply list_lookup_insert_ne.
  - destruct (catching_up_turn_spec utcnow s task Hwf Hhd) as [[_ E]|(? & _)]; [|lia].
    rewrite E. exists (tick s), []. split_and!; try done.
    + by apply wf_tick.
    + simpl. lia.
    + intros id Hin Hd. pose proof (wf_head_min s task id Hwf Hhd Hin). lia.
    + intros id Hin. simpl. rewrite Nat.sub_0_r.
      pose proof (wf_head_min s task id Hwf Hhd Hin).
      change (due_of (tick s) id) with (due_of s id). lia.
Qed.
End drain.

Section drain_range.
Context (utcnow : nat → Z).

(** In a phase that satisfies [phase_ok] and [phase_in_range] no
    addition overflows: the new due time of an executed task is at most
    [T] plus its interval, and nothing is shifted. *)
Lemma phase_no_overflow T n :
  ∀ s, phase_ok T s → monotone utcnow → (∀ k, 0 ≤ utcnow k ≤ T) →
    phase_in_range T s →
    catching_up_overflows utcnow n s = false.
Proof.
  induction n as [|n IH]; intros s Hok Hmono Hbound Hrange; [done|].
  pose proof (phase_wf T s Hok) as Hwf.
  destruct (_recurring_tasks s) as [|task q] eqn:Hq; [by destruct (phase_nonempty T s Hok)|].
  assert (_recurring_tasks s !! O = Some task) as Hhd by (by rewrite Hq).
  clear Hq q.
  assert (task ∈ _recurring_tasks s) as Htin by (by eapply list_elem_of_lookup_2).
  cbn [catching_up_overflows].
  destruct (Z.lt_ge_cases (due_of s task) (utcnow (readings s))) as [Hdue|Hnot].
  - destruct (phase_turn utcnow T s task Hok Hmono (λ k, proj2 (Hbound k)) Hhd Hdue)
      as (s1 & t & Hturn & Hok1 & _ & Hp1 & _ & _ & Ht & Ho1 & Hsame & _).
    destruct (wf_lookup s task Hwf Htin) as (t' & Ht' & Hne).
    assert (t' = t) as -> by congruence.
    destruct (Hrange task t Htin Ht) as (Hd & Hi).
    destruct (phase_tasks T s Hok task t Htin Ht) as (Hpos & _).
    pose proof (phase_noshift T s Hok task Htin) as Hns.
    pose proof (Hbound (readings s)) as Hb0.
    pose proof (Hbound (S (readings s))) as Hb1.
    apply andb_prop in Hd as [Hd0 Hd1]. apply Z.leb_le in Hd0, Hd1.
    assert (is_datetime ((if fixed_schedule t then due_of s task else utcnow (S (readings s)))
                         + timedelta (interval t)) = true) as Hnew.
    { unfold is_datetime. apply andb_true_intro.
      unfold timedelta in *. split; apply Z.leb_le; destruct (fixed_schedule t); lia. }
    rewrite Hturn. apply orb_false_intro.
    + unfold catching_up_turn_overflows. rewrite Hhd. cbv zeta.
      change (due_of (tick s) task) with (due_of s task).
      change (objects (tick s)) with (objects s).
      change (readings (tick s)) with (S (readings s)).
      change (_app_config (tick s)) with (_app_config s).
      rewrite (proj2 (Z.ltb_lt _ _) Hdue), Ht.
      unfold compute_next_execution_time_overflows. rewrite Hne, Hnew. cbn [negb orb].
      rewrite (proj2 (Z.ltb_ge _ _)) by lia.
      by rewrite andb_false_r.
    + apply IH; try done.
      intros id t1 Hin Ht1. rewrite Hp1 in Hin.
      destruct (decide (id = task)) as [->|Hid].
      * rewrite Ho1 in Ht1. rewrite list_lookup_insert_eq in Ht1
          by (by eapply lookup_lt_Some). simplify_eq.
        destruct (compute_next_execution_time_static utcnow t (S (readings s)))
          as (Hint & _). cbv zeta in Hint. rewrite Hint. split; [|done].
        unfold due_of. rewrite Ho1, key_of_insert_eq by (by eapply lookup_lt_Some).
        unfold compute_next_execution_time. rewrite Hne.
        by destruct (fixed_schedule t).
      * rewrite Hsame by done. rewrite Ho1, list_lookup_insert_ne in Ht1 by done.
        by apply Hrange.
  - destruct (catching_up_turn_spec utcnow s task Hwf Hhd) as [[_ E]|(? & _)]; [|lia].
    rewrite E. rewrite orb_false_r.
    unfold catching_up_turn_overflows. rewrite Hhd. cbv zeta.
    change (due_of (tick s) task) with (due_of s task).
    by rewrite (proj2 (Z.ltb_ge _ _)) by lia.
Qed.
End drain_range.

(** ** [Configuration.set_config_value] *)

Lemma __setattr___plain self p_option_name p_value :
  (∀ c, p_value ≠ VType c) →
  __setattr__ self p_option_name p_value
  = {| __dict__ := <[p_option_name := p_value]> (__dict__ self) |}.
Proof. intros Hv. destruct p_value; try done. by destruct (Hv class_name). Qed.

(** [get_option_type] fails on an option only when the attribute under
    the [_TYPE_] name is not a class. *)
Lemma get_option_type_raises section p_option e :
  has_option section p_option = true →
  get_option_type section p_option = inr e →
  ∃ v, __dict__ section !! (NONE_TYPE_PREFIX +:+ p_option) = Some v
       ∧ ∀ c, v ≠ VType c.
Proof.
  unfold has_option, get_option_type, dict_get. intros Hopt Hty.
  destruct (__dict__ section !! (NONE_TYPE_PREFIX +:+ p_option)) as [v|] eqn:Hm.
  - exists v. split; [done|]. intros c ->. done.
  - simpl in *. rewrite orb_false_r in Hopt.
    apply bool_decide_eq_true in Hopt as [v Hv]. by rewrite Hv in Hty.
Qed.

(** C10 (amended).  [set_config_value] either returns, and then
    exactly the named option of the named section holds the string
    coerced to [bool] or to [int] when the option has that type and the
    string itself for an option of any other type, or it raises and
    leaves the configuration as it was.  It raises
    [ConfigurationException] for an unknown section, an unknown option,
    a string outside the two token lists for a [bool] option, and a
    string that [int] rejects for an [int] option. *)
Theorem set_config_value_sets_or_raises upper int self p_section_name p_option p_option_value :
  match set_config_value upper int self p_section_name p_option p_option_value with
  | (self', Returned) =>
      ∃ section option_type v,
        _sections self !! p_section_name = Some section
        ∧ has_option section p_option = true
        ∧ get_option_type section p_option = inl option_type
        ∧ coerced upper int option_type p_option_value = Some v
        ∧ _sections self'
          = <[p_section_name := {| __dict__ := <[p_option := v]> (__dict__ section) |}]>
              (_sections self)
  | (self', Raise e) =>
      self' = self
      ∧ match _sections self !! p_section_name with
        | None => e = ConfigurationException
        | Some section =>
            if has_option section p_option then
              match get_option_type section p_option with
              | inl option_type =>
                  e = ConfigurationException
                  ∧ coerced upper int option_type p_option_value = None
                  ∧ (option_type = "bool" ∨ option_type = "int")
              | inr e' =>
                  e = e'
                  ∧ ∃ v, __dict__ section !! (NONE_TYPE_PREFIX +:+ p_option) = Some v
                         ∧ ∀ c, v ≠ VType c
              end
            else e = ConfigurationException
        end
  end.
Proof.
  unfold set_config_value.
  destruct (_sections self !! p_section_name) as [section|] eqn:Hsec; [|done].
  destruct (has_option section p_option) eqn:Hopt; simpl; [|done].
  destruct (get_option_type section p_option) as [option_type|e] eqn:Hty.
  2:{ split_and!; [done|done|]. by eapply get_option_type_raises. }
  destruct (bool_decide (option_type = "bool")) eqn:Hb;
    [destruct (bool_decide (upper p_option_value ∈ VALID_BOOLEAN_TRUE_VALUES)) eqn:Ht;
       [|destruct (bool_decide (upper p_option_value ∈ VALID_BOOLEAN_FALSE_VALUES)) eqn:Hf]
    |destruct (bool_decide (option_type = "int")) eqn:Hi;
       [destruct (int p_option_value) as [n|] eqn:Hint|]].
  - exists section, option_type, (VBool true).
    unfold coerced. by rewrite Hb, Ht.
  - exists section, option_type, (VBool false).
    unfold coerced. by rewrite Hb, Ht, Hf.
  - unfold coerced. rewrite Hb, Ht, Hf. apply bool_decide_eq_true in Hb.
    split_and!; [done|done|done|by left].
  - exists section, option_type, (VInt n).
    unfold coerced. by rewrite Hb, Hi, Hint.
  - unfold coerced. rewrite Hb, Hi, Hint. apply bool_decide_eq_true in Hi.
    split_and!; [done|done|done|by right].
  - exists section, option_type, (VStr p_option_value).
    unfold coerced. by rewrite Hb, Hi.
Qed.

(** C10, the claim as stated fails: every section has the attribute
    [_options], a [dict]; the setter accepts it as an option and stores
    a string there, which is not a value of the option's type. *)
Lemma set_config_value_keeps_string :
  let section := new_config_model "BaseApp" in
  let self := {| _sections := {[ "BaseApp" := section ]} |} in
  let r := set_config_value (λ s, s) (λ _, None) self "BaseApp" "_options" "x" in
  get_option_type section "_options" = inl "dict"
  ∧ r.2 = Returned
  ∧ (∃ section', _sections r.1 !! "BaseApp" = Some section'
       ∧ __dict__ section' !! "_options" = Some (VStr "x"))
  ∧ type_name (VStr "x") ≠ "dict".
Proof.
  split_and!; [by vm_compute|by vm_compute| |done].
  eexists. split; by vm_compute.
Qed.

(** ** The catch-up phase: the statements *)

Section catch_up.
Context (utcnow : nat → Z) (sleep : nat → Z → Outcome).

(** A turn of the catch-up loop executes the head of the queue exactly
    when the head is due strictly before the reading of the clock. *)
Lemma turn_due_cases s task :
  wf s → _recurring_tasks s !! O = Some task →
  let now := utcnow (readings s) in
  let due := due_of s task in
  let r := catching_up_turn utcnow s in
  if decide (due < now)
  then r.2 ≠ NotDue
       ∧ _recurring_tasks r.1 ≡ₚ _recurring_tasks s
       ∧ ∃ pre, log r.1 = pre ++ EvHandler task due (now - due) :: log s
                ∧ executions pre = []
  else r = (tick s, NotDue).
Proof.
  intros Hwf Hhd. cbv zeta.
  destruct (catching_up_turn_spec utcnow s task Hwf Hhd)
    as [[Hge E]|(Hlt & t & s1 & _ & _ & Hs1)].
  - by rewrite decide_False by lia.
  - rewrite decide_True by done. cbv zeta in Hs1.
    destruct Hs1 as (Hwf1 & Hp1 & _ & _ & Hl1 & _ & _ & _ & E).
    rewrite E.
    destruct (handler_method t _); try (split_and!; [done|done|by exists []]).
    destruct (_ <? _); [|split_and!; [done|done|by exists []]].
    destruct (track_downtime_wf (utcnow (readings s) - due_of s task) s1 Hwf1)
      as (_ & Hp2 & _ & _ & _ & Hl2 & _).
    split_and!; [done|by cbn [fst]; rewrite Hp2|].
    exists [EvTrackDowntime (utcnow (readings s) - due_of s task)].
    split; [|done]. cbn [fst]. by rewrite Hl2, Hl1.
Qed.

(** C1 (amended).  For a queue in heap order that holds no task object
    twice: a turn of the catch-up loop in which no addition overflows
    pops the earliest task, reinserts it and calls its handler when the
    task is due strictly before the reading of the clock, and ends the
    loop otherwise.  When the clock does not go backwards and stays
    between [datetime.min] and [T], the intervals are positive, [T] plus
    any interval is a datetime, the handlers return and no queued task
    is further behind than [minimum_downtime_duration], the phase ends
    without a shift and without an overflow; every task that was due
    strictly before the first reading has been executed, in ascending
    order of due time; the queue holds the same tasks, none of them due
    before the last reading, and the tasks that were not executed are
    unchanged. *)
Theorem catch_up_drains T s :
  phase_ok T s → monotone utcnow → (∀ k, 0 ≤ utcnow k ≤ T) →
  phase_in_range T s →
  (∀ s0 task, wf s0 → _recurring_tasks s0 !! O = Some task →
     catching_up_turn_overflows utcnow s0 = false →
     if decide (due_of s0 task < utcnow (readings s0))
     then (catching_up_turn utcnow s0).2 ≠ NotDue
          ∧ _recurring_tasks (catching_up_turn utcnow s0).1 ≡ₚ _recurring_tasks s0
          ∧ ∃ pre, log (catching_up_turn utcnow s0).1
                   = pre ++ EvHandler task (due_of s0 task)
                              (utcnow (readings s0) - due_of s0 task) :: log s0
                   ∧ executions pre = []
     else catching_up_turn utcnow s0 = (tick s0, NotDue))
  ∧ ∃ fuel s' evs,
      catching_up utcnow fuel s = Some (s', Normal)
      ∧ catching_up_overflows utcnow fuel s = false
      ∧ log s' = evs ++ log s ∧ tracked evs = []
      ∧ StronglySorted Z.le (executions evs).*2
      ∧ (∀ id, id ∈ _recurring_tasks s → due_of s id < utcnow (readings s) →
           id ∈ (executions evs).*1)
      ∧ _recurring_tasks s' ≡ₚ _recurring_tasks s
      ∧ (∀ id, id ∈ _recurring_tasks s' → utcnow (readings s' - 1) ≤ due_of s' id)
      ∧ (∀ id, id ∉ (executions evs).*1 → objects s' !! id = objects s !! id).
Proof.
  intros Hok Hmono Hbound Hrange. split.
  { intros s0 task Hwf0 Hhd0 _. apply (turn_due_cases s0 task Hwf0 Hhd0). }
  destruct (catching_up_drain utcnow T (S (backlog T s)) s Hok Hmono
              (λ k, proj2 (Hbound k)) ltac:(lia))
    as (s' & evs & Hrun & Hl & Htr & Hwf' & Hp & _ & Hover & Hfin & Hkeep).
  exists (S (backlog T s)), s', evs. split_and!; try done.
  { by apply (phase_no_overflow utcnow T). }
  assert (nonneg_intervals s) as Hnn.
  { intros id t Hin Ht. destruct (phase_tasks T s Hok id t Hin Ht). lia. }
  destruct (catching_up_sorted utcnow _ s s' Normal (phase_wf T s Hok) Hmono Hnn Hrun)
    as (evs' & Hl' & Hs & _).
  rewrite Hl in Hl'. apply app_inv_tail in Hl'. by subst evs'.
Qed.

(** C7 (amended).  For a queue in heap order that holds no task object
    twice, in a catch-up phase in which no addition overflows the
    handlers are called in ascending order of due time, whatever the
    order of registration, when the clock does not go backwards and no
    interval is negative; and the task that a turn executes is due no
    later than any queued task. *)
Theorem executions_in_due_order fuel s s' o :
  wf s → monotone utcnow → nonneg_intervals s →
  catching_up_overflows utcnow fuel s = false →
  catching_up utcnow fuel s = Some (s', o) →
  (∃ evs, log s' = evs ++ log s ∧ StronglySorted Z.le (executions evs).*2)
  ∧ (∀ s0 s1 task id, wf s0 → _recurring_tasks s0 !! O = Some task →
       catching_up_turn_overflows utcnow s0 = false →
       catching_up_turn utcnow s0 = (s1, Executed) → id ∈ _recurring_tasks s0 →
       due_of s0 task ≤ due_of s0 id
       ∧ ∃ pre delay, log s1 = pre ++ EvHandler task (due_of s0 task) delay :: log s0
                      ∧ executions pre = []).
Proof.
  intros Hwf Hmono Hnn _ Hrun. split.
  - destruct (catching_up_sorted utcnow fuel s s' o Hwf Hmono Hnn Hrun) as (evs & ? & ? & _).
    by exists evs.
  - intros s0 s1 task id Hwf0 Hhd0 _ Hturn Hin. split; [by apply wf_head_min|].
    pose proof (turn_due_cases s0 task Hwf0 Hhd0) as Hc. cbv zeta in Hc.
    rewrite Hturn in Hc. destruct (decide _); [|done].
    destruct Hc as (_ & _ & pre & Hl & Hpre).
    by exists pre, (utcnow (readings s0) - due_of s0 task).
Qed.

(** C6 (amended).  If the accumulator is positive the Reporting step
    calls the hook once, with the accumulated downtime cut down to
    whole seconds, and resets the accumulator to zero; otherwise it
    does nothing.  In a whole turn of the outer loop the hook is called
    at most once. *)
Theorem downtime_reported_once fuel s :
  (if decide (0 < _downtime s)
   then log (reporting s) = EvHandleDowntime (_downtime s ÷ 1000000) :: log s
        ∧ _downtime (reporting s) = 0
        ∧ 0 ≤ _downtime s - (_downtime s ÷ 1000000) * 1000000 < 1000000
   else reporting s = s)
  ∧ match cycle_body utcnow sleep fuel s with
    | Some (s', o) =>
        hook_calls (log s') = hook_calls (log s)
        ∨ ∃ d, o = Normal ∧ hook_calls (log s') = d :: hook_calls (log s)
               ∧ _downtime s' = 0
    | None => True
    end.
Proof.
  split; [apply reporting_spec|].
  destruct (cycle_body utcnow sleep fuel s) as [[s' o]|] eqn:Hc; [|done].
  by eapply cycle_body_hook.
Qed.
End catch_up.

(** ** The comparisons of the tasks and the keys of the heap *)

Lemma task_lt_heap_lt objs a b ta tb na nb :
  objs !! a = Some ta → objs !! b = Some tb →
  next_execution ta = Some na → next_execution tb = Some nb →
  task_lt ta tb = Some (heap_lt objs a b)
  ∧ now_gt_task nb ta = Some (heap_lt objs a b)
  ∧ __sub__ ta nb = Some (key_of objs a - key_of objs b)
  ∧ __rsub__ ta nb = Some (key_of objs b - key_of objs a).
Proof.
  intros Ha Hb Hna Hnb.
  unfold task_lt, now_gt_task, __gt__, __lt__, __sub__, __rsub__, heap_lt, key_of.
  rewrite Ha, Hb, Hna, Hnb. done.
Qed.

(** ** Aliasing: what the queue does with an object that is queued twice *)

(** C3, the claim as stated fails: when [a] is registered again while
    it is queued, its [next_execution] is moved under the heap, and the
    first entry of the queue, [a], is due later than [b].  No addition
    overflows. *)
Lemma double_registration_breaks_order :
  let clock := λ n : nat, Z.of_nat n in
  let ops := [OpRegister 0%nat; OpRegister 1%nat; OpRegister 0%nat] in
  let s0 := init [new_task "a" returns 100 false; new_task "b" returns 100 false]
              default_config false in
  let s := run_ops clock s0 ops in
  run_ops_overflow clock s0 ops = false
  ∧ _recurring_tasks s = [0; 1; 0]%nat
  ∧ due_of s 0%nat = 100000002 ∧ due_of s 1%nat = 1
  ∧ due_of s 1%nat < due_of s 0%nat.
Proof. by vm_compute. Qed.

(** C2, the claim as stated fails: an object that has been registered
    twice is queued twice, and a shift by 5 microseconds moves it by
    10.  No addition overflows. *)
Lemma double_entry_shifted_twice :
  let s := run_ops (frozen_clock 1000)
             (init [new_task "a" returns 60 true] default_config false)
             [OpRegister 0%nat; OpRegister 0%nat] in
  _recurring_tasks s = [0; 0]%nat
  ∧ due_of s 0%nat = 60001000
  ∧ adapt_active_recurring_tasks_overflows 5 s = false
  ∧ due_of (adapt_active_recurring_tasks 5 s) 0%nat = 60001010.
Proof. by vm_compute. Qed.

(** ** Examples and instances *)

Lemma wf_three_late cfg : wf (three_late cfg).
Proof.
  apply wf_check; [by vm_compute|by vm_compute|].
  by apply (bool_decide_unpack _).
Qed.

Lemma monotone_frozen T : monotone (frozen_clock T).
Proof. intros m n _. unfold frozen_clock. lia. Qed.

Lemma phase_ok_three_late : phase_ok example_now (three_late lenient_config).
Proof.
  split.
  - apply wf_three_late.
  - done.
  - intros id t Hin Ht. simpl in Hin.
    repeat (apply elem_of_cons in Hin as [->|Hin]); try (by apply elem_of_nil in Hin);
      simpl in Ht; simplify_eq; by split.
  - intros id Hin. simpl in Hin.
    repeat (apply elem_of_cons in Hin as [->|Hin]); try (by apply elem_of_nil in Hin);
      by vm_compute.
Qed.

Lemma phase_in_range_three_late : phase_in_range example_now (three_late lenient_config).
Proof.
  intros id t Hin Ht. simpl in Hin.
  repeat (apply elem_of_cons in Hin as [->|Hin]); try (by apply elem_of_nil in Hin);
    simpl in Ht; simplify_eq; by vm_compute.
Qed.

(** P6 of the specification with [minimum_downtime_duration = 30]: the
    three tasks are executed in the order of their due times. *)
Example three_late_drained :
  executions (log (after_catching_up (frozen_clock example_now) (three_late lenient_config)))
  = [(0%nat, example_now - 30000000); (1%nat, example_now - 20000000);
     (2%nat, example_now - 10000000)].
Proof. by vm_compute. Qed.

(** The three late tasks, a threshold of 30 s and a clock that stands
    still satisfy the hypotheses of the drain theorem. *)
Lemma catch_up_drains_witness :
  ∃ fuel s' evs,
    catching_up (frozen_clock example_now) fuel (three_late lenient_config) = Some (s', Normal)
    ∧ catching_up_overflows (frozen_clock example_now) fuel (three_late lenient_config) = false
    ∧ log s' = evs ++ log (three_late lenient_config) ∧ tracked evs = []
    ∧ StronglySorted Z.le (executions evs).*2
    ∧ (∀ id, id ∈ _recurring_tasks (three_late lenient_config) →
         due_of (three_late lenient_config) id
           < frozen_clock example_now (readings (three_late lenient_config)) →
         id ∈ (executions evs).*1)
    ∧ _recurring_tasks s' ≡ₚ _recurring_tasks (three_late lenient_config)
    ∧ (∀ id, id ∈ _recurring_tasks s' →
         frozen_clock example_now (readings s' - 1) ≤ due_of s' id)
    ∧ (∀ id, id ∉ (executions evs).*1 →
         objects s' !! id = objects (three_late lenient_config) !! id).
Proof.
  refine (proj2 (catch_up_drains (frozen_clock example_now) example_now
                   (three_late lenient_config) _ _ _ _)).
  - apply phase_ok_three_late.
  - apply monotone_frozen.
  - intros k. by vm_compute.
  - apply phase_in_range_three_late.
Defined.

(** C1, the claim as stated fails: a task that is due exactly now is
    not executed, and with the default [minimum_downtime_duration] of
    20 s the three tasks of P6 are not all executed in one phase: the
    first one is 30 s late, the queue is shifted by 30 s and the two
    others are no longer due. *)
Lemma catch_up_leaves_due_tasks :
  (due_of one_due_now 0%nat ≤ frozen_clock example_now 0
   ∧ catching_up (frozen_clock example_now) 10 one_due_now = Some (tick one_due_now, Normal)
   ∧ executions (log (tick one_due_now)) = [])
  ∧ (due_of (three_late default_config) 1%nat < frozen_clock example_now 0
     ∧ due_of (three_late default_config) 2%nat < frozen_clock example_now 0
     ∧ catching_up (frozen_clock example_now) 10 (three_late default_config)
       = Some (after_catching_up (frozen_clock example_now) (three_late default_config), Normal)
     ∧ executions (log (after_catching_up (frozen_clock example_now) (three_late default_config)))
       = [(0%nat, example_now - 30000000)]).
Proof. by vm_compute. Qed.

(** A shift of the three late tasks by 5 s. *)
Lemma shift_all_adds_delay_and_keeps_order_witness :
  let s := three_late default_config in
  let s' := adapt_active_recurring_tasks 5000000 s in
  _recurring_tasks s' ≡ₚ _recurring_tasks s
  ∧ (∀ id, id ∈ _recurring_tasks s →
       ∃ t t' ne, objects s !! id = Some t ∧ next_execution t = Some ne
         ∧ objects s' !! id = Some t' ∧ next_execution t' = Some (ne + 5000000)
         ∧ is_datetime (ne + 5000000) = true)
  ∧ (∀ a b, a ∈ _recurring_tasks s → b ∈ _recurring_tasks s →
       due_of s a < due_of s b → due_of s' a < due_of s' b).
Proof.
  apply (shift_all_adds_delay_and_keeps_order 5000000 (three_late default_config)).
  - apply wf_three_late.
  - by vm_compute.
Defined.

(** Three registrations, a pop with reinsertion and a shift: the first
    entry, task 2, is due no later than task 0. *)
Lemma peek_is_earliest_witness :
  let s := run_ops coarse_clock
             (init [new_task "A" returns 10 false; new_task "B" returns 10 true;
                    new_task "C" returns 10 false] default_config false)
             [OpRegister 0%nat; OpRegister 1%nat; OpPopReinsert;
              OpShiftAll 7000000; OpRegister 2%nat] in
  ∃ t t' ne ne', objects s !! 2%nat = Some t ∧ next_execution t = Some ne
    ∧ objects s !! 0%nat = Some t' ∧ next_execution t' = Some ne'
    ∧ ne ≤ ne'.
Proof.
  refine (peek_is_earliest coarse_clock
            [new_task "A" returns 10 false; new_task "B" returns 10 true;
             new_task "C" returns 10 false] default_config false
            [OpRegister 0%nat; OpRegister 1%nat; OpPopReinsert;
             OpShiftAll 7000000; OpRegister 2%nat] _ _ 2%nat 0%nat _ _).
  - by apply (bool_decide_unpack _).
  - by vm_compute.
  - by vm_compute.
  - by apply (bool_decide_unpack _).
Defined.

(** P5 of the specification: with a slack of 5 s an oversleep of 4.9 s
    is not tracked and an oversleep of 5.1 s is tracked as 5.1 s. *)
Example oversleep_4_9_not_tracked :
  tracked (log (sleeping (wake_clock 14900000) sound_sleep one_pending).1) = [].
Proof. by vm_compute. Qed.

Example oversleep_5_1_tracked :
  tracked (log (sleeping (wake_clock 15100000) sound_sleep one_pending).1) = [5100000].
Proof. by vm_compute. Qed.

(** The pending task, woken 5.1 s late. *)
Lemma oversleep_detection_witness :
  ∃ s', sleeping (wake_clock 15100000) sound_sleep one_pending = (s', Normal)
    ∧ log s' = [EvTrackDowntime 5100000; EvSleep 10000000]
    ∧ _downtime s' = 5100000.
Proof.
  destruct (oversleep_detection (wake_clock 15100000) sound_sleep one_pending 0%nat)
    as (s' & Hs' & Hif).
  - reflexivity.
  - by vm_compute.
  - discriminate.
  - discriminate.
  - exists s'. split; [exact Hs'|].
    rewrite decide_True in Hif by (by vm_compute). exact Hif.
Defined.

(** The three late tasks with a threshold of 30 s: the three handlers
    are called, for the due times 70 s, 80 s and 90 s in this order. *)
Lemma executions_in_due_order_witness :
  (∃ evs, log (after_catching_up (frozen_clock example_now) (three_late lenient_config))
          = evs ++ log (three_late lenient_config)
          ∧ StronglySorted Z.le (executions evs).*2)
  ∧ (∀ s0 s1 task id, wf s0 → _recurring_tasks s0 !! O = Some task →
       catching_up_turn_overflows (frozen_clock example_now) s0 = false →
       catching_up_turn (frozen_clock example_now) s0 = (s1, Executed) →
       id ∈ _recurring_tasks s0 →
       due_of s0 task ≤ due_of s0 id
       ∧ ∃ pre delay, log s1 = pre ++ EvHandler task (due_of s0 task) delay :: log s0
                      ∧ executions pre = []).
Proof.
  apply (executions_in_due_order (frozen_clock example_now) 10
           (three_late lenient_config) _ Normal).
  - apply wf_three_late.
  - apply monotone_frozen.
  - intros id t Hin Ht. simpl in Hin.
    repeat (apply elem_of_cons in Hin as [->|Hin]); try (by apply elem_of_nil in Hin);
      simpl in Ht; by simplify_eq.
  - by vm_compute.
  - by vm_compute.
Defined.

(** C7, the claim as stated fails: A, B, C and D are registered in this
    order with the same due time; they are executed in the order A, C,
    D, B. *)
Lemma registration_order_not_kept :
  _recurring_tasks four_registered = [0; 1; 2; 3]%nat
  ∧ due_of four_registered 1%nat = due_of four_registered 2%nat
  ∧ catching_up coarse_clock 10 four_registered
    = Some (after_catching_up coarse_clock four_registered, Normal)
  ∧ executions (log (after_catching_up coarse_clock four_registered))
    = [(0%nat, 0); (2%nat, 0); (3%nat, 0); (1%nat, 0)].
Proof. by vm_compute. Qed.



(** A cycle that begins with the earliest of the three tasks overdue. *)
Lemma no_oversleep_check_when_due_witness :
  sleeping (frozen_clock example_now) sound_sleep (three_late default_config)
    = (tick (three_late default_config), Normal)
  ∧ ∀ s0 s' turn, catching_up_turn (frozen_clock example_now) s0 = (s', turn) →
      _downtime s' = _downtime s0
      ∨ ∃ head, _recurring_tasks s0 !! O = Some head
          ∧ timedelta (minimum_downtime_duration (_app_config s0))
              < frozen_clock example_now (readings s0) - due_of s0 head
          ∧ _downtime s' = _downtime s0
                           + (frozen_clock example_now (readings s0) - due_of s0 head)
          ∧ turn = Executed.
Proof.
  apply (no_oversleep_check_when_due (frozen_clock example_now) sound_sleep
           (three_late default_config) 0%nat).
  - reflexivity.
  - by vm_compute.
Defined.

(** * More properties of the scheduler and of the settings *)

(** ** The outer loop keeps the queue *)

Lemma wf_same s s' :
  objects s' = objects s → _recurring_tasks s' = _recurring_tasks s → wf s → wf s'.
Proof. intros Ho Hq [H1 H2 H3]. split; rewrite ?Ho, ?Hq; done. Qed.

Lemma catching_up_turn_wf utcnow s s' turn :
  wf s → catching_up_turn utcnow s = (s', turn) →
  wf s' ∧ _recurring_tasks s' ≡ₚ _recurring_tasks s.
Proof.
  intros Hwf Hturn.
  destruct (_recurring_tasks s !! O) as [task|] eqn:Hhd.
  2:{ unfold catching_up_turn in Hturn. rewrite Hhd in Hturn. by simplify_eq. }
  destruct (catching_up_turn_spec utcnow s task Hwf Hhd)
    as [[_ E]|(_ & t & s1 & _ & _ & Hs1)].
  - rewrite E in Hturn. simplify_eq. split; [by apply wf_tick|done].
  - cbv zeta in Hs1. destruct Hs1 as (Hwf1 & Hp1 & _ & _ & _ & _ & _ & _ & E).
    rewrite E in Hturn.
    destruct (track_downtime_wf (utcnow (readings s) - due_of s task) s1 Hwf1)
      as (Hwf2 & Hp2 & _).
    destruct (handler_method t _); [destruct (_ <? _)| |]; simplify_eq;
      split; try done. by rewrite Hp2.
Qed.

Lemma catching_up_wf utcnow fuel :
  ∀ s s' o, wf s → catching_up utcnow fuel s = Some (s', o) →
    wf s' ∧ _recurring_tasks s' ≡ₚ _recurring_tasks s.
Proof.
  induction fuel as [|fuel IH]; intros s s' o Hwf Hrun; [done|]. simpl in Hrun.
  destruct (catching_up_turn utcnow s) as [s1 turn] eqn:Hturn.
  destruct (catching_up_turn_wf utcnow s s1 turn Hwf Hturn) as (Hwf1 & Hp1).
  destruct turn; simplify_eq; [|done|done].
  destruct (IH s1 s' o Hwf1 Hrun) as (? & Hp). split; [done|by rewrite Hp].
Qed.

Lemma reporting_frame s :
  objects (reporting s) = objects s
  ∧ _recurring_tasks (reporting s) = _recurring_tasks s
  ∧ _app_config (reporting s) = _app_config s
  ∧ single_run (reporting s) = single_run s
  ∧ readings (reporting s) = readings s.
Proof. unfold reporting. by destruct (_ <? _). Qed.

Lemma cycle_body_wf utcnow sleep fuel s s' o :
  wf s → cycle_body utcnow sleep fuel s = Some (s', o) →
  wf s' ∧ _recurring_tasks s' ≡ₚ _recurring_tasks s
  ∧ _app_config s' = _app_config s ∧ single_run s' = single_run s.
Proof.
  intros Hwf. unfold cycle_body.
  destruct (sleeping utcnow sleep s) as [s1 o1] eqn:Hsl.
  destruct (sleeping_wf utcnow sleep s s1 o1 Hwf Hsl) as (Hwf1 & Hp1).
  destruct (sleeping_hook utcnow sleep s s1 o1 Hsl) as (_ & Hc1 & Hs1).
  destruct o1; try (intros; by simplify_eq).
  destruct (_recurring_tasks s1) eqn:Hq; [intros; simplify_eq; by rewrite <- Hp1, Hq|].
  rewrite <- Hq in *.
  destruct (catching_up utcnow fuel s1) as [[s2 o2]|] eqn:Hcu; [|done].
  destruct (catching_up_wf utcnow fuel s1 s2 o2 Hwf1 Hcu) as (Hwf2 & Hp2).
  destruct (catching_up_hook utcnow fuel s1 s2 o2 Hcu) as (_ & Hc2 & Hs2).
  destruct (reporting_frame s2) as (Ho & Hq' & Hc & Hs & _).
  destruct o2; intros; simplify_eq; split_and!; try congruence;
    try (by rewrite Hp2); try (by apply (wf_same s2)).
  by rewrite Hq', Hp2.
Qed.

Lemma cycle_body_frame utcnow sleep fuel s s' o :
  cycle_body utcnow sleep fuel s = Some (s', o) →
  _app_config s' = _app_config s ∧ single_run s' = single_run s.
Proof.
  unfold cycle_body.
  destruct (sleeping utcnow sleep s) as [s1 o1] eqn:Hsl.
  destruct (sleeping_hook utcnow sleep s s1 o1 Hsl) as (_ & Hc1 & Hs1).
  destruct o1; try (intros; by simplify_eq).
  destruct (_recurring_tasks s1); [intros; by simplify_eq|].
  destruct (catching_up utcnow fuel s1) as [[s2 o2]|] eqn:Hcu; [|done].
  destruct (catching_up_hook utcnow fuel s1 s2 o2 Hcu) as (_ & Hc2 & Hs2).
  destruct (reporting_frame s2) as (_ & _ & Hc & Hs & _).
  destruct o2; intros; simplify_eq; split; congruence.
Qed.

Lemma cycle_frame utcnow sleep fuel s s' e :
  cycle utcnow sleep fuel s = Some (s', e) →
  _app_config s' = _app_config s ∧ single_run s' = single_run s
  ∧ (e = Continue → single_run s = false)
  ∧ (e = Propagated → debug_mode (_app_config s) = true).
Proof.
  unfold cycle.
  destruct (cycle_body utcnow sleep fuel s) as [[s1 o1]|] eqn:Hb; [|done].
  destruct (cycle_body_frame utcnow sleep fuel s s1 o1 Hb) as (Hc1 & Hs1).
  rewrite Hc1, Hs1.
  destruct o1; [| destruct (debug_mode (_app_config s)) eqn:Hd|];
    destruct (single_run s) eqn:Hsr; intros; simplify_eq; split_and!; done.
Qed.

Lemma cycle_wf utcnow sleep fuel s s' e :
  wf s → cycle utcnow sleep fuel s = Some (s', e) →
  wf s' ∧ _recurring_tasks s' ≡ₚ _recurring_tasks s.
Proof.
  intros Hwf. unfold cycle.
  destruct (cycle_body utcnow sleep fuel s) as [[s1 o1]|] eqn:Hb; [|done].
  destruct (cycle_body_wf utcnow sleep fuel s s1 o1 Hwf Hb) as (Hwf1 & Hp1 & _).
  destruct o1; [| destruct (debug_mode (_app_config s1))|]; intros; by simplify_eq.
Qed.

(** X1.  In a run in which no addition overflows, [event_queue] never
    loses a task and never queues one twice: whatever else happens in
    the cycles, the queue holds the same task objects in heap order
    when the loop ends. *)
Theorem event_queue_keeps_tasks utcnow sleep cycles fuel :
  ∀ s s' e, wf s →
    event_queue_overflows utcnow sleep cycles fuel s = false →
    event_queue utcnow sleep cycles fuel s = Some (s', e) →
    wf s' ∧ _recurring_tasks s' ≡ₚ _recurring_tasks s
    ∧ _app_config s' = _app_config s.
Proof.
  induction cycles as [|cycles IH]; intros s s' e Hwf Hov Hrun; [done|].
  simpl in Hrun. cbn [event_queue_overflows] in Hov.
  apply orb_false_elim in Hov as [_ Hov].
  destruct (cycle utcnow sleep fuel s) as [[s1 e1]|] eqn:Hc; [|done].
  destruct (cycle_wf utcnow sleep fuel s s1 e1 Hwf Hc) as (Hwf1 & Hp1).
  destruct (cycle_frame utcnow sleep fuel s s1 e1 Hc) as (Hc1 & _).
  destruct e1; simplify_eq; try done.
  destruct (IH s1 s' e Hwf1 Hov Hrun) as (? & Hp & Hcf).
  split_and!; [done|by rewrite Hp|congruence].
Qed.

(** X2.  With [single_run] the loop makes exactly one turn. *)
Theorem single_run_makes_one_cycle utcnow sleep cycles fuel s :
  single_run s = true →
  event_queue utcnow sleep (S cycles) fuel s = cycle utcnow sleep fuel s
  ∧ ∀ s' e, cycle utcnow sleep fuel s = Some (s', e) → e ≠ Continue.
Proof.
  intros Hsr.
  assert (∀ s' e, cycle utcnow sleep fuel s = Some (s', e) → e ≠ Continue) as Hne.
  { intros s' e Hc ->. destruct (cycle_frame utcnow sleep fuel s s' Continue Hc)
      as (_ & _ & Hcont & _). specialize (Hcont eq_refl). congruence. }
  split; [|done]. simpl.
  destruct (cycle utcnow sleep fuel s) as [[s1 e1]|] eqn:Hc; [|done].
  specialize (Hne s1 e1 eq_refl). by destruct e1.
Qed.

(** X3.  In default mode no exception leaves [event_queue]: when the loop
    ends, it ends because [done] was set. *)
Theorem default_mode_never_propagates utcnow sleep cycles fuel :
  ∀ s s' e, debug_mode (_app_config s) = false →
    event_queue utcnow sleep cycles fuel s = Some (s', e) → e = Done.
Proof.
  induction cycles as [|cycles IH]; intros s s' e Hdbg Hrun; [done|]. simpl in Hrun.
  destruct (cycle utcnow sleep fuel s) as [[s1 e1]|] eqn:Hc; [|done].
  destruct (cycle_frame utcnow sleep fuel s s1 e1 Hc) as (Hc1 & _ & _ & Hprop).
  destruct e1; simplify_eq.
  - eapply IH; [|done]. congruence.
  - done.
  - specialize (Hprop eq_refl). congruence.
Qed.

(** ** Sleeps that do not run to their end, and the empty queue *)

(** The wait that [event_queue] computes at the beginning of a cycle. *)
Lemma sleeping_unfold utcnow sleep s :
  let wait := match _recurring_tasks s !! O with
              | Some task => due_of s task - utcnow (readings s)
              | None => timedelta ETERNITY
              end in
  sleeping utcnow sleep s =
    if 0 <? wait then
      let s1 := emit (EvSleep wait) (tick s) in
      match sleep (S (readings s)) wait with
      | RaisesSignalHangUp => (s1, RaisesSignalHangUp)
      | slept =>
          if bool_decide (slept = RaisesException) && debug_mode (_app_config s)
          then (s1, RaisesException)
          else match _recurring_tasks s !! O with
               | Some task => (waking utcnow task s1, Normal)
               | None => (s1, Normal)
               end
      end
    else (tick s, Normal).
Proof. reflexivity. Qed.

(** X4.  A sleep that [SignalHangUp] ends, or that an exception ends in
    debug mode, ends the cycle at once: the clock is not read again, no
    delay is tracked and no handler is called; [done] is set in the
    first case and the exception leaves [event_queue] in the second. *)
Theorem interrupted_sleep_ends_cycle utcnow sleep fuel s :
  let wait := match _recurring_tasks s !! O with
              | Some task => due_of s task - utcnow (readings s)
              | None => timedelta ETERNITY
              end in
  0 < wait →
  sleep (S (readings s)) wait ≠ Normal →
  (sleep (S (readings s)) wait = RaisesException → debug_mode (_app_config s) = true) →
  cycle utcnow sleep fuel s
  = Some (emit (EvSleep wait) (tick s),
          if bool_decide (sleep (S (readings s)) wait = RaisesSignalHangUp)
          then Done else Propagated).
Proof.
  intros wait Hwait Hne Hdbg. unfold cycle, cycle_body.
  rewrite sleeping_unfold. fold wait.
  destruct (Z.ltb_spec 0 wait) as [_|?]; [|lia]. cbv zeta.
  destruct (sleep (S (readings s)) wait) eqn:Hsl; [done| |done].
  rewrite (Hdbg eq_refl). simpl. by rewrite (Hdbg eq_refl).
Qed.

(** X5.  With no task registered a cycle is one sleep of [ETERNITY]
    seconds: the clock is read once, nothing is executed, and the
    Reporting step is not reached, so the downtime hook is not called
    even if the accumulator is positive. *)
Theorem empty_queue_cycle utcnow sleep fuel s :
  _recurring_tasks s = [] →
  sleep (S (readings s)) (timedelta ETERNITY) ≠ RaisesSignalHangUp →
  (sleep (S (readings s)) (timedelta ETERNITY) = RaisesException →
     debug_mode (_app_config s) = false) →
  cycle utcnow sleep fuel s
  = Some (emit (EvSleep (timedelta ETERNITY)) (tick s),
          if single_run s then Done else Continue).
Proof.
  intros Hq Hhup Hexc. unfold cycle, cycle_body.
  rewrite sleeping_unfold. cbv zeta. rewrite Hq, lookup_nil.
  change (0 <? timedelta ETERNITY) with true. cbv iota.
  destruct (sleep (S (readings s)) (timedelta ETERNITY)) eqn:Hsl; [| |done].
  - simpl. by rewrite Hq.
  - rewrite (Hexc eq_refl). simpl. by rewrite Hq.
Qed.

(** ** The downtime accumulator *)

Lemma waking_downtime utcnow task s :
  0 ≤ maximum_timer_slack (_app_config s) →
  _downtime s ≤ _downtime (waking utcnow task s)
  ∧ _app_config (waking utcnow task s) = _app_config s.
Proof.
  intros Hslack. unfold waking.
  change (_app_config (tick s)) with (_app_config s).
  destruct (Z.ltb_spec (timedelta (maximum_timer_slack (_app_config s)))
              (utcnow (readings s) - due_of (tick s) task)); simpl; [|done].
  unfold timedelta in *. split; [lia|done].
Qed.

Lemma sleeping_downtime utcnow sleep s s' o :
  0 ≤ maximum_timer_slack (_app_config s) →
  sleeping utcnow sleep s = (s', o) → _downtime s ≤ _downtime s'.
Proof.
  intros Hslack. rewrite sleeping_unfold. cbv zeta.
  destruct (_ <? _); [|intros; by simplify_eq].
  destruct (sleep _ _); simpl; try destruct (debug_mode _);
    destruct (_recurring_tasks s !! O) as [task|];
    intros; simplify_eq; try done;
    by apply (waking_downtime utcnow task (emit _ (tick s))).
Qed.

Lemma catching_up_turn_downtime utcnow s s' turn :
  0 ≤ minimum_downtime_duration (_app_config s) →
  catching_up_turn utcnow s = (s', turn) → _downtime s ≤ _downtime s'.
Proof.
  intros Hmin. unfold catching_up_turn.
  destruct (_recurring_tasks s !! O) as [head|]; [|by intros; simplify_eq].
  change (due_of (tick s) head) with (due_of s head).
  destruct (_ <? _); [|by intros; simplify_eq].
  destruct (heappop _ _) as [[popped rest]|]; [|by intros; simplify_eq].
  destruct (add_recurring_task_frame utcnow popped
              (with_queue (tick s) (objects (tick s)) rest (readings (tick s))))
    as (_ & Hd & Hc & _).
  remember (add_recurring_task utcnow popped
              (with_queue (tick s) (objects (tick s)) rest (readings (tick s))))
    as s1 eqn:Hs1. clear Hs1. simpl in Hd, Hc.
  destruct (match objects s1 !! popped with Some t => _ | None => Normal end);
    try (intros; simplify_eq; simpl; lia).
  change (_app_config (emit (EvHandler popped (due_of s head)
                               (utcnow (readings s) - due_of s head)) s1))
    with (_app_config s1). rewrite Hc.
  destruct (Z.ltb_spec (timedelta (minimum_downtime_duration (_app_config s)))
              (utcnow (readings s) - due_of s head)); intros; simplify_eq; simpl;
    unfold timedelta in *; lia.
Qed.

Lemma catching_up_downtime utcnow fuel :
  ∀ s s' o, 0 ≤ minimum_downtime_duration (_app_config s) →
    catching_up utcnow fuel s = Some (s', o) → _downtime s ≤ _downtime s'.
Proof.
  induction fuel as [|fuel IH]; intros s s' o Hmin Hrun; [done|]. simpl in Hrun.
  destruct (catching_up_turn utcnow s) as [s1 turn] eqn:Hturn.
  pose proof (catching_up_turn_downtime utcnow s s1 turn Hmin Hturn).
  destruct (catching_up_turn_hook utcnow s s1 turn Hturn) as (_ & Hc & _).
  destruct turn; simplify_eq; [|done|done].
  assert (_downtime s1 ≤ _downtime s'); [|lia]. eapply IH; [|done]. by rewrite Hc.
Qed.

Lemma sleeping_queue_length utcnow sleep s s' o :
  sleeping utcnow sleep s = (s', o) →
  length (_recurring_tasks s') = length (_recurring_tasks s).
Proof.
  rewrite sleeping_unfold. cbv zeta.
  assert (∀ task s0, length (_recurring_tasks (waking utcnow task s0))
                     = length (_recurring_tasks s0)) as Hw.
  { intros task s0. unfold waking. destruct (_ <? _); [|done]. simpl.
    set (objs := foldl _ _ _).
    by destruct (heapify_spec (heap_lt objs) (key_of objs) (heap_lt_key objs)
                   (_recurring_tasks s0)) as (_ & -> & _). }
  destruct (_ <? _); [|intros; by simplify_eq].
  destruct (sleep _ _); simpl; try destruct (debug_mode _);
    destruct (_recurring_tasks s !! O) as [task|];
    intros; simplify_eq; try done; by rewrite Hw.
Qed.

(** X6.  With thresholds that are not negative the accumulator is never
    negative, and a cycle with tasks that ends without an exception
    leaves it at zero; a cycle that an exception ends keeps what was
    tracked for the next one. *)
Theorem downtime_accumulator utcnow sleep fuel s s' o :
  0 ≤ maximum_timer_slack (_app_config s) →
  0 ≤ minimum_downtime_duration (_app_config s) →
  0 ≤ _downtime s →
  cycle_body utcnow sleep fuel s = Some (s', o) →
  0 ≤ _downtime s'
  ∧ (o = Normal → _recurring_tasks s ≠ [] → _downtime s' = 0)
  ∧ (o ≠ Normal → _downtime s ≤ _downtime s').
Proof.
  intros Hslack Hmin Hd. unfold cycle_body.
  destruct (sleeping utcnow sleep s) as [s1 o1] eqn:Hsl.
  pose proof (sleeping_downtime utcnow sleep s s1 o1 Hslack Hsl) as Hd1.
  destruct (sleeping_hook utcnow sleep s s1 o1 Hsl) as (_ & Hc1 & _).
  pose proof (sleeping_queue_length utcnow sleep s s1 o1 Hsl) as Hlen.
  destruct o1; try (intros; simplify_eq; split_and!; [lia|done|done]).
  destruct (_recurring_tasks s1) eqn:Hq.
  { intros; simplify_eq. split_and!; [lia| |done].
    intros _ Hne. destruct (_recurring_tasks s); done. }
  destruct (catching_up utcnow fuel s1) as [[s2 o2]|] eqn:Hcu; [|done].
  assert (_downtime s1 ≤ _downtime s2) as Hd2.
  { eapply catching_up_downtime; [|done]. by rewrite Hc1. }
  destruct o2; intros; simplify_eq; try (split_and!; [lia|done|intros; lia]).
  unfold reporting. destruct (Z.ltb_spec 0 (_downtime s2)); simpl;
    split_and!; try done; intros; lia.
Qed.

(** ** No task is executed early *)

Lemma handler_delays_app evs evs' :
  handler_delays (evs ++ evs') = handler_delays evs ++ handler_delays evs'.
Proof. apply omap_app. Qed.

Lemma catching_up_turn_delays utcnow s s' turn :
  catching_up_turn utcnow s = (s', turn) →
  ∃ evs, log s' = evs ++ log s ∧ Forall (Z.lt 0) (handler_delays evs).
Proof.
  unfold catching_up_turn.
  destruct (_recurring_tasks s !! O) as [head|];
    [|intros; simplify_eq; by exists []].
  change (due_of (tick s) head) with (due_of s head).
  destruct (Z.ltb_spec (due_of s head) (utcnow (readings s))) as [Hdue|?];
    [|intros; simplify_eq; by exists []].
  destruct (heappop _ _) as [[popped rest]|]; [|intros; simplify_eq; by exists []].
  destruct (add_recurring_task_frame utcnow popped
              (with_queue (tick s) (objects (tick s)) rest (readings (tick s))))
    as (Hl & _).
  remember (add_recurring_task utcnow popped
              (with_queue (tick s) (objects (tick s)) rest (readings (tick s))))
    as s1 eqn:Hs1. clear Hs1. simpl in Hl.
  assert (Forall (Z.lt 0) [utcnow (readings s) - due_of s head]) as Hpos.
  { repeat constructor. lia. }
  destruct (match objects s1 !! popped with Some t => _ | None => Normal end).
  - destruct (_ <? _); intros; simplify_eq; simpl; rewrite Hl.
    + by exists [EvTrackDowntime (utcnow (readings s) - due_of s head);
                 EvHandler popped (due_of s head) (utcnow (readings s) - due_of s head)].
    + by exists [EvHandler popped (due_of s head) (utcnow (readings s) - due_of s head)].
  - intros; simplify_eq; simpl; rewrite Hl.
    by exists [EvHandler popped (due_of s head) (utcnow (readings s) - due_of s head)].
  - intros; simplify_eq; simpl; rewrite Hl.
    by exists [EvHandler popped (due_of s head) (utcnow (readings s) - due_of s head)].
Qed.

(** X7.  The catch-up loop never calls a handler early: every call it makes
    is for a task whose [next_execution] was strictly before the
    reading of the clock. *)
Theorem handlers_never_called_early utcnow fuel :
  ∀ s s' o, catching_up utcnow fuel s = Some (s', o) →
    ∃ evs, log s' = evs ++ log s ∧ Forall (Z.lt 0) (handler_delays evs).
Proof.
  induction fuel as [|fuel IH]; intros s s' o Hrun; [done|]. simpl in Hrun.
  destruct (catching_up_turn utcnow s) as [s1 turn] eqn:Hturn.
  destruct (catching_up_turn_delays utcnow s s1 turn Hturn) as (evs1 & Hl1 & Hf1).
  destruct turn; simplify_eq; [|by exists evs1|by exists evs1].
  destruct (IH s1 s' o Hrun) as (evs & Hl & Hf).
  exists (evs ++ evs1). split; [by rewrite Hl, Hl1, app_assoc|].
  rewrite handler_delays_app. by apply Forall_app.
Qed.

(** ** The oversleep realigns the queue *)

(** X8.  When the Waking step tracks an oversleep of less than
    [TOTAL_SECONDS_EXACT] seconds and the shift does not overflow, the
    task that was awaited becomes due exactly at the reading of the
    clock made on waking, and no queued task is due before it: the
    shift leaves nothing overdue. *)
Theorem waking_realigns_queue utcnow s task :
  wf s → _recurring_tasks s !! O = Some task →
  timedelta (maximum_timer_slack (_app_config s)) < utcnow (readings s) - due_of s task →
  utcnow (readings s) - due_of s task < timedelta TOTAL_SECONDS_EXACT →
  waking_overflows utcnow task s = false →
  let s' := waking utcnow task s in
  wf s'
  ∧ due_of s' task = utcnow (readings s)
  ∧ (∀ id, id ∈ _recurring_tasks s' →
       utcnow (readings s) ≤ due_of s' id ∧ is_datetime (due_of s' id) = true).
Proof.
  intros Hwf Hhd Hover _ Hov. unfold waking.
  unfold waking_overflows in Hov. cbv zeta in Hov.
  change (due_of (tick s) task) with (due_of s task) in *.
  change (_app_config (tick s)) with (_app_config s) in *.
  destruct (Z.ltb_spec (timedelta (maximum_timer_slack (_app_config s)))
              (utcnow (readings s) - due_of s task)) as [_|?]; [|lia].
  cbn [andb] in Hov.
  destruct (track_downtime_wf (utcnow (readings s) - due_of s task) (tick s)
              (wf_tick s Hwf)) as (Hwf' & Hp & Hdue & _).
  cbv zeta in *.
  assert (task ∈ _recurring_tasks s) as Htin by (by eapply list_elem_of_lookup_2).
  split_and!.
  - done.
  - rewrite Hdue by done. change (due_of (tick s) task) with (due_of s task). lia.
  - intros id Hin. rewrite Hp in Hin. rewrite Hdue by done. split.
    + change (due_of (tick s) id) with (due_of s id).
      pose proof (wf_head_min s task id Hwf Hhd Hin). lia.
    + by apply adapt_active_recurring_tasks_in_range; [apply wf_tick| |].
Qed.

(** ** Tracked delays add up, and a shift can be undone *)

(** X9.  Two delays tracked one after the other, with no overflow, move
    every queued task by the sum of the two and are logged as two
    calls; the accumulator does not shrink when the delays are not
    negative. *)
Theorem track_downtime_adds_up d1 d2 s :
  wf s →
  adapt_active_recurring_tasks_overflows d1 s = false →
  adapt_active_recurring_tasks_overflows d2 (track_downtime d1 s) = false →
  let s2 := track_downtime d2 (track_downtime d1 s) in
  wf s2
  ∧ _recurring_tasks s2 ≡ₚ _recurring_tasks s
  ∧ (∀ id, id ∈ _recurring_tasks s →
       due_of s2 id = due_of s id + (d1 + d2) ∧ is_datetime (due_of s2 id) = true)
  ∧ tracked (log s2) = d2 :: d1 :: tracked (log s)
  ∧ (0 ≤ d1 → 0 ≤ d2 → _downtime s ≤ _downtime s2).
Proof.
  intros Hwf Hov1 Hov2.
  destruct (track_downtime_wf d1 s Hwf) as (Hwf1 & Hp1 & Hdue1 & _ & _ & Hl1 & Hd1 & _).
  destruct (track_downtime_wf d2 _ Hwf1) as (Hwf2 & Hp2 & Hdue2 & _ & _ & Hl2 & Hd2 & _).
  cbv zeta in *. split_and!.
  - done.
  - by rewrite Hp2.
  - intros id Hin. rewrite Hdue2 by (by rewrite Hp1). split.
    + rewrite Hdue1 by done. lia.
    + apply adapt_active_recurring_tasks_in_range; [done|done|by rewrite Hp1].
  - by rewrite Hl2, Hl1.
  - rewrite Hd2, Hd1. lia.
Qed.

Lemma set_next_execution_same t ne :
  next_execution t = Some ne → set_next_execution t ne = t.
Proof. destruct t. simpl. by intros ->. Qed.

(** X10.  Shifting the queue by a delay and then by the opposite delay gives
    every task object back as it was. *)
Theorem shift_round_trip p_delay s :
  wf s →
  let s' := adapt_active_recurring_tasks (- p_delay)
              (adapt_active_recurring_tasks p_delay s) in
  wf s' ∧ objects s' = objects s
  ∧ _recurring_tasks s' ≡ₚ _recurring_tasks s.
Proof.
  intros Hwf.
  destruct (adapt_active_recurring_tasks_wf p_delay s Hwf)
    as (Hwf1 & Hp1 & Hdue1 & Hout1 & Hobj1).
  destruct (adapt_active_recurring_tasks_wf (- p_delay) _ Hwf1)
    as (Hwf2 & Hp2 & _ & Hout2 & Hobj2).
  cbv zeta. split_and!; [done| |by rewrite Hp2].
  apply list_eq. intros id.
  destruct (decide (id ∈ _recurring_tasks s)) as [Hin|Hnin].
  - destruct (Hobj1 id Hin) as (t & Ht & Ht1).
    destruct (Hobj2 id) as (t1 & Ht1' & Ht2); [by rewrite Hp1|].
    rewrite Ht2, Ht. f_equal. simplify_eq.
    destruct (wf_lookup s id Hwf Hin) as (t' & Ht' & Hne). simplify_eq.
    rewrite Hdue1 by done. destruct t. simpl in *. rewrite Hne.
    unfold set_next_execution. simpl. f_equal. f_equal. lia.
  - rewrite Hout2 by (by rewrite Hp1). by apply Hout1.
Qed.

(** ** Rescheduling the earliest task *)

(** X11.  When the addition does not overflow, the pop and reinsertion
    of [event_queue] gives the earliest task its next occurrence and
    touches no other task: on a fixed schedule the previous due time
    plus the interval, without a reading of the clock; otherwise the
    time of the reinsertion plus the interval. *)
Theorem pop_reinsert_reschedules utcnow s task t :
  wf s → _recurring_tasks s !! O = Some task → objects s !! task = Some t →
  compute_next_execution_time_overflows utcnow t (readings s) = false →
  let s' := pop_reinsert utcnow s in
  wf s' ∧ _recurring_tasks s' ≡ₚ _recurring_tasks s
  ∧ due_of s' task
    = (if fixed_schedule t then due_of s task else utcnow (readings s))
      + timedelta (interval t)
  ∧ is_datetime (due_of s' task) = true
  ∧ readings s' = (if fixed_schedule t then readings s else S (readings s))
  ∧ (∀ id, id ≠ task → objects s' !! id = objects s !! id).
Proof.
  intros Hwf Hhd Ht Hov. unfold pop_reinsert.
  destruct (heappop_wf s task Hwf Hhd) as (rest & Hpop & Hwfr & Hnin & Hp).
  rewrite Hpop.
  destruct (add_recurring_task_wf utcnow task t _ Hwfr Hnin Ht)
    as (Hwf1 & Hp1 & Ho1 & Hr1 & _).
  assert (task ∈ _recurring_tasks s) as Htin by (by eapply list_elem_of_lookup_2).
  destruct (wf_lookup s task Hwf Htin) as (t' & Ht' & Hne).
  assert (t' = t) as -> by congruence.
  cbv zeta in *. simpl in Hp1, Ho1, Hr1.
  assert (due_of (add_recurring_task utcnow task
                    (with_queue s (objects s) rest (readings s))) task
          = (if fixed_schedule t then due_of s task else utcnow (readings s))
            + timedelta (interval t)) as Hnew.
  { unfold due_of at 1. rewrite Ho1.
    rewrite key_of_insert_eq by (by eapply lookup_lt_Some).
    unfold compute_next_execution_time. rewrite Hne.
    by destruct (fixed_schedule t). }
  split_and!.
  - done.
  - rewrite Hp1. by rewrite Hp.
  - done.
  - rewrite Hnew. unfold compute_next_execution_time_overflows in Hov.
    rewrite Hne in Hov. by apply negb_false_iff in Hov.
  - rewrite Hr1. unfold compute_next_execution_time. rewrite Hne.
    by destruct (fixed_schedule t).
  - intros id Hid. rewrite Ho1. by apply list_lookup_insert_ne.
Qed.

(** ** The pattern of the command line settings *)

Lemma span_spec p s a b :
  span p s = (a, b) →
  s = a +:+ b ∧ string_forall p a = true
  ∧ (b = EmptyString ∨ ∃ c r, b = String c r ∧ p c = false).
Proof.
  revert a b. induction s as [|c s IH]; intros a b Hsp; simpl in Hsp.
  - simplify_eq. split_and!; [done|done|by left].
  - destruct (p c) eqn:Hc.
    + destruct (span p s) as [a' b'] eqn:Hs. simplify_eq.
      destruct (IH a' b eq_refl) as (-> & Hall & Hrest).
      split_and!; [done|by simpl; rewrite Hc|done].
    + simplify_eq. split_and!; [done|done|right; eauto].
Qed.

Lemma span_app p a b :
  string_forall p a = true →
  (∀ c r, b = String c r → p c = false) →
  span p (a +:+ b) = (a, b).
Proof.
  intros Hall Hb. induction a as [|c a IH]; simpl in *.
  - destruct b as [|c r]; [done|]. simpl. by rewrite (Hb c r).
  - apply andb_prop in Hall as [-> Hall]. by rewrite IH.
Qed.

(** X12.  The pattern reads back what was written: a setting written as
    SECTION.OPTION=VALUE, with a section name and an option name made
    of the characters of their classes and a value without a newline,
    is matched with exactly these three groups. *)
Theorem cmdline_parameter_round_trip section_name option_name value :
  section_name ≠ EmptyString → option_name ≠ EmptyString →
  string_forall is_section_char section_name = true →
  string_forall is_option_char option_name = true →
  string_forall is_dot_char value = true →
  REGEX_CMDLINE_PARAMETER (section_name +:+ "." +:+ option_name +:+ "=" +:+ value)
  = Some (section_name, option_name, value).
Proof.
  intros Hs Ho Hsc Hoc Hv. unfold REGEX_CMDLINE_PARAMETER.
  rewrite (span_app is_section_char section_name) by (done || by intros ?? [= <- _]).
  destruct section_name as [|c1 s1]; [done|].
  change ("." +:+ option_name +:+ "=" +:+ value)
    with (String "." (option_name +:+ "=" +:+ value)). cbv iota.
  rewrite (span_app is_option_char option_name) by (done || by intros ?? [= <- _]).
  destruct option_name as [|c2 s2]; [done|].
  change ("=" +:+ value) with (String "=" value). cbv iota.
  replace value with (value +:+ EmptyString) at 1.
  2:{ clear. induction value as [|c v IH]; [done|].
      change (String c (v +:+ EmptyString) = String c v). by rewrite IH. }
  by rewrite (span_app is_dot_char value) by (done || by intros ?? [=]).
Qed.

(** X13.  What a match says about the parameter: the parameter begins with
    group 1, a dot, group 2, an equals sign and group 3; the groups are
    not empty (the value may be) and are made of the characters of
    their classes; after group 3 the parameter ends or goes to a new
    line. *)
Theorem cmdline_parameter_groups par section_name option_name value :
  REGEX_CMDLINE_PARAMETER par = Some (section_name, option_name, value) →
  section_name ≠ EmptyString ∧ option_name ≠ EmptyString
  ∧ string_forall is_section_char section_name = true
  ∧ string_forall is_option_char option_name = true
  ∧ string_forall is_dot_char value = true
  ∧ ∃ rest, par = section_name +:+ "." +:+ option_name +:+ "=" +:+ value +:+ rest
            ∧ (rest = EmptyString ∨ ∃ r, rest = String "010" r).
Proof.
  unfold REGEX_CMDLINE_PARAMETER.
  destruct (span is_section_char par) as [g1 r1] eqn:H1.
  destruct (span_spec _ _ _ _ H1) as (-> & Hg1 & _).
  destruct g1 as [|c1 g1]; [done|].
  destruct r1 as [|d1 r1]; [done|].
  destruct (Ascii.eqb_spec d1 ".") as [->|Hne].
  2:{ destruct d1 as [[] [] [] [] [] [] [] []]; done. }
  destruct (span is_option_char r1) as [g2 r2] eqn:H2.
  destruct (span_spec _ _ _ _ H2) as (-> & Hg2 & _).
  destruct g2 as [|c2 g2]; [done|].
  destruct r2 as [|d2 r2]; [done|].
  destruct (Ascii.eqb_spec d2 "=") as [->|Hne].
  2:{ destruct d2 as [[] [] [] [] [] [] [] []]; done. }
  destruct (span is_dot_char r2) as [g3 r3] eqn:H3.
  destruct (span_spec _ _ _ _ H3) as (-> & Hg3 & Hr3).
  intros [= <- <- <-]. split_and!; try done.
  exists r3. split.
  - change (String "." ?x) with ("." +:+ x). change (String "=" ?x) with ("=" +:+ x).
    done.
  - destruct Hr3 as [->|(c & r & -> & Hc)]; [by left|right].
    exists r. f_equal. unfold is_dot_char in Hc.
    apply negb_false_iff in Hc. by apply Ascii.eqb_eq in Hc.
Qed.

(** ** Settings: [set_config_value] and [read_command_line_parameters] *)

Lemma string_length_app (a b : string) :
  String.length (a +:+ b) = (String.length a + String.length b)%nat.
Proof.
  induction a as [|c a IH]; [done|].
  change (S (String.length (a +:+ b)) = S (String.length a + String.length b)).
  by rewrite IH.
Qed.

Lemma marker_name_length k x :
  String.length (marker_name k x) = (6 * k + String.length x)%nat.
Proof.
  induction k as [|k IH]; [done|].
  cbn [marker_name]. rewrite string_length_app, IH.
  change (String.length NONE_TYPE_PREFIX) with 6%nat. lia.
Qed.

Lemma marker_name_S k x :
  marker_name (S k) x = marker_name k (NONE_TYPE_PREFIX +:+ x).
Proof. induction k as [|k IH]; [done|]. cbn [marker_name] in *. by rewrite IH. Qed.

Lemma marker_name_ne k x : marker_name (S k) x ≠ x.
Proof.
  intros Heq. apply (f_equal String.length) in Heq.
  rewrite marker_name_length in Heq. lia.
Qed.

Lemma marker_ne x : NONE_TYPE_PREFIX +:+ x ≠ x.
Proof. exact (marker_name_ne 0 x). Qed.

(** The two ways a setting ends, read off [set_config_value]. *)
Lemma set_config_value_raised upper int self p_section_name p_option p_option_value self' e :
  set_config_value upper int self p_section_name p_option p_option_value = (self', Raise e) →
  self' = self.
Proof.
  unfold set_config_value. intros Hset.
  repeat (case_match; simplify_eq; try done).
Qed.

Lemma set_config_value_returned upper int self p_section_name p_option p_option_value self' :
  set_config_value upper int self p_section_name p_option p_option_value = (self', Returned) →
  ∃ section option_type v,
    _sections self !! p_section_name = Some section
    ∧ has_option section p_option = true
    ∧ get_option_type section p_option = inl option_type
    ∧ coerced upper int option_type p_option_value = Some v
    ∧ self' = {| _sections :=
                  <[p_section_name := {| __dict__ := <[p_option := v]> (__dict__ section) |}]>
                    (_sections self) |}.
Proof.
  unfold set_config_value. intros Hset.
  destruct (_sections self !! p_section_name) as [section|] eqn:Hsec; [|done].
  destruct (has_option section p_option) eqn:Hopt; simpl in Hset; [|done].
  destruct (get_option_type section p_option) as [option_type|e] eqn:Hty; [|done].
  exists section, option_type. unfold coerced.
  repeat (case_match; simplify_eq; try done); eauto 10.
Qed.

(** What is stored is an instance of the option's class when that is
    [bool], [int] or [str]. *)
Lemma coerced_is_instance upper int option_type p_option_value v :
  coerced upper int option_type p_option_value = Some v →
  (∃ x, is_instance x option_type = true) →
  is_instance v option_type = true.
Proof.
  unfold coerced. intros Hco [x Hx].
  destruct (bool_decide (option_type = "bool")) eqn:Hb.
  { repeat (case_match; simplify_eq/=; try done). }
  destruct (bool_decide (option_type = "int")) eqn:Hi.
  { destruct (int p_option_value); simplify_eq/=. done. }
  simplify_eq/=. destruct x; simpl in Hx; congruence.
Qed.

(** [set_config_value] in one equation: the value stored is [coerced]. *)
Lemma set_config_value_coerced upper int self p_section_name p_option p_option_value :
  set_config_value upper int self p_section_name p_option p_option_value
  = match _sections self !! p_section_name with
    | None => (self, Raise ConfigurationException)
    | Some section =>
        if has_option section p_option then
          match get_option_type section p_option with
          | inr e => (self, Raise e)
          | inl option_type =>
              match coerced upper int option_type p_option_value with
              | Some v =>
                  ({| _sections :=
                        <[p_section_name :=
                            {| __dict__ := <[p_option := v]> (__dict__ section) |}]>
                          (_sections self) |}, Returned)
              | None => (self, Raise ConfigurationException)
              end
          end
        else (self, Raise ConfigurationException)
    end.
Proof.
  unfold set_config_value, coerced.
  destruct (_sections self !! p_section_name) as [section|]; [|done].
  destruct (has_option section p_option); simpl; [|done].
  destruct (get_option_type section p_option) as [option_type|e]; [|done].
  repeat (case_match; simplify_eq/=; try done).
Qed.

(** A rule for invariants of [read_command_line_parameters]. *)
Lemma read_command_line_parameters_inv upper int (P : Configuration → Prop) :
  (∀ self sec opt v self',
     P self → set_config_value upper int self sec opt v = (self', Returned) → P self') →
  ∀ pars self self' e,
    P self → read_command_line_parameters upper int self pars = (self', e) → P self'.
Proof.
  intros Hstep pars.
  induction pars as [|par pars IH]; intros self self' e HP Hrun; simpl in Hrun.
  - by simplify_eq.
  - destruct (REGEX_CMDLINE_PARAMETER par) as [[[sec opt] v]|]; [|by eapply IH].
    destruct (set_config_value upper int self sec opt v) as [self1 [|e1]] eqn:Hset.
    + eapply IH; [|done]. by eapply Hstep.
    + simplify_eq. by rewrite (set_config_value_raised _ _ _ _ _ _ _ _ Hset).
Qed.

(** One setting keeps an option that holds a [bool], an [int] or a
    [str] an option of that class. *)
Lemma set_config_value_holds upper int self sec opt v self' name section x ty :
  set_config_value upper int self sec opt v = (self', Returned) →
  _sections self !! name = Some section → holds section x ty →
  ∃ section', _sections self' !! name = Some section' ∧ holds section' x ty.
Proof.
  intros Hset Hname [(old & Hold & Hinst) Hmark].
  apply set_config_value_returned in Hset
    as (section0 & option_type & val & Hsec & Hopt & Hty & Hco & ->). simpl.
  destruct (decide (sec = name)) as [->|Hne].
  2:{ exists section. split; [by rewrite lookup_insert_ne|]. split; eauto. }
  simplify_eq. eexists; split; [apply lookup_insert_eq|]. simpl.
  destruct (decide (opt = x)) as [->|Hox].
  - split.
    + exists val. cbn [__dict__]. rewrite lookup_insert_eq. split; [done|].
      unfold get_option_type, dict_get in Hty.
      change (NONE_TYPE_PREFIX +:+ x) with (marker_name 1 x) in Hty.
      rewrite Hmark, Hold in Hty. simpl in Hty. simplify_eq.
      assert (type_name old = ty) as Hn.
      { destruct old; simpl in Hinst; try done;
          by apply bool_decide_eq_true in Hinst. }
      rewrite Hn in Hco. eapply coerced_is_instance; [done|]. by exists old.
    + intros k. cbn [__dict__]. rewrite lookup_insert_ne; [done|].
      intros Heq. by apply (marker_name_ne k x).
  - split.
    + exists old. cbn [__dict__]. by rewrite lookup_insert_ne.
    + intros k. cbn [__dict__]. rewrite lookup_insert_ne; [done|]. intros ->.
      unfold has_option in Hopt.
      change (NONE_TYPE_PREFIX +:+ marker_name (S k) x) with (marker_name (S (S k)) x) in Hopt.
      rewrite !Hmark in Hopt. by simpl in Hopt.
Qed.

(** What [BaseAppConfigModel.__init__] sets up: the defaults that
    [event_queue] reads, each under an option of its class. *)
Lemma new_base_app_config_model_holds p_section_name :
  app_config_of (new_base_app_config_model p_section_name) = Some default_config
  ∧ holds (new_base_app_config_model p_section_name) "debug_mode" "bool"
  ∧ holds (new_base_app_config_model p_section_name) "minimum_downtime_duration" "int"
  ∧ holds (new_base_app_config_model p_section_name) "maximum_timer_slack" "int".
Proof.
  split; [done|].
  split_and!; (split; [eexists; split; [reflexivity|done]|]); intros k;
    unfold new_base_app_config_model, new_config_model; simpl;
    repeat (rewrite lookup_insert_ne;
      [|let H := fresh in
        intros H; cbv [String.append NONE_TYPE_PREFIX] in H;
        first [discriminate H
              |injection H as H; destruct k;
               cbv [marker_name String.append NONE_TYPE_PREFIX] in H; discriminate H]]);
    done.
Qed.

(** X14.  Reading the parameters [l1 ++ l2] is reading [l1] and then, unless
    a setting of [l1] raised, reading [l2] in the configuration that
    [l1] left. *)
Theorem read_command_line_parameters_app upper int l1 l2 self :
  read_command_line_parameters upper int self (l1 ++ l2)
  = match read_command_line_parameters upper int self l1 with
    | (self', Returned) => read_command_line_parameters upper int self' l2
    | raised => raised
    end.
Proof.
  revert self. induction l1 as [|par l1 IH]; intros self; simpl; [done|].
  destruct (REGEX_CMDLINE_PARAMETER par) as [[[sec opt] v]|]; [|apply IH].
  destruct (set_config_value upper int self sec opt v) as [self1 [|e1]]; [apply IH|done].
Qed.

(** X15.  When [read_command_line_parameters] raises, it is at a parameter
    that the pattern matches and whose setting raises; the settings
    before it stay applied (nothing is rolled back) and no parameter
    after it is looked at. *)
Theorem read_command_line_parameters_stops_at_failure upper int pars self self' e :
  read_command_line_parameters upper int self pars = (self', Raise e) →
  ∃ l1 par l2 section_name option_name value,
    pars = l1 ++ par :: l2
    ∧ read_command_line_parameters upper int self l1 = (self', Returned)
    ∧ REGEX_CMDLINE_PARAMETER par = Some (section_name, option_name, value)
    ∧ set_config_value upper int self' section_name option_name value = (self', Raise e).
Proof.
  revert self. induction pars as [|par pars IH]; intros self Hrun; simpl in Hrun; [done|].
  destruct (REGEX_CMDLINE_PARAMETER par) as [[[sec opt] v]|] eqn:Hre.
  - destruct (set_config_value upper int self sec opt v) as [self1 [|e1]] eqn:Hset.
    + destruct (IH _ Hrun) as (l1 & p & l2 & s & o & w & -> & Hl1 & Hp & Hw).
      exists (par :: l1), p, l2, s, o, w. split_and!; try done.
      simpl. by rewrite Hre, Hset.
    + simplify_eq. pose proof (set_config_value_raised _ _ _ _ _ _ _ _ Hset) as ->.
      by exists [], par, pars, sec, opt, v.
  - destruct (IH _ Hrun) as (l1 & p & l2 & s & o & w & -> & Hl1 & Hp & Hw).
    exists (par :: l1), p, l2, s, o, w. split_and!; try done.
    simpl. by rewrite Hre.
Qed.

(** X16.  Parameters that the pattern does not match change nothing and
    raise nothing: leaving them out gives the same result. *)
Theorem unmatched_parameters_ignored upper int pars self :
  read_command_line_parameters upper int self pars
  = read_command_line_parameters upper int self
      (filter (λ par, is_Some (REGEX_CMDLINE_PARAMETER par)) pars).
Proof.
  revert self. induction pars as [|par pars IH]; intros self; [done|].
  rewrite filter_cons. simpl. destruct (REGEX_CMDLINE_PARAMETER par) as [[[sec opt] v]|] eqn:Hre.
  - rewrite decide_True by done. simpl. rewrite Hre.
    destruct (set_config_value upper int self sec opt v) as [self1 [|e1]]; [apply IH|done].
  - rewrite decide_False by (by intros [? ?]). apply IH.
Qed.

(** X17.  Settings create no section, and an attribute only under a name
    that was an attribute or from which marker names lead to one:
    however the call ends, the configuration has the sections it had,
    and for every attribute [x] of a section, [x] or one of
    [_TYPE_x], [_TYPE__TYPE_x], ... was an attribute of that section
    before. *)
Theorem settings_create_nothing upper int pars self self' e :
  read_command_line_parameters upper int self pars = (self', e) →
  dom (_sections self') = dom (_sections self)
  ∧ ∀ name section' x,
      _sections self' !! name = Some section' →
      is_Some (__dict__ section' !! x) →
      ∃ section k, _sections self !! name = Some section
                   ∧ is_Some (__dict__ section !! marker_name k x).
Proof.
  intros Hrun.
  eapply (read_command_line_parameters_inv upper int (λ c,
    dom (_sections c) = dom (_sections self)
    ∧ ∀ name section' x,
        _sections c !! name = Some section' →
        is_Some (__dict__ section' !! x) →
        ∃ section k, _sections self !! name = Some section
                     ∧ is_Some (__dict__ section !! marker_name k x)));
    [| |exact Hrun].
  - clear. intros c sec opt v c' [Hdom Hin] Hset.
    apply set_config_value_returned in Hset
      as (section0 & option_type & val & Hsec & Hopt & Hty & Hco & ->). simpl.
    split.
    + rewrite dom_insert_L, <- Hdom.
      apply (elem_of_dom_2 (D := gset string)) in Hsec.
      apply subseteq_union_1_L. by apply singleton_subseteq_l.
    + intros name section' x Hlk Hx.
      destruct (decide (sec = name)) as [->|Hne].
      * rewrite lookup_insert_eq in Hlk. simplify_eq. simpl in Hx.
        destruct (decide (opt = x)) as [->|Hox].
        -- unfold has_option in Hopt. apply orb_prop in Hopt as [H|H];
             apply bool_decide_eq_true in H.
           ++ by apply (Hin name section0 x).
           ++ destruct (Hin name section0 _ Hsec H) as (section & k & Hs & Hk).
              exists section, (S k). split; [done|].
              by rewrite marker_name_S.
        -- rewrite lookup_insert_ne in Hx by done. by apply (Hin name section0 x).
      * rewrite lookup_insert_ne in Hlk by done. by apply (Hin name section' x).
  - split; [done|]. intros name section' x Hlk Hx. by exists section', 0%nat.
Qed.

(** X18.  An option that holds a [bool], an [int] or a [str] and has no
    marker names in its section is of that class after any command
    line, however the call ends: a setting stores a value of the
    option's class or raises. *)
Theorem typed_option_kept upper int pars self self' e name section x option_type :
  _sections self !! name = Some section →
  holds section x option_type →
  read_command_line_parameters upper int self pars = (self', e) →
  ∃ section', _sections self' !! name = Some section' ∧ holds section' x option_type.
Proof.
  intros Hname Hholds Hrun.
  eapply (read_command_line_parameters_inv upper int (λ c,
    ∃ section', _sections c !! name = Some section' ∧ holds section' x option_type));
    [|by exists section|exact Hrun].
  clear. intros c sec opt v c' (section & Hname & Hholds) Hset.
  by eapply set_config_value_holds.
Qed.

(** X19.  Whatever the command line holds, the section of the application
    that [BaseAppConfigModel.__init__] has set up keeps a [bool] in
    [debug_mode] and [int]s in [minimum_downtime_duration] and
    [maximum_timer_slack]: [event_queue] can read its three settings. *)
Theorem app_config_survives_settings upper int pars self self' e name p_section_name :
  _sections self !! name = Some (new_base_app_config_model p_section_name) →
  read_command_line_parameters upper int self pars = (self', e) →
  ∃ section' cfg, __getitem__ self' name = inl section'
                  ∧ app_config_of section' = Some cfg.
Proof.
  intros Hname Hrun.
  destruct (new_base_app_config_model_holds p_section_name) as (_ & Hd & Hm & Ht).
  cut (∃ section', _sections self' !! name = Some section'
         ∧ holds section' "debug_mode" "bool"
         ∧ holds section' "minimum_downtime_duration" "int"
         ∧ holds section' "maximum_timer_slack" "int").
  { intros (section' & Hlk & [(d & Hdv & Hdi) _] & [(m & Hmv & Hmi) _] & [(t & Htv & Hti) _]).
    exists section'. unfold __getitem__, app_config_of, getattr.
    rewrite Hlk, Hdv, Hmv, Htv.
    destruct d; try done; destruct m; try done; destruct t; try done. eauto. }
  eapply (read_command_line_parameters_inv upper int (λ c,
    ∃ section', _sections c !! name = Some section'
      ∧ holds section' "debug_mode" "bool"
      ∧ holds section' "minimum_downtime_duration" "int"
      ∧ holds section' "maximum_timer_slack" "int")); [|by eauto|exact Hrun].
  clear. intros c sec opt v c' (section & Hname & Hd & Hm & Ht) Hset.
  destruct (set_config_value_holds _ _ _ _ _ _ _ _ _ _ _ Hset Hname Hd) as (s1 & Hs1 & ?).
  destruct (set_config_value_holds _ _ _ _ _ _ _ _ _ _ _ Hset Hname Hm) as (s2 & Hs2 & ?).
  destruct (set_config_value_holds _ _ _ _ _ _ _ _ _ _ _ Hset Hname Ht) as (s3 & Hs3 & ?).
  simplify_eq. eauto.
Qed.

(** X20.  A setting that succeeded can be repeated: the second call succeeds
    too and changes nothing, whatever the class of the option was. *)
Theorem set_config_value_idempotent upper int self p_section_name p_option p_option_value self' :
  set_config_value upper int self p_section_name p_option p_option_value = (self', Returned) →
  set_config_value upper int self' p_section_name p_option p_option_value = (self', Returned).
Proof.
  intros Hset. apply set_config_value_returned in Hset
    as (section & option_type & v & Hsec & Hopt & Hty & Hco & ->).
  rewrite set_config_value_coerced. cbn [_sections]. rewrite lookup_insert_eq.
  unfold has_option. cbn [__dict__]. rewrite lookup_insert_eq.
  rewrite bool_decide_eq_true_2 by done. cbn [orb].
  assert (get_option_type {| __dict__ := <[p_option:=v]> (__dict__ section) |} p_option
          = inl (if bool_decide (is_Some (__dict__ section !! (NONE_TYPE_PREFIX +:+ p_option))
                                 ∧ dict_get (__dict__ section) (NONE_TYPE_PREFIX +:+ p_option) ≠ VNone)
                 then option_type else type_name v)) as ->.
  { unfold get_option_type, dict_get in *. cbn [__dict__].
    rewrite lookup_insert_ne by (by intros H; apply (marker_ne p_option)).
    rewrite lookup_insert_eq.
    destruct (__dict__ section !! (NONE_TYPE_PREFIX +:+ p_option)) as [[]|] eqn:Hm;
      simpl in *; done. }
  assert (coerced upper int (type_name v) p_option_value = Some v) as Hco'.
  { revert Hco. unfold coerced.
    destruct (bool_decide (option_type = "bool")).
    { repeat case_match; by intros [= <-]. }
    destruct (bool_decide (option_type = "int")).
    { by destruct (int p_option_value); intros [= <-]. }
    by intros [= <-]. }
  destruct (bool_decide _); [rewrite Hco|rewrite Hco'];
    by rewrite !insert_insert_eq.
Qed.

(** X21.  Reading an attribute that has just been assigned.  A value that is
    not a class is read back, [None] included.  Assigning a class only
    records the class under the marker name: the attribute then reads
    as [None] when it held nothing, and still reads as its old value
    when it held one. *)
Theorem getattr_after_setattr self p_option_name p_value :
  getattr (__setattr__ self p_option_name p_value) p_option_name
  = match p_value with
    | VType _ =>
        match __dict__ self !! p_option_name with
        | Some old => inl old
        | None => inl VNone
        end
    | _ => inl p_value
    end.
Proof.
  unfold getattr, __setattr__.
  destruct p_value; cbn [__dict__]; rewrite ?lookup_insert_eq; try done.
  rewrite lookup_insert_ne by apply marker_ne.
  destruct (__dict__ self !! p_option_name); [done|].
  unfold __getattr__, dict_get. cbn [__dict__]. by rewrite lookup_insert_eq.
Qed.

(** X22.  The marker of an option is itself accepted as an option, of the
    class [type]; a setting for it replaces the class by a string, and
    from then on every setting of the option itself raises an
    [AttributeError] (not a [ConfigurationException]). *)
Theorem overwritten_marker_disables_option upper int self p_section_name section
    p_option class_name p_option_value :
  _sections self !! p_section_name = Some section →
  __dict__ section !! marker_name 1 p_option = Some (VType class_name) →
  __dict__ section !! marker_name 2 p_option = None →
  ∃ self',
    set_config_value upper int self p_section_name (marker_name 1 p_option) p_option_value
    = (self', Returned)
    ∧ ∀ value, set_config_value upper int self' p_section_name p_option value
               = (self', Raise AttributeError).
Proof.
  intros Hsec Hm1 Hm2. cbn [marker_name] in *.
  rewrite set_config_value_coerced, Hsec.
  unfold has_option, get_option_type, dict_get. rewrite Hm1, Hm2.
  rewrite bool_decide_eq_true_2 by done. simpl.
  eexists. split; [reflexivity|]. intros value.
  rewrite set_config_value_coerced. cbn [_sections]. rewrite lookup_insert_eq.
  unfold has_option, get_option_type, dict_get. cbn [__dict__].
  rewrite lookup_insert_eq, (bool_decide_eq_true_2 (is_Some (Some _))) by done.
  by rewrite orb_true_r.
Qed.

(** X23.  A section that has been added is the section that the
    configuration returns under its name, whether or not a section of
    that name existed; the other names are not affected. *)
Theorem add_section_getitem self p_section section_name :
  getattr p_section "section_name" = inl (VStr section_name) →
  ∃ self', add_section self p_section = Some (self', Returned)
    ∧ __getitem__ self' section_name = inl p_section
    ∧ ∀ p_key, p_key ≠ section_name → __getitem__ self' p_key = __getitem__ self p_key.
Proof.
  intros Hname. unfold add_section. rewrite Hname. eexists. split; [done|].
  unfold __getitem__. cbn [_sections]. rewrite lookup_insert_eq. split; [done|].
  intros p_key Hne. by rewrite lookup_insert_ne.
Qed.

(** ** The theorems above at concrete states *)

Lemma wf_with_single_run s b : wf s → wf (with_single_run s b).
Proof. by intros [? ? ?]. Qed.

Lemma wf_one_pending : wf one_pending.
Proof.
  apply wf_check; [by vm_compute|by vm_compute|].
  by apply (bool_decide_unpack _).
Qed.

(** A single run over the three late tasks. *)
Lemma event_queue_keeps_tasks_witness :
  let s := with_single_run (three_late default_config) true in
  ∃ s' e, event_queue (frozen_clock example_now) sound_sleep 1 10 s = Some (s', e)
    ∧ wf s' ∧ _recurring_tasks s' ≡ₚ _recurring_tasks s
    ∧ _app_config s' = _app_config s.
Proof.
  cbv zeta.
  destruct (event_queue (frozen_clock example_now) sound_sleep 1 10
              (with_single_run (three_late default_config) true))
    as [[s' e]|] eqn:Hrun; [|by vm_compute in Hrun].
  exists s', e. split; [reflexivity|].
  apply (event_queue_keeps_tasks (frozen_clock example_now) sound_sleep 1 10
           (with_single_run (three_late default_config) true) s' e).
  - apply wf_with_single_run, wf_three_late.
  - by vm_compute.
  - exact Hrun.
Defined.

Lemma single_run_makes_one_cycle_witness :
  let s := with_single_run (three_late default_config) true in
  event_queue (frozen_clock example_now) sound_sleep 3 10 s
  = cycle (frozen_clock example_now) sound_sleep 10 s
  ∧ ∀ s' e, cycle (frozen_clock example_now) sound_sleep 10 s = Some (s', e) → e ≠ Continue.
Proof.
  apply (single_run_makes_one_cycle (frozen_clock example_now) sound_sleep 2 10
           (with_single_run (three_late default_config) true)).
  reflexivity.
Defined.

(** The task whose handler raises, in the default mode: the loop goes
    on after the failure and ends with the single run. *)
Lemma default_mode_never_propagates_witness :
  ∃ s' e, event_queue (frozen_clock example_now) sound_sleep 1 10
            (with_single_run one_failing true) = Some (s', e)
    ∧ e = Done.
Proof.
  destruct (event_queue (frozen_clock example_now) sound_sleep 1 10
              (with_single_run one_failing true))
    as [[s' e]|] eqn:Hrun; [|by vm_compute in Hrun].
  exists s', e. split; [reflexivity|].
  apply (default_mode_never_propagates (frozen_clock example_now) sound_sleep 1 10
           (with_single_run one_failing true) s' e).
  - reflexivity.
  - exact Hrun.
Defined.

(** A signal during the sleep before the pending task. *)
Lemma interrupted_sleep_ends_cycle_witness :
  cycle (frozen_clock 0) interrupted_sleep 10 one_pending
  = Some (emit (EvSleep 10000000) (tick one_pending), Done).
Proof.
  refine (interrupted_sleep_ends_cycle (frozen_clock 0) interrupted_sleep 10 one_pending _ _ _).
  - by vm_compute.
  - discriminate.
  - discriminate.
Defined.

(** An application without tasks. *)
Lemma empty_queue_cycle_witness :
  cycle (frozen_clock 0) sound_sleep 10 (queued [] [] default_config)
  = Some (emit (EvSleep (timedelta ETERNITY)) (tick (queued [] [] default_config)), Continue).
Proof.
  refine (empty_queue_cycle (frozen_clock 0) sound_sleep 10 (queued [] [] default_config) _ _ _).
  - reflexivity.
  - discriminate.
  - discriminate.
Defined.

Lemma downtime_accumulator_witness :
  let s := three_late default_config in
  ∃ s' o, cycle_body (frozen_clock example_now) sound_sleep 10 s = Some (s', o)
    ∧ 0 ≤ _downtime s'
    ∧ (o = Normal → _recurring_tasks s ≠ [] → _downtime s' = 0)
    ∧ (o ≠ Normal → _downtime s ≤ _downtime s').
Proof.
  cbv zeta.
  destruct (cycle_body (frozen_clock example_now) sound_sleep 10 (three_late default_config))
    as [[s' o]|] eqn:Hrun; [|by vm_compute in Hrun].
  exists s', o. split; [reflexivity|].
  apply (downtime_accumulator (frozen_clock example_now) sound_sleep 10
           (three_late default_config) s' o).
  - by vm_compute.
  - by vm_compute.
  - by vm_compute.
  - exact Hrun.
Defined.

Lemma handlers_never_called_early_witness :
  ∃ evs, log (after_catching_up (frozen_clock example_now) (three_late lenient_config))
         = evs ++ log (three_late lenient_config)
    ∧ Forall (Z.lt 0) (handler_delays evs).
Proof.
  apply (handlers_never_called_early (frozen_clock example_now) 10
           (three_late lenient_config) _ Normal).
  by vm_compute.
Defined.

(** The pending task, due at 10 s, when the clock shows 15.1 s after
    the sleep. *)
Lemma waking_realigns_queue_witness :
  let s := one_pending in
  let s' := waking (frozen_clock 15100000) 0 s in
  wf s'
  ∧ due_of s' 0%nat = 15100000
  ∧ (∀ id, id ∈ _recurring_tasks s' →
       15100000 ≤ due_of s' id ∧ is_datetime (due_of s' id) = true).
Proof.
  apply (waking_realigns_queue (frozen_clock 15100000) one_pending 0%nat).
  - apply wf_one_pending.
  - reflexivity.
  - by vm_compute.
  - by vm_compute.
  - by vm_compute.
Defined.

Lemma track_downtime_adds_up_witness :
  let s := three_late default_config in
  let s2 := track_downtime 2000000 (track_downtime 1000000 s) in
  wf s2
  ∧ _recurring_tasks s2 ≡ₚ _recurring_tasks s
  ∧ (∀ id, id ∈ _recurring_tasks s →
       due_of s2 id = due_of s id + 3000000 ∧ is_datetime (due_of s2 id) = true)
  ∧ tracked (log s2) = 2000000 :: 1000000 :: tracked (log s)
  ∧ (0 ≤ 1000000 → 0 ≤ 2000000 → _downtime s ≤ _downtime s2).
Proof.
  apply (track_downtime_adds_up 1000000 2000000 (three_late default_config)).
  - apply wf_three_late.
  - by vm_compute.
  - by vm_compute.
Defined.

Lemma shift_round_trip_witness :
  let s := three_late default_config in
  let s' := adapt_active_recurring_tasks (- 5000000) (adapt_active_recurring_tasks 5000000 s) in
  wf s' ∧ objects s' = objects s ∧ _recurring_tasks s' ≡ₚ _recurring_tasks s.
Proof.
  apply (shift_round_trip 5000000 (three_late default_config)).
  apply wf_three_late.
Defined.

Lemma pop_reinsert_reschedules_witness :
  let s := three_late default_config in
  let s' := pop_reinsert (frozen_clock example_now) s in
  wf s' ∧ _recurring_tasks s' ≡ₚ _recurring_tasks s
  ∧ due_of s' 0%nat = example_now + timedelta 60
  ∧ is_datetime (due_of s' 0%nat) = true
  ∧ readings s' = S (readings s)
  ∧ (∀ id, id ≠ 0%nat → objects s' !! id = objects s !! id).
Proof.
  apply (pop_reinsert_reschedules (frozen_clock example_now) (three_late default_config)
           0%nat (task_due "a" returns 60 (example_now - 30000000) false)).
  - apply wf_three_late.
  - reflexivity.
  - reflexivity.
  - by vm_compute.
Defined.

Lemma cmdline_parameter_round_trip_witness :
  REGEX_CMDLINE_PARAMETER "Base-App.debug_mode=no = yes"
  = Some ("Base-App", "debug_mode", "no = yes").
Proof.
  apply (cmdline_parameter_round_trip "Base-App" "debug_mode" "no = yes");
    (discriminate || reflexivity).
Defined.

Lemma cmdline_parameter_groups_witness :
  let par := String.append "a.b=c" (String "010" "d") in
  "a" ≠ EmptyString ∧ "b" ≠ EmptyString
  ∧ string_forall is_section_char "a" = true
  ∧ string_forall is_option_char "b" = true
  ∧ string_forall is_dot_char "c" = true
  ∧ ∃ rest, par = "a" +:+ "." +:+ "b" +:+ "=" +:+ "c" +:+ rest
            ∧ (rest = EmptyString ∨ ∃ r, rest = String "010" r).
Proof.
  apply (cmdline_parameter_groups (String.append "a.b=c" (String "010" "d")) "a" "b" "c").
  reflexivity.
Defined.

(** Four parameters: a setting, a parameter without an equals sign, a
    setting that [int] rejects, and a setting that is not reached. *)
Lemma read_command_line_parameters_stops_at_failure_witness :
  let pars := ["BaseApp.debug_mode=yes"; "verbose";
               "BaseApp.maximum_timer_slack=soon"; "BaseApp.debug_mode=no"] in
  ∃ self' e l1 par l2 section_name option_name value,
    read_command_line_parameters example_upper example_int example_configuration pars
    = (self', Raise e)
    ∧ pars = l1 ++ par :: l2
    ∧ read_command_line_parameters example_upper example_int example_configuration l1
      = (self', Returned)
    ∧ REGEX_CMDLINE_PARAMETER par = Some (section_name, option_name, value)
    ∧ set_config_value example_upper example_int self' section_name option_name value
      = (self', Raise e).
Proof.
  cbv zeta.
  destruct (read_command_line_parameters example_upper example_int example_configuration
              ["BaseApp.debug_mode=yes"; "verbose";
               "BaseApp.maximum_timer_slack=soon"; "BaseApp.debug_mode=no"])
    as [self' [|e]] eqn:Hrun; [by vm_compute in Hrun|].
  destruct (read_command_line_parameters_stops_at_failure example_upper example_int
              _ example_configuration self' e Hrun)
    as (l1 & par & l2 & s & o & v & H).
  by exists self', e, l1, par, l2, s, o, v.
Defined.

Lemma settings_create_nothing_witness :
  ∃ self' e,
    read_command_line_parameters example_upper example_int example_configuration
      ["BaseApp.log_level=DEBUG"; "Other.debug_mode=yes"] = (self', e)
    ∧ dom (_sections self') = dom (_sections example_configuration)
    ∧ ∀ name section' x,
        _sections self' !! name = Some section' →
        is_Some (__dict__ section' !! x) →
        ∃ section k, _sections example_configuration !! name = Some section
                     ∧ is_Some (__dict__ section !! marker_name k x).
Proof.
  destruct (read_command_line_parameters example_upper example_int example_configuration
              ["BaseApp.log_level=DEBUG"; "Other.debug_mode=yes"])
    as [self' e] eqn:Hrun.
  exists self', e. split; [reflexivity|].
  exact (settings_create_nothing example_upper example_int _ example_configuration self' e Hrun).
Defined.

Lemma typed_option_kept_witness :
  ∃ self' e,
    read_command_line_parameters example_upper example_int example_configuration
      ["BaseApp.maximum_timer_slack=12"; "BaseApp.maximum_timer_slack=soon"] = (self', e)
    ∧ ∃ section', _sections self' !! "BaseApp" = Some section'
                  ∧ holds section' "maximum_timer_slack" "int".
Proof.
  destruct (read_command_line_parameters example_upper example_int example_configuration
              ["BaseApp.maximum_timer_slack=12"; "BaseApp.maximum_timer_slack=soon"])
    as [self' e] eqn:Hrun.
  exists self', e. split; [reflexivity|].
  refine (typed_option_kept example_upper example_int _ example_configuration self' e
            "BaseApp" (new_base_app_config_model "BaseApp") "maximum_timer_slack" "int"
            _ _ Hrun).
  - reflexivity.
  - apply new_base_app_config_model_holds.
Defined.

Lemma app_config_survives_settings_witness :
  ∃ self' e,
    read_command_line_parameters example_upper example_int example_configuration
      ["BaseApp.debug_mode=yes"; "BaseApp._TYPE_log_level=x"; "BaseApp.log_level=y"] = (self', e)
    ∧ ∃ section' cfg, __getitem__ self' "BaseApp" = inl section'
                      ∧ app_config_of section' = Some cfg.
Proof.
  destruct (read_command_line_parameters example_upper example_int example_configuration
              ["BaseApp.debug_mode=yes"; "BaseApp._TYPE_log_level=x"; "BaseApp.log_level=y"])
    as [self' e] eqn:Hrun.
  exists self', e. split; [reflexivity|].
  refine (app_config_survives_settings example_upper example_int _ example_configuration
            self' e "BaseApp" "BaseApp" _ Hrun).
  reflexivity.
Defined.

Lemma set_config_value_idempotent_witness :
  ∃ self',
    set_config_value example_upper example_int example_configuration
      "BaseApp" "_options" "none" = (self', Returned)
    ∧ set_config_value example_upper example_int self' "BaseApp" "_options" "none"
      = (self', Returned).
Proof.
  destruct (set_config_value example_upper example_int example_configuration
              "BaseApp" "_options" "none") as [self' [|e]] eqn:Hset;
    [|by vm_compute in Hset].
  exists self'. split; [reflexivity|].
  exact (set_config_value_idempotent example_upper example_int example_configuration
           "BaseApp" "_options" "none" self' Hset).
Defined.

Lemma overwritten_marker_disables_option_witness :
  ∃ self',
    set_config_value example_upper example_int example_configuration
      "BaseApp" "_TYPE_log_level" "x" = (self', Returned)
    ∧ ∀ value, set_config_value example_upper example_int self' "BaseApp" "log_level" value
               = (self', Raise AttributeError).
Proof.
  apply (overwritten_marker_disables_option example_upper example_int example_configuration
           "BaseApp" (new_base_app_config_model "BaseApp") "log_level" "str" "x");
    reflexivity.
Defined.

Lemma add_section_getitem_witness :
  ∃ self', add_section example_configuration (new_config_model "Other") = Some (self', Returned)
    ∧ __getitem__ self' "Other" = inl (new_config_model "Other")
    ∧ ∀ p_key, p_key ≠ "Other" → __getitem__ self' p_key = __getitem__ example_configuration p_key.
Proof.
  apply (add_section_getitem example_configuration (new_config_model "Other") "Other").
  reflexivity.
Defined.
